(** * bit-buffer: bit-level reads and writes over a byte buffer

    A shallow embedding of [BitView] (the bit engine), [BitStream] (the
    cursor) and the string helpers of [utils.ts], followed by the
    properties stated about them.

    JavaScript numbers that the library uses as integers are embedded as
    [Z]; every bitwise operator of the source is embedded with its 32-bit
    coercions written out.  Floating-point numbers are embedded by their
    IEEE-754 bit patterns. *)

From Stdlib Require Import ZArith List Bool Lia.
Import ListNotations.
Local Open Scope Z_scope.

(* ================================================================== *)
(** ** JavaScript operators *)
(* ================================================================== *)

Module JS.

(** [ToInt32]: the operand coercion of [<<], [>>], [&], [|], [^], [~]. *)
Definition ToInt32 (x : Z) : Z := (x + 2 ^ 31) mod 2 ^ 32 - 2 ^ 31.

(** [ToUint32]: the operand coercion of [>>>]. *)
Definition ToUint32 (x : Z) : Z := x mod 2 ^ 32.

(** [ToUint8]: the coercion of a store into a [Uint8Array]. *)
Definition ToUint8 (x : Z) : Z := x mod 2 ^ 8.

(** Shift counts are taken modulo 32. *)
Definition shl (a b : Z) : Z := ToInt32 (Z.shiftl (ToInt32 a) (b mod 32)).
Definition sar (a b : Z) : Z := Z.shiftr (ToInt32 a) (b mod 32).
Definition shr (a b : Z) : Z := Z.shiftr (ToUint32 a) (b mod 32).
Definition band (a b : Z) : Z := Z.land (ToInt32 a) (ToInt32 b).
Definition bor (a b : Z) : Z := Z.lor (ToInt32 a) (ToInt32 b).
Definition bxor (a b : Z) : Z := Z.lxor (ToInt32 a) (ToInt32 b).
Definition bnot (a : Z) : Z := Z.lnot (ToInt32 a).

(** [Boolean(x)] of an integer. *)
Definition truthy (x : Z) : bool := negb (x =? 0).

(** [x ?? d] on an optional argument ([None] is [undefined]). *)
Definition nullish (x : option Z) (d : Z) : Z :=
  match x with Some v => v | None => d end.

(** [x || y] on integers. *)
Definition or_else (x y : Z) : Z := if truthy x then x else y.

(** A number that may be [NaN]. *)
Inductive number : Type :=
| Num (z : Z)
| NaN.

(** [x - y] where [y] may be [undefined]: [ToNumber(undefined)] is [NaN]. *)
Definition sub_undef (x : Z) (y : option Z) : number :=
  match y with Some v => Num (x - v) | None => NaN end.

(** [Math.floor] of an integer or [NaN]. *)
Definition floor (x : number) : number := x.

(** [i < b]: every comparison with [NaN] is false. *)
Definition lt (i : Z) (b : number) : bool :=
  match b with Num z => i <? z | NaN => false end.

End JS.

Declare Scope js_scope.
Delimit Scope js_scope with js.
Notation "a :<<: b" := (JS.shl a b) (at level 52, left associativity) : js_scope.
Notation "a :>>: b" := (JS.sar a b) (at level 52, left associativity) : js_scope.
Notation "a :>>>: b" := (JS.shr a b) (at level 52, left associativity) : js_scope.
Notation "a :&: b" := (JS.band a b) (at level 54, left associativity) : js_scope.
Notation "a :^: b" := (JS.bxor a b) (at level 56, left associativity) : js_scope.
Notation "a :|: b" := (JS.bor a b) (at level 58, left associativity) : js_scope.
Notation ":~: a" := (JS.bnot a) (at level 35, right associativity) : js_scope.
Local Open Scope js_scope.

(* ================================================================== *)
(** ** Errors and the result of a call *)
(* ================================================================== *)

(** The two [Error]s the library throws, told apart by their message. *)
Inductive error : Type :=
| OutOfRange   (* "Cannot get/set n bit(s) from offset o, a available" *)
| EndOfStream. (* "Trying to read past the end of the stream" *)

Inductive result (A : Type) : Type :=
| Ok (a : A)
| Throw (e : error).
Arguments Ok {A} a.
Arguments Throw {A} e.

(** A method is a function from the state it runs on to its result and
    the state it leaves, also when it throws. *)
Definition M (S A : Type) : Type := S -> result A * S.

Definition ret {S A} (a : A) : M S A := fun s => (Ok a, s).

Definition throw {S A} (e : error) : M S A := fun s => (Throw e, s).

Definition bind {S A B} (m : M S A) (k : A -> M S B) : M S B :=
  fun s => match m s with
           | (Ok a, s') => k a s'
           | (Throw e, s') => (Throw e, s')
           end.

Notation "x <- m ;; k" := (bind m (fun x => k))
  (at level 100, m at next level, right associativity).
Notation "m ;;; k" := (bind m (fun _ => k))
  (at level 100, right associativity).

(** [for (let i = i0; i < stop; i++) body(i)], with [n] iterations left. *)
Fixpoint for_loop {S} (n : nat) (i : Z) (body : Z -> M S unit) : M S unit :=
  match n with
  | O => ret tt
  | S n' => body i ;;; for_loop n' (i + 1) body
  end.

(* ================================================================== *)
(** ** Uint8Array and DataView *)
(* ================================================================== *)

Module Uint8Array.

Definition t : Type := list Z.

Fixpoint set_nth (n : nat) (x : Z) (a : t) : t :=
  match a, n with
  | [], _ => []
  | _ :: a', O => x :: a'
  | y :: a', S n' => y :: set_nth n' x a'
  end.

(** [a[i]] as an operand of a bitwise operator: an index outside the
    array reads [undefined], which the operator coerces to 0. *)
Definition read (a : t) (i : Z) : Z :=
  if i <? 0 then 0 else nth (Z.to_nat i) a 0.

(** [a[i] = x]: the value is stored modulo 256; a store outside the
    array is ignored. *)
Definition write (a : t) (i : Z) (x : Z) : t :=
  if i <? 0 then a else set_nth (Z.to_nat i) (JS.ToUint8 x) a.

End Uint8Array.

(** The scratch [DataView] over 8 bytes, used at byte offsets 0 and 4
    with the default (big-endian) byte order. *)
Module DataView.

(** Store [n] bytes of [value], the most significant one first. *)
Fixpoint set_be (n : nat) (s : list Z) (byteOffset value : Z) : list Z :=
  match n with
  | O => s
  | S n' =>
    set_be n' (Uint8Array.write s (byteOffset + Z.of_nat n') value)
           byteOffset (value / 256)
  end.

Fixpoint get_be (n : nat) (s : list Z) (byteOffset acc : Z) : Z :=
  match n with
  | O => acc
  | S n' => get_be n' s (byteOffset + 1)
                   (acc * 256 + Uint8Array.read s byteOffset)
  end.

Definition setUint32 (byteOffset value : Z) (s : list Z) : list Z :=
  set_be 4 s byteOffset (JS.ToUint32 value).

Definition getUint32 (byteOffset : Z) (s : list Z) : Z :=
  get_be 4 s byteOffset 0.

(** A double is given by its 64 bits. *)
Definition setFloat64 (byteOffset value : Z) (s : list Z) : list Z :=
  set_be 8 s byteOffset value.

Definition getFloat64 (byteOffset : Z) (s : list Z) : Z :=
  get_be 8 s byteOffset 0.

End DataView.

(* ================================================================== *)
(** ** BitView *)
(* ================================================================== *)

Record BitView : Type := mkBitView {
  _view : Uint8Array.t;
  _scratch : list Z;       (* the 8 bytes of the scratch DataView *)
  bigEndian : bool
}.

Definition byteLength (this : BitView) : Z := Z.of_nat (length (_view this)).

Definition with_view (this : BitView) (a : Uint8Array.t) : BitView :=
  mkBitView a (_scratch this) (bigEndian this).

Definition with_scratch (this : BitView) (s : list Z) : BitView :=
  mkBitView (_view this) s (bigEndian this).

(** [new BitView(source)] with the default offset and length. *)
Definition newBitView (source : list Z) : BitView :=
  mkBitView source (repeat 0 8) false.

(** The loop of [getBits]; [fuel] bounds the number of iterations. *)
Fixpoint getBits_loop (fuel : nat) (this : BitView)
         (bits offset i value : Z) : Z :=
  match fuel with
  | O => value
  | S fuel' =>
    if i <? bits then
      let remaining := bits - i in
      let bitOffset := offset :&: 7 in
      let currentByte := Uint8Array.read (_view this) (offset :>>: 3) in
      let read := Z.min remaining (8 - bitOffset) in
      if bigEndian this then
        let mask := :~: (255 :<<: read) in
        let readBits := (currentByte :>>: (8 - read - bitOffset)) :&: mask in
        let value := value :<<: read in
        let value := value :|: readBits in
        getBits_loop fuel' this bits (offset + read) (i + read) value
      else
        let mask := :~: (255 :<<: read) in
        let readBits := (currentByte :>>: bitOffset) :&: mask in
        let value := value :|: (readBits :<<: i) in
        getBits_loop fuel' this bits (offset + read) (i + read) value
    else value
  end.

(** [getBits] does not change the view. Every iteration of its loop
    advances [i] by at least one bit, so [bits] iterations are enough. *)
Definition getBits (this : BitView) (offset bits : Z) (signed : bool)
  : result Z :=
  let available := byteLength this * 8 - offset in
  if bits >? available then Throw OutOfRange
  else
    let value := getBits_loop (Z.to_nat bits) this bits offset 0 0 in
    if signed then
      if negb (bits =? 32) && JS.truthy (value :&: (1 :<<: (bits - 1))) then
        Ok (value :|: (-1 :^: ((1 :<<: bits) - 1)))
      else Ok value
    else Ok (value :>>>: 0).

(** The loop of [setBits], on the array it updates. *)
Fixpoint setBits_loop (fuel : nat) (big : bool) (a : Uint8Array.t)
         (bits offset value i : Z) : Uint8Array.t :=
  match fuel with
  | O => a
  | S fuel' =>
    if i <? bits then
      let remaining := bits - i in
      let bitOffset := offset :&: 7 in
      let byteOffset := offset :>>: 3 in
      let wrote := Z.min remaining (8 - bitOffset) in
      if big then
        let mask := :~: (:~: 0 :<<: wrote) in
        let writeBits := (value :>>: (bits - i - wrote)) :&: mask in
        let destShift := 8 - bitOffset - wrote in
        let destMask := :~: (mask :<<: destShift) in
        let a := Uint8Array.write a byteOffset
                   ((Uint8Array.read a byteOffset :&: destMask)
                      :|: (writeBits :<<: destShift)) in
        setBits_loop fuel' big a bits (offset + wrote) value (i + wrote)
      else
        let mask := :~: (255 :<<: wrote) in
        let writeBits := value :&: mask in
        let value := value :>>: wrote in
        let destMask := :~: (mask :<<: bitOffset) in
        let a := Uint8Array.write a byteOffset
                   ((Uint8Array.read a byteOffset :&: destMask)
                      :|: (writeBits :<<: bitOffset)) in
        setBits_loop fuel' big a bits (offset + wrote) value (i + wrote)
    else a
  end.

Definition setBits (offset value bits : Z) : M BitView unit :=
  fun this =>
    let available := byteLength this * 8 - offset in
    if bits >? available then (Throw OutOfRange, this)
    else
      (Ok tt,
       with_view this
         (setBits_loop (Z.to_nat bits) (bigEndian this) (_view this)
                       bits offset value 0)).

(** [this.getBits(...)] as a method call. *)
Definition getBitsM (offset bits : Z) (signed : bool) : M BitView Z :=
  fun this => (getBits this offset bits signed, this).

(** Calls on [this._scratch]. *)
Definition scratch_set (f : list Z -> list Z) : M BitView unit :=
  fun this => (Ok tt, with_scratch this (f (_scratch this))).

Definition scratch_get {A} (f : list Z -> A) : M BitView A :=
  fun this => (Ok (f (_scratch this)), this).

Definition getBoolean (offset : Z) : M BitView bool :=
  v <- getBitsM offset 1 false ;; ret (negb (v =? 0)).

Definition getInt8 (offset : Z) : M BitView Z := getBitsM offset 8 true.
Definition getInt16 (offset : Z) : M BitView Z := getBitsM offset 16 true.
Definition getInt32 (offset : Z) : M BitView Z := getBitsM offset 32 true.

Definition getUint8 (offset : Z) : M BitView Z := getBitsM offset 8 false.
Definition getUint16 (offset : Z) : M BitView Z := getBitsM offset 16 false.
Definition getUint32 (offset : Z) : M BitView Z := getBitsM offset 32 false.

Definition getFloat64 (offset : Z) : M BitView Z :=
  hi <- getUint32 offset ;;
  scratch_set (DataView.setUint32 0 hi) ;;;
  lo <- getUint32 (offset + 32) ;;
  scratch_set (DataView.setUint32 4 lo) ;;;
  scratch_get (DataView.getFloat64 0).

Definition setBoolean (offset : Z) (value : bool) : M BitView unit :=
  setBits offset (if value then 1 else 0) 1.

Definition setInt8 (offset value : Z) : M BitView unit :=
  setBits offset value 8.

Definition setInt16 (offset value : Z) : M BitView unit :=
  setBits offset value 16.

Definition setInt32 (offset value : Z) : M BitView unit :=
  setBits offset value 32.

Definition setUint8 := setInt8.
Definition setUint16 := setInt16.
Definition setUint32 := setInt32.

Definition setFloat64 (offset value : Z) : M BitView unit :=
  scratch_set (DataView.setFloat64 0 value) ;;;
  hi <- scratch_get (DataView.getUint32 0) ;;
  setBits offset hi 32 ;;;
  lo <- scratch_get (DataView.getUint32 4) ;;
  setBits offset lo 32.

(* ================================================================== *)
(** ** BitStream *)
(* ================================================================== *)

(** Views are objects shared by reference: a stream holds the reference
    of its view, and the heap holds the views, each with the bytes its
    [Uint8Array] covers.  Streams on one view share its bytes and its
    mode.  A view is a window on the [ArrayBuffer] it was made from, and
    two views made on overlapping ranges of one buffer would show each
    other's writes: the heap does not hold such pairs, so what is said
    below of a reference other than the one written through holds for
    views on separate memory only. *)
Definition ref : Type := nat.

Definition heap : Type := ref -> BitView.

Definition upd (h : heap) (l : ref) (v : BitView) : heap :=
  fun l' => if Nat.eqb l' l then v else h l'.

Record BitStream : Type := mkBitStream {
  view : ref;
  _startIndex : Z;
  _length : Z;
  _index : Z
}.

(** A stream method runs on [this] stream and the heap. *)
Definition St : Type := (BitStream * heap)%type.

Definition this_ : M St BitStream := fun st => (Ok (fst st), st).

(** Assignments to the fields of a stream. *)
Definition with_startIndex (s : BitStream) (val : Z) : BitStream :=
  mkBitStream (view s) val (_length s) (_index s).

Definition with_length (s : BitStream) (val : Z) : BitStream :=
  mkBitStream (view s) (_startIndex s) val (_index s).

Definition with_index (s : BitStream) (val : Z) : BitStream :=
  mkBitStream (view s) (_startIndex s) (_length s) val.

(** [this._index = val]. *)
Definition set_index_ (val : Z) : M St unit :=
  fun st => (Ok tt, (with_index (fst st) val, snd st)).

(** [this._view.m(...)]: the call runs on the view the stream refers to. *)
Definition on_view {A} (m : M BitView A) : M St A :=
  fun st =>
    let l := view (fst st) in
    let (r, v') := m (snd st l) in
    (r, (fst st, upd (snd st) l v')).

(** [new BitStream(source)] for a [source] that is a [BitView]. *)
Definition newBitStream (h : heap) (source : ref) : BitStream :=
  mkBitStream source 0 (byteLength (h source) * 8) 0.

(** The window-local accessors. *)
Definition index (s : BitStream) : Z := _index s - _startIndex s.

Definition set_index (s : BitStream) (val : Z) : BitStream :=
  with_index s (val + _startIndex s).

Definition length_ (s : BitStream) : Z := _length s - _startIndex s.

Definition set_length (s : BitStream) (val : Z) : BitStream :=
  with_length s (val + _startIndex s).

Definition bitsLeft (s : BitStream) : Z := _length s - _index s.

(** [Math.ceil(this._index / 8)]. *)
Definition byteIndex (s : BitStream) : Z := - ((- _index s) / 8).

Definition set_byteIndex (s : BitStream) (val : Z) : BitStream :=
  with_index s (val * 8).

(** [reader(name, size)]: [name] is the method of the view it calls. *)
Definition reader {T} (name : Z -> M BitView T) (size : Z) : M St T :=
  s <- this_ ;;
  if _index s + size >? _length s then throw EndOfStream
  else
    val <- on_view (name (_index s)) ;;
    set_index_ (_index s + size) ;;;
    ret val.

Definition writer {T} (name : Z -> T -> M BitView unit) (size : Z)
  : T -> M St unit :=
  fun value =>
    s <- this_ ;;
    on_view (name (_index s) value) ;;;
    set_index_ (_index s + size).

Definition readBits (bits : Z) (signed : option bool) : M St Z :=
  s <- this_ ;;
  val <- on_view (getBitsM (_index s) bits
                           (match signed with Some b => b | None => false end)) ;;
  set_index_ (_index s + bits) ;;;
  ret val.

Definition writeBits (value bits : Z) : M St unit :=
  s <- this_ ;;
  on_view (setBits (_index s) value bits) ;;;
  set_index_ (_index s + bits).

Definition readBitStream (bitLength : Z) : M St BitStream :=
  fun st =>
    let this := fst st in
    let slice := newBitStream (snd st) (view this) in
    let slice := with_startIndex slice (_index this) in
    let slice := with_index slice (_index this) in
    let slice := set_length slice bitLength in
    (Ok slice, (with_index this (_index this + bitLength), snd st)).

(** A two-byte buffer, a stream over it, and its first byte as a
    sub-stream. *)
Definition two_bytes : heap := fun _ => newBitView [0; 0].

Definition parent : BitStream := newBitStream two_bytes 0%nat.

Definition first_byte : BitStream :=
  mkBitStream 0%nat 0 8 0.

(* ================================================================== *)
(** ** The float32 casts, the typed accessors and the string helpers *)
(* ================================================================== *)

Section BitBuffer.

(** What the platform's [DataView] does with single precision, on bit
    patterns: [float32_bits d] is the 32 bits [setFloat32] stores for the
    double of bits [d] (the rounding to single precision), [float32_value u]
    the bits of the double that [getFloat32] returns for the 32 bits [u]. *)
Variable float32_bits : Z -> Z.
Variable float32_value : Z -> Z.

(** [decodeURIComponent(escape(s))] on a string given by its code units;
    [None] when it throws. *)
Variable utf8_decode : list Z -> option (list Z).

Definition DataView_setFloat32 (byteOffset value : Z) (s : list Z) : list Z :=
  DataView.set_be 4 s byteOffset (float32_bits value).

Definition DataView_getFloat32 (byteOffset : Z) (s : list Z) : Z :=
  float32_value (DataView.get_be 4 s byteOffset 0).

Definition getFloat32 (offset : Z) : M BitView Z :=
  u <- getUint32 offset ;;
  scratch_set (DataView.setUint32 0 u) ;;;
  scratch_get (DataView_getFloat32 0).

Definition setFloat32 (offset value : Z) : M BitView unit :=
  scratch_set (DataView_setFloat32 0 value) ;;;
  u <- scratch_get (DataView.getUint32 0) ;;
  setBits offset u 32.

Definition readBoolean : M St bool := reader getBoolean 1.

Definition readInt8 : M St Z := reader getInt8 8.
Definition readInt16 : M St Z := reader getInt16 16.
Definition readInt32 : M St Z := reader getInt32 32.

Definition readUint8 : M St Z := reader getUint8 8.
Definition readUint16 : M St Z := reader getUint16 16.
Definition readUint32 : M St Z := reader getUint32 32.

Definition readFloat32 : M St Z := reader getFloat32 32.
Definition readFloat64 : M St Z := reader getFloat64 64.

Definition writeBoolean : bool -> M St unit := writer setBoolean 1.

Definition writeInt8 : Z -> M St unit := writer setInt8 8.
Definition writeInt16 : Z -> M St unit := writer setInt16 16.
Definition writeInt32 : Z -> M St unit := writer setInt32 32.

Definition writeUint8 : Z -> M St unit := writer setUint8 8.
Definition writeUint16 : Z -> M St unit := writer setUint16 16.
Definition writeUint32 : Z -> M St unit := writer setUint32 32.

Definition writeFloat32 : Z -> M St unit := writer setFloat32 32.
Definition writeFloat64 : Z -> M St unit := writer setFloat64 64.

(** *** utils.ts

    A string is the list of its UTF-16 code units.  The [stream] argument
    of the helpers is the stream the computation runs on. *)

Definition charCodeAt (string : list Z) (i : Z) : Z :=
  nth (Z.to_nat i) string 0.

(** [String.fromCharCode.apply(null, chars)]. *)
Definition fromCharCode (chars : list Z) : list Z :=
  map (fun c => c mod 2 ^ 16) chars.

(** The [while (i < bytes)] loop of [readString]: [i] grows by one in
    each iteration, so [bytes] iterations are enough. *)
Fixpoint readString_loop (fuel : nat) (bytes : JS.number)
         (fixedLength : bool) (i : Z) (chars : list Z) (append : bool)
  : M St (list Z) :=
  match fuel with
  | O => ret chars
  | S fuel' =>
    if JS.lt i bytes then
      c <- readUint8 ;;
      let append := if c =? 0 then false else append in
      if (c =? 0) && negb fixedLength then ret chars
      else
        let chars := if append then chars ++ [c] else chars in
        readString_loop fuel' bytes fixedLength (i + 1) chars append
    else ret chars
  end.

Definition readString (length : Z) (index : option Z) (utf8 : bool)
           (bytes : option Z) : M St (list Z) :=
  match bytes with
  | Some 0 => ret []
  | _ =>
    let fixedLength :=
      match bytes with Some b => JS.truthy b | None => false end in
    let bytes :=
      match bytes with
      | Some b => JS.Num b
      | None => JS.floor (JS.sub_undef length index)
      end in
    let fuel := match bytes with JS.Num b => Z.to_nat b | JS.NaN => O end in
    chars <- readString_loop fuel bytes fixedLength 0 [] true ;;
    let string := fromCharCode chars in
    if utf8 then
      match utf8_decode string with
      | Some decoded => ret decoded
      | None => ret string
      end
    else ret string
  end.

Definition stringToByteArray (str : list Z) : list Z :=
  flat_map
    (fun unicode =>
       if unicode <=? 0x7f then
         [unicode]
       else if unicode <=? 0x7ff then
         [(unicode :>>: 6) :|: 0xc0;
          (unicode :&: 0x3f) :|: 0x80]
       else if unicode <=? 0xffff then
         [(unicode :>>: 12) :|: 0xe0;
          ((unicode :>>: 6) :&: 0x3f) :|: 0x80;
          (unicode :&: 0x3f) :|: 0x80]
       else
         [(unicode :>>: 18) :|: 0xf0;
          ((unicode :>>: 12) :&: 0x3f) :|: 0x80;
          ((unicode :>>: 6) :&: 0x3f) :|: 0x80;
          (unicode :&: 0x3f) :|: 0x80])
    str.

Definition readASCIIString (length : Z) (index bytes : option Z)
  : M St (list Z) :=
  readString length index false bytes.

Definition readUTF8String (length : Z) (index bytes : option Z)
  : M St (list Z) :=
  readString length index true bytes.

Definition writeASCIIString (string : list Z) (bytes : option Z)
  : M St unit :=
  let len := JS.or_else (JS.nullish bytes 0)
                        (Z.of_nat (length string) + 1) in
  for_loop (Z.to_nat len) 0
    (fun i =>
       writeUint8 (if i <? Z.of_nat (length string)
                   then charCodeAt string i else 0)).

Definition writeUTF8String (string : list Z) (bytes : option Z)
  : M St unit :=
  let byteArray := stringToByteArray string in
  let len := JS.or_else (JS.nullish bytes 0)
                        (Z.of_nat (length byteArray) + 1) in
  for_loop (Z.to_nat len) 0
    (fun i =>
       writeUint8 (if i <? Z.of_nat (length byteArray)
                   then charCodeAt byteArray i else 0)).

(** *** The string methods of [BitStream]

    They pass [this] and their arguments on to the helpers by position:
    the readers pass [bytes] alone, the writers [string] and [bytes]. *)

Definition BitStream_readASCIIString (bytes : Z) : M St (list Z) :=
  readASCIIString bytes None None.

Definition BitStream_readUTF8String (bytes : Z) : M St (list Z) :=
  readUTF8String bytes None None.

Definition BitStream_writeASCIIString (string : list Z) (bytes : option Z)
  : M St unit :=
  writeASCIIString string bytes.

Definition BitStream_writeUTF8String (string : list Z) (bytes : option Z)
  : M St unit :=
  writeUTF8String string bytes.

(* ================================================================== *)
(** ** Notions used by the statements *)
(* ================================================================== *)

(** Bit [p] of the buffer in the numbering of each mode: little-endian
    counts the bits of a byte from the least significant one, big-endian
    from the most significant one. *)
Definition bitAt (big : bool) (a : Uint8Array.t) (p : Z) : bool :=
  Z.testbit (Uint8Array.read a (p / 8))
            (if big then 7 - p mod 8 else p mod 8).

(** [a'] is [a] with the [len] bits from bit [off] replaced by [vb], every
    other bit and every byte outside the span kept, and the bytes of the
    span left in byte range. *)
Definition set_post (big : bool) (a a' : Uint8Array.t) (off len : Z)
           (vb : Z -> bool) : Prop :=
  length a' = length a /\
  (forall p, 0 <= p ->
     bitAt big a' p
     = if (off <=? p) && (p <? off + len) then vb p else bitAt big a p) /\
  (forall B, 8 * B + 8 <= off \/ off + len <= 8 * B ->
     Uint8Array.read a' B = Uint8Array.read a B) /\
  (forall B, 0 <= Uint8Array.read a B < 256 ->
     0 <= Uint8Array.read a' B < 256) /\
  (forall p, off <= p < off + len ->
     0 <= Uint8Array.read a' (p / 8) < 256).

(** [v] fits in [w] bits, read as a signed or as an unsigned number. *)
Definition representable (signed : bool) (w v : Z) : Prop :=
  if signed then - 2 ^ (w - 1) <= v < 2 ^ (w - 1) else 0 <= v < 2 ^ w.

(** The typed accessors of a stream, each with the bit width of its type. *)
Inductive prim : Type :=
| Boolean | Int8 | Int16 | Int32 | Uint8 | Uint16 | Uint32
| Float32 | Float64.

Definition width (p : prim) : Z :=
  match p with
  | Boolean => 1
  | Int8 | Uint8 => 8
  | Int16 | Uint16 => 16
  | Int32 | Uint32 | Float32 => 32
  | Float64 => 64
  end.

Definition value_of (p : prim) : Type :=
  match p with Boolean => bool | _ => Z end.

Definition read_prim (p : prim) : M St (value_of p) :=
  match p with
  | Boolean => readBoolean
  | Int8 => readInt8
  | Int16 => readInt16
  | Int32 => readInt32
  | Uint8 => readUint8
  | Uint16 => readUint16
  | Uint32 => readUint32
  | Float32 => readFloat32
  | Float64 => readFloat64
  end.

Definition write_prim (p : prim) : value_of p -> M St unit :=
  match p with
  | Boolean => writeBoolean
  | Int8 => writeInt8
  | Int16 => writeInt16
  | Int32 => writeInt32
  | Uint8 => writeUint8
  | Uint16 => writeUint16
  | Uint32 => writeUint32
  | Float32 => writeFloat32
  | Float64 => writeFloat64
  end.

(** The invariant the cursor is meant to keep. *)
Definition cursor_inv (s : BitStream) : Prop :=
  _startIndex s <= _index s <= _length s.

(** A write through a stream: [writeBits] or a typed writer. *)
Inductive write_op : Type :=
| WBits (value bits : Z)
| WPrim (p : prim) (value : value_of p).

Definition run_write (op : write_op) : M St unit :=
  match op with
  | WBits value bits => writeBits value bits
  | WPrim p value => write_prim p value
  end.

Fixpoint run_writes (ops : list write_op) : M St unit :=
  match ops with
  | [] => ret tt
  | op :: ops' => run_write op ;;; run_writes ops'
  end.

(** The width a write asks for, in the range [writeBits] is meant for. *)
Definition op_ok (op : write_op) : Prop :=
  match op with
  | WBits _ bits => 0 <= bits <= 32
  | WPrim _ _ => True
  end.

(** View [v'] differs from [v] at most in the bits from [lo] up to [hi],
    in the numbering of the mode of [v]: same size and mode, every byte
    that lies outside the span and every bit outside it unchanged. *)
Definition view_frame (lo hi : Z) (v v' : BitView) : Prop :=
  length (_view v') = length (_view v) /\
  bigEndian v' = bigEndian v /\
  (forall B, 8 * B + 8 <= lo \/ hi <= 8 * B ->
     Uint8Array.read (_view v') B = Uint8Array.read (_view v) B) /\
  (forall p, 0 <= p -> p < lo \/ hi <= p ->
     bitAt (bigEndian v) (_view v') p = bitAt (bigEndian v) (_view v) p).

(** What a setter of width [w] may do to the view. *)
Definition setter_frame {T} (set : Z -> T -> M BitView unit) (w : Z) : Prop :=
  forall (offset : Z) (value : T) (this : BitView),
    0 <= offset ->
    match set offset value this with
    | (Ok _, this') =>
      offset + w <= 2 ^ 31 -> view_frame offset (offset + w) this this'
    | (Throw _, this') =>
      _view this' = _view this /\ bigEndian this' = bigEndian this
    end.

(** The width a write advances the index by. *)
Definition op_width (op : write_op) : Z :=
  match op with
  | WBits _ bits => bits
  | WPrim p _ => width p
  end.

(** A write through a stream: where the index goes and what the view
    keeps. *)
Definition write_post (w : Z) (s : BitStream) (h : heap)
           (out : result unit * St) : Prop :=
  match out with
  | (r, (s', h')) =>
    view s' = view s /\
    _startIndex s' = _startIndex s /\
    _length s' = _length s /\
    (forall l, l <> view s -> h' l = h l) /\
    match r with
    | Ok _ =>
      _index s' = _index s + w /\
      (_index s + w <= 2 ^ 31 ->
       view_frame (_index s) (_index s + w) (h (view s)) (h' (view s)))
    | Throw _ =>
      _index s' = _index s /\
      _view (h' (view s)) = _view (h (view s)) /\
      bigEndian (h' (view s)) = bigEndian (h (view s))
    end
  end.

(** [writeUint8] of each byte of a list, in order. *)
Fixpoint write_bytes (l : list Z) : M St unit :=
  match l with
  | [] => ret tt
  | b :: l' => writeUint8 b ;;; write_bytes l'
  end.

(* ================================================================== *)
(** ** The rest of the library and further notions *)
(* ================================================================== *)

(** The bytes under the bits from [o] up to [o + w] are bytes. *)
Definition span_ok (a : Uint8Array.t) (o w : Z) : Prop :=
  forall p, o <= p < o + w -> 0 <= Uint8Array.read a (p / 8) < 256.

(** Every element of the array is a byte. *)
Definition bytes_ok (a : Uint8Array.t) : Prop :=
  Forall (fun b => 0 <= b < 256) a.

(** The place in the buffer of bit [j] of a [w]-bit value at offset [o]:
    the least significant bit comes first in little-endian mode, last in
    big-endian mode. *)
Definition place (big : bool) (o w j : Z) : Z :=
  if big then o + w - 1 - j else o + j.

(** The signed reading of the [w]-bit pattern [u]. *)
Definition signed_of (w u : Z) : Z :=
  if u <? 2 ^ (w - 1) then u else u - 2 ^ w.


(** [getArrayBuffer]: the loop stores [getUint8(offset + i * 8)] at [i] of
    the new array, for [n] more bytes. *)
Fixpoint getArrayBuffer_loop (n : nat) (offset i : Z) (buffer : Uint8Array.t)
  : M BitView Uint8Array.t :=
  match n with
  | O => ret buffer
  | S n' =>
    v <- getUint8 (offset + i * 8) ;;
    getArrayBuffer_loop n' offset (i + 1) (Uint8Array.write buffer i v)
  end.

(** [getArrayBuffer] once its array is allocated. *)
Definition getArrayBuffer_from (offset byteLength : Z)
  : M BitView Uint8Array.t :=
  getArrayBuffer_loop (Z.to_nat byteLength) offset 0
                      (repeat 0 (Z.to_nat byteLength)).

(** [None] stands for the [RangeError] of [new Uint8Array(byteLength)] at a
    negative length, which is not an error of the library. *)
Definition getArrayBuffer (offset byteLength : Z)
  : option (M BitView Uint8Array.t) :=
  if byteLength <? 0 then None
  else Some (getArrayBuffer_from offset byteLength).

(** [readArrayBuffer] of a stream: the index moves after the copy, and
    the [RangeError] of [getArrayBuffer] passes through. *)
Definition readArrayBuffer (byteLength : Z)
  : option (M St Uint8Array.t) :=
  if byteLength <? 0 then None
  else
    Some (s <- this_ ;;
          buffer <- on_view (getArrayBuffer_from (_index s) byteLength) ;;
          set_index_ (_index s + byteLength * 8) ;;;
          ret buffer).

(** The values a typed writer stores so that the reader of the same type
    returns them: any boolean, the integers of the type's range; none for
    the floats, whose bits go through the casts of the platform. *)
Definition prim_fits (p : prim) : value_of p -> Prop :=
  match p with
  | Boolean => fun _ => True
  | Int8 => fun v => - 2 ^ 7 <= v < 2 ^ 7
  | Int16 => fun v => - 2 ^ 15 <= v < 2 ^ 15
  | Int32 => fun v => - 2 ^ 31 <= v < 2 ^ 31
  | Uint8 => fun v => 0 <= v < 2 ^ 8
  | Uint16 => fun v => 0 <= v < 2 ^ 16
  | Uint32 => fun v => 0 <= v < 2 ^ 32
  | Float32 | Float64 => fun _ => False
  end.

(** A list cut or padded with zeros to [n] elements. *)
Definition fit (n : nat) (l : list Z) : list Z :=
  firstn n (l ++ repeat 0 n).

(** The elements of a list before its first zero. *)
Fixpoint until_zero (l : list Z) : list Z :=
  match l with
  | [] => []
  | c :: l' => if c =? 0 then [] else c :: until_zero l'
  end.

(** A surrogate code unit: one half of the pair a string holds for a
    character from U+10000 on. *)
Definition surrogate (u : Z) : Prop := 0xd800 <= u <= 0xdfff.

(** A continuation byte of UTF-8, [10xxxxxx]. *)
Definition continuation (b : Z) : bool := (0x80 <=? b) && (b <? 0xc0).

(** The decoder of UTF-8 for the code points below [0x10000], one code
    unit for each sequence of one to three bytes.  It is strict: a
    sequence longer than its code point needs (lead byte [0xc0] or
    [0xc1], or [0xe0] before a byte below [0xa0]) and an encoded
    surrogate ([0xed] before a byte from [0xa0] on) are refused, as is
    any byte that starts no sequence.  A sequence of four bytes stands
    for a code point from [0x10000] on, which no single code unit
    holds: it is refused too. *)
Fixpoint utf8_units (fuel : nat) (b : list Z) : option (list Z) :=
  match fuel with
  | O => match b with [] => Some [] | _ => None end
  | S fuel' =>
    match b with
    | [] => Some []
    | b0 :: r0 =>
      if (0 <=? b0) && (b0 <? 0x80) then
        option_map (cons b0) (utf8_units fuel' r0)
      else if (0xc2 <=? b0) && (b0 <? 0xe0) then
        match r0 with
        | b1 :: r1 =>
          if continuation b1 then
            option_map (cons ((b0 - 0xc0) * 64 + (b1 - 0x80)))
                       (utf8_units fuel' r1)
          else None
        | _ => None
        end
      else if (0xe0 <=? b0) && (b0 <? 0xf0) then
        match r0 with
        | b1 :: b2 :: r2 =>
          if continuation b1 && continuation b2
             && (negb (b0 =? 0xe0) || (0xa0 <=? b1))
             && (negb (b0 =? 0xed) || (b1 <? 0xa0)) then
            option_map
              (cons ((b0 - 0xe0) * 4096 + (b1 - 0x80) * 64 + (b2 - 0x80)))
              (utf8_units fuel' r2)
          else None
        | _ => None
        end
      else None
    end
  end.

(** The encoding of one code unit by [stringToByteArray]. *)
Definition encode_unit (unicode : Z) : list Z := stringToByteArray [unicode].

(** [P] holds of the [n] integers from [u] up. *)
Fixpoint all_from (n : nat) (u : Z) (P : Z -> bool) : bool :=
  match n with
  | O => true
  | S n' => P u && all_from n' (u + 1) P
  end.

(** From bit [i] on, the view reads the bytes [bs], one [getUint8] after
    the other. *)
Definition holds_bytes (v : BitView) (i : Z) (bs : list Z) : Prop :=
  forall j, (j < length bs)%nat ->
    getBits v (i + 8 * Z.of_nat j) 8 false = Ok (nth j bs 0).

(** View [v'] is [v] but for the bits from [lo] up to [hi], and its
    bytes are still bytes. *)
Definition changed_within (lo hi : Z) (v v' : BitView) : Prop :=
  view_frame lo hi v v' /\
  (forall B, 0 <= Uint8Array.read (_view v) B < 256 ->
     0 <= Uint8Array.read (_view v') B < 256).

(** The number of bytes the reading loop of [readString] takes from the
    bytes [bs] ahead: all of them with a byte count, and without one the
    bytes up to the first zero and that zero. *)
Definition consumed (fixedLength : bool) (bs : list Z) : nat :=
  if fixedLength then length bs
  else Nat.min (length bs) (S (length (until_zero bs))).

(** *** [writeBitStream]

    The call [this.writeBitStream(stream, length)] involves two stream
    objects: the state is the source [stream], then [this] and the heap.
    The two are distinct objects; they may refer to the same view. *)
Definition St2 : Type := BitStream * St.

(** A method call on [stream]. *)
Definition on_stream {A} (m : M St A) : M St2 A :=
  fun st =>
    let (r, st') := m (fst st, snd (snd st)) in
    (r, (fst st', (fst (snd st), snd st'))).

(** A method call on [this]. *)
Definition on_this {A} (m : M St A) : M St2 A :=
  fun st =>
    let (r, st') := m (snd st) in
    (r, (fst st, st')).

(** The [while (length > 0)] loop: [length] decreases by at least one in
    each iteration. *)
Fixpoint writeBitStream_loop (fuel : nat) (length : Z) : M St2 unit :=
  match fuel with
  | O => ret tt
  | S fuel' =>
    if length >? 0 then
      let bitsToWrite := Z.min length 32 in
      val <- on_stream (readBits bitsToWrite (Some false)) ;;
      on_this (writeBits val bitsToWrite) ;;;
      writeBitStream_loop fuel' (length - bitsToWrite)
    else ret tt
  end.

Definition writeBitStream (length : option Z) : M St2 unit :=
  fun st =>
    let length :=
      match length with
      | Some l => l
      | None => bitsLeft (fst st)
      end in
    writeBitStream_loop (Z.to_nat length) length st.

(** One more buffer for the instances: four bytes holding a
    zero-terminated string and one byte more. *)
Definition four_bytes : heap := fun _ => newBitView [72; 105; 0; 33].

(** The number a list of bytes denotes, the first byte the least
    significant one, and the first byte the most significant one. *)
Definition le_bytes (l : list Z) : Z :=
  fold_right (fun b acc => b + 256 * acc) 0 l.

Definition be_bytes (l : list Z) : Z := le_bytes (rev l).

(** The [bigEndian] accessors of a stream: they read and assign the
    field of the view the stream refers to. *)
Definition BitStream_bigEndian : M St bool :=
  on_view (fun v => (Ok (bigEndian v), v)).

Definition BitStream_set_bigEndian (val : bool) : M St unit :=
  on_view (fun v => (Ok tt, mkBitView (_view v) (_scratch v) val)).

(** Two heaps hold the same bytes in the same modes. *)
Definition same_bytes (h h' : heap) : Prop :=
  forall l, _view (h' l) = _view (h l) /\ bigEndian (h' l) = bigEndian (h l).

(** A method of the view that leaves its bytes and its mode. *)
Definition keeps_view {T} (name : M BitView T) : Prop :=
  forall this,
    _view (snd (name this)) = _view this /\
    bigEndian (snd (name this)) = bigEndian this.

(* ================================================================== *)
(** ** Bits of the 32-bit operators *)
(* ================================================================== *)

Ltac pow_consts :=
  change (2 ^ 32) with 4294967296 in *;
  change (2 ^ 31) with 2147483648 in *;
  change (2 ^ 8) with 256 in *.

Lemma testbit_above (y m j : Z) :
  0 <= y < 2 ^ m -> m <= j -> Z.testbit y j = false.
Proof.
  intros Hy Hj.
  destruct (Z_lt_le_dec m 0) as [Hm | Hm].
  - rewrite (Z.pow_neg_r 2 m) in Hy by lia. lia.
  - rewrite <- (Z.mod_small y (2 ^ m)) by lia.
    apply Z.mod_pow2_bits_high. lia.
Qed.

Lemma testbit_above_neg (y m j : Z) :
  - 2 ^ m <= y < 0 -> 0 <= m <= j -> Z.testbit y j = true.
Proof.
  intros Hy Hj.
  replace y with (Z.lnot (- y - 1)) by (unfold Z.lnot; lia).
  rewrite Z.lnot_spec by lia.
  rewrite (testbit_above (- y - 1) m j); [reflexivity | lia | lia].
Qed.

Lemma ToInt32_range (x : Z) : - 2 ^ 31 <= JS.ToInt32 x < 2 ^ 31.
Proof.
  unfold JS.ToInt32. pow_consts.
  pose proof (Z.mod_pos_bound (x + 2147483648) 4294967296). lia.
Qed.

Lemma ToInt32_id (x : Z) : - 2 ^ 31 <= x < 2 ^ 31 -> JS.ToInt32 x = x.
Proof.
  intros H. unfold JS.ToInt32. pow_consts.
  rewrite Z.mod_small; lia.
Qed.

Lemma ToInt32_mod (x : Z) : JS.ToInt32 x mod 2 ^ 32 = x mod 2 ^ 32.
Proof.
  unfold JS.ToInt32.
  rewrite Zminus_mod_idemp_l. f_equal. lia.
Qed.

Lemma ToInt32_bit_low (x j : Z) :
  0 <= j < 32 -> Z.testbit (JS.ToInt32 x) j = Z.testbit x j.
Proof.
  intros Hj.
  rewrite <- (Z.mod_pow2_bits_low (JS.ToInt32 x) 32 j) by lia.
  rewrite ToInt32_mod. apply Z.mod_pow2_bits_low. lia.
Qed.

Lemma ToInt32_bit_high (x j : Z) :
  31 <= j -> Z.testbit (JS.ToInt32 x) j = Z.testbit x 31.
Proof.
  intros Hj.
  rewrite <- (ToInt32_bit_low x 31) by lia.
  pose proof (ToInt32_range x) as Hr.
  destruct (Z_lt_le_dec (JS.ToInt32 x) 0) as [Hn | Hp].
  - rewrite !(testbit_above_neg _ 31) by lia. reflexivity.
  - rewrite !(testbit_above _ 31) by lia. reflexivity.
Qed.

(** Bit [j] of an int32 seen as an integer: bit [min j 31] of any number
    it is the coercion of. *)
Lemma ToInt32_bit (x j : Z) :
  0 <= j -> Z.testbit (JS.ToInt32 x) j = Z.testbit x (Z.min j 31).
Proof.
  intros Hj. destruct (Z_lt_le_dec j 31).
  - rewrite Z.min_l by lia. apply ToInt32_bit_low. lia.
  - rewrite Z.min_r by lia. apply ToInt32_bit_high. lia.
Qed.

Lemma ToInt32_eq_of_mod (x y : Z) :
  x mod 2 ^ 32 = y mod 2 ^ 32 -> JS.ToInt32 x = JS.ToInt32 y.
Proof.
  intros H. unfold JS.ToInt32.
  rewrite <- (Zplus_mod_idemp_l x), <- (Zplus_mod_idemp_l y), H.
  reflexivity.
Qed.

Lemma band_bit (a b j : Z) :
  0 <= j ->
  Z.testbit (a :&: b) j
  = Z.testbit a (Z.min j 31) && Z.testbit b (Z.min j 31).
Proof.
  intros. unfold JS.band. rewrite Z.land_spec, !ToInt32_bit by lia.
  reflexivity.
Qed.

Lemma bor_bit (a b j : Z) :
  0 <= j ->
  Z.testbit (a :|: b) j
  = Z.testbit a (Z.min j 31) || Z.testbit b (Z.min j 31).
Proof.
  intros. unfold JS.bor. rewrite Z.lor_spec, !ToInt32_bit by lia.
  reflexivity.
Qed.

Lemma bnot_bit (a j : Z) :
  0 <= j -> Z.testbit (:~: a) j = negb (Z.testbit a (Z.min j 31)).
Proof.
  intros. unfold JS.bnot. rewrite Z.lnot_spec, ToInt32_bit by lia.
  reflexivity.
Qed.

Lemma sar_bit (a n j : Z) :
  0 <= j -> 0 <= n < 32 ->
  Z.testbit (a :>>: n) j = Z.testbit a (Z.min (j + n) 31).
Proof.
  intros. unfold JS.sar. rewrite Z.mod_small by lia.
  rewrite Z.shiftr_spec, ToInt32_bit by lia. reflexivity.
Qed.

Lemma shl_bit (a n j : Z) :
  0 <= j -> 0 <= n < 32 ->
  Z.testbit (a :<<: n) j
  = (n <=? Z.min j 31) && Z.testbit a (Z.min j 31 - n).
Proof.
  intros. unfold JS.shl. rewrite Z.mod_small by lia.
  rewrite ToInt32_bit by lia.
  destruct (Z.leb_spec n (Z.min j 31)).
  - rewrite Z.shiftl_spec, ToInt32_bit by lia.
    rewrite (Z.min_l (Z.min j 31 - n)) by lia. reflexivity.
  - rewrite Z.shiftl_spec_low by lia. reflexivity.
Qed.

(** A number whose bits from 31 up are all equal is an int32. *)
Lemma int32_of_bits (x : Z) :
  (forall j, 31 <= j -> Z.testbit x j = Z.testbit x 31) -> JS.ToInt32 x = x.
Proof.
  intros H. apply Z.bits_inj'. intros j Hj.
  rewrite ToInt32_bit by lia.
  destruct (Z_lt_le_dec j 31).
  - rewrite Z.min_l by lia. reflexivity.
  - rewrite Z.min_r by lia. symmetry. apply H. lia.
Qed.

Lemma bor_int32 (a b : Z) : JS.ToInt32 (a :|: b) = a :|: b.
Proof.
  apply int32_of_bits. intros j Hj.
  rewrite !bor_bit by lia. rewrite Z.min_r by lia. reflexivity.
Qed.

Lemma testbit_255 (m : Z) : 0 <= m -> Z.testbit 255 m = (m <? 8).
Proof.
  intros Hm. change 255 with (Z.ones 8).
  destruct (Z.ltb_spec m 8).
  - apply Z.ones_spec_low. lia.
  - apply Z.ones_spec_high. lia.
Qed.

Lemma testbit_m1 (m : Z) : 0 <= m -> Z.testbit (-1) m = true.
Proof. intros Hm. apply Z.bits_m1. exact Hm. Qed.

(** Rewriting to the bits of the operands; side conditions by [lia]. *)
Ltac bits_step :=
  first
    [ rewrite band_bit by lia
    | rewrite bor_bit by lia
    | rewrite bnot_bit by lia
    | rewrite sar_bit by lia
    | rewrite shl_bit by lia
    | rewrite Z.min_l by lia
    | rewrite Z.min_r by lia
    | rewrite testbit_255 by lia
    | rewrite testbit_m1 by lia
    | rewrite Z.testbit_0_l ].

Ltac bits := repeat bits_step.

Ltac lia_bool :=
  repeat match goal with
         | |- context [?a <=? ?b] => destruct (Z.leb_spec a b); try lia
         | |- context [?a <? ?b] => destruct (Z.ltb_spec a b); try lia
         end.

(** The two masks of the source: [~(0xFF << n)] and [~(~0 << n)]. *)
Lemma mask255_bit (n m : Z) :
  0 <= n <= 8 -> 0 <= m <= 31 ->
  Z.testbit (:~: (255 :<<: n)) m = (m <? n) || (n + 8 <=? m).
Proof.
  intros Hn Hm. bits.
  destruct (Z.leb_spec n m).
  - bits. lia_bool; reflexivity.
  - lia_bool; reflexivity.
Qed.

Lemma maskm1_bit (n m : Z) :
  0 <= n <= 8 -> 0 <= m <= 31 ->
  Z.testbit (:~: (:~: 0 :<<: n)) m = (m <? n).
Proof.
  intros Hn Hm. bits.
  destruct (Z.leb_spec n m).
  - bits. lia_bool; reflexivity.
  - lia_bool; reflexivity.
Qed.

Lemma sar_int32_bit (v n m : Z) :
  0 <= m -> 0 <= n < 32 ->
  Z.testbit (JS.ToInt32 (v :>>: n)) m = Z.testbit (JS.ToInt32 v) (m + n).
Proof.
  intros Hm Hn. rewrite !ToInt32_bit by lia. bits.
  f_equal. lia.
Qed.

(** The chunk [getBits] extracts from a byte: [n] bits from bit [s] up. *)
Lemma chunk_bit (byte s n m : Z) :
  0 <= byte < 256 -> 0 <= s -> 1 <= n -> s + n <= 8 -> 0 <= m ->
  Z.testbit ((byte :>>: s) :&: :~: (255 :<<: n)) m
  = (m <? n) && Z.testbit byte (m + s).
Proof.
  intros Hb Hs Hn Hsn Hm.
  rewrite band_bit, mask255_bit, sar_bit by lia.
  destruct (Z.ltb_spec (Z.min m 31) n), (Z.ltb_spec m n); try lia.
  - cbn [orb andb]. rewrite andb_true_r. f_equal. lia.
  - cbn [orb andb]. destruct (Z.leb_spec (n + 8) (Z.min m 31)).
    + rewrite (testbit_above byte 8) by (change (2 ^ 8) with 256; lia).
      reflexivity.
    + apply andb_false_r.
Qed.

(** The byte [setBits] stores in little-endian mode. *)
Lemma set_byte_LE (byte value k n j : Z) :
  0 <= k -> 1 <= n -> k + n <= 8 -> 0 <= j < 8 ->
  Z.testbit
    (JS.ToUint8 ((byte :&: :~: (:~: (255 :<<: n) :<<: k))
                   :|: ((value :&: :~: (255 :<<: n)) :<<: k))) j
  = if (k <=? j) && (j <? k + n)
    then Z.testbit (JS.ToInt32 value) (j - k)
    else Z.testbit byte j.
Proof.
  intros Hk Hn Hkn Hj. unfold JS.ToUint8.
  rewrite Z.mod_pow2_bits_low by lia.
  rewrite bor_bit, band_bit, bnot_bit, !shl_bit by lia.
  rewrite !(Z.min_l j 31) by lia.
  destruct (Z.leb_spec k j); cbn [andb negb].
  - rewrite band_bit, !mask255_bit by lia. bits.
    rewrite ToInt32_bit_low by lia.
    destruct (Z.ltb_spec (j - k) n), (Z.ltb_spec j (k + n)); try lia;
      lia_bool; cbn; rewrite ?andb_false_r, ?andb_true_r, ?orb_false_r;
      reflexivity.
  - rewrite andb_true_r, orb_false_r. reflexivity.
Qed.

(** The byte [setBits] stores in big-endian mode. *)
Lemma set_byte_BE (byte value s d n j : Z) :
  0 <= d -> 1 <= n -> d + n <= 8 -> 0 <= s -> s + n <= 32 -> 0 <= j < 8 ->
  Z.testbit
    (JS.ToUint8 ((byte :&: :~: (:~: (:~: 0 :<<: n) :<<: d))
                   :|: (((value :>>: s) :&: :~: (:~: 0 :<<: n)) :<<: d))) j
  = if (d <=? j) && (j <? d + n)
    then Z.testbit (JS.ToInt32 value) (j - d + s)
    else Z.testbit byte j.
Proof.
  intros Hd Hn Hdn Hs Hsn Hj. unfold JS.ToUint8.
  rewrite Z.mod_pow2_bits_low by lia.
  rewrite bor_bit, band_bit, bnot_bit, !shl_bit by lia.
  rewrite !(Z.min_l j 31) by lia.
  destruct (Z.leb_spec d j); cbn [andb negb].
  - rewrite band_bit, !maskm1_bit, sar_bit by lia.
    rewrite !(Z.min_l (j - d) 31) by lia.
    destruct (Z.ltb_spec (j - d) n), (Z.ltb_spec j (d + n)); try lia;
      cbn [negb andb orb];
      rewrite ?andb_false_r, ?andb_true_r, ?orb_false_r; cbn [orb];
      try reflexivity.
    rewrite Z.min_l, ToInt32_bit_low by lia. reflexivity.
  - rewrite andb_true_r, orb_false_r. reflexivity.
Qed.

(* ================================================================== *)
(** ** Reading and writing array elements *)
(* ================================================================== *)

Lemma set_nth_length (n : nat) (x : Z) (a : Uint8Array.t) :
  length (Uint8Array.set_nth n x a) = length a.
Proof.
  revert n. induction a as [| y a IH]; intros [| n]; cbn; auto.
Qed.

Lemma nth_set_nth_same (n : nat) (x d : Z) (a : Uint8Array.t) :
  (n < length a)%nat -> nth n (Uint8Array.set_nth n x a) d = x.
Proof.
  revert n. induction a as [| y a IH]; intros [| n] H; cbn in *;
    try lia; auto. apply IH. lia.
Qed.

Lemma nth_set_nth_other (n m : nat) (x d : Z) (a : Uint8Array.t) :
  n <> m -> nth m (Uint8Array.set_nth n x a) d = nth m a d.
Proof.
  revert n m. induction a as [| y a IH]; intros [| n] [| m] H; cbn;
    try congruence; auto.
Qed.

Lemma write_length (a : Uint8Array.t) (i x : Z) :
  length (Uint8Array.write a i x) = length a.
Proof.
  unfold Uint8Array.write. destruct (i <? 0); auto using set_nth_length.
Qed.

Lemma read_write_same (a : Uint8Array.t) (i x : Z) :
  0 <= i < Z.of_nat (length a) ->
  Uint8Array.read (Uint8Array.write a i x) i = JS.ToUint8 x.
Proof.
  intros H. unfold Uint8Array.read, Uint8Array.write.
  destruct (Z.ltb_spec i 0); [lia |].
  apply nth_set_nth_same. lia.
Qed.

Lemma read_write_other (a : Uint8Array.t) (i j x : Z) :
  i <> j -> Uint8Array.read (Uint8Array.write a i x) j = Uint8Array.read a j.
Proof.
  intros H. unfold Uint8Array.read, Uint8Array.write.
  destruct (Z.ltb_spec j 0); [reflexivity |].
  destruct (Z.ltb_spec i 0); [reflexivity |].
  apply nth_set_nth_other. lia.
Qed.

Lemma ToUint8_range (x : Z) : 0 <= JS.ToUint8 x < 256.
Proof. unfold JS.ToUint8. apply Z.mod_pos_bound. reflexivity. Qed.

(** Below [2 ^ 31] the byte and bit addresses are the quotient and the
    remainder by 8. *)
Lemma bitOffset_mod (offset : Z) :
  0 <= offset < 2 ^ 31 -> offset :&: 7 = offset mod 8.
Proof.
  intros H. unfold JS.band.
  rewrite (ToInt32_id offset) by lia.
  change (JS.ToInt32 7) with (Z.ones 3).
  rewrite Z.land_ones by lia. reflexivity.
Qed.

Lemma byteOffset_div (offset : Z) :
  0 <= offset < 2 ^ 31 -> offset :>>: 3 = offset / 8.
Proof.
  intros H. unfold JS.sar.
  rewrite (ToInt32_id offset) by lia.
  change (3 mod 32) with 3.
  rewrite Z.shiftr_div_pow2 by lia. reflexivity.
Qed.


Lemma setBits_loop_done (fuel : nat) (big : bool) (a : Uint8Array.t)
      (bits offset value i : Z) :
  bits <= i -> setBits_loop fuel big a bits offset value i = a.
Proof.
  intros H. destruct fuel; cbn [setBits_loop]; [reflexivity |].
  destruct (Z.ltb_spec i bits); [lia | reflexivity].
Qed.

Lemma setBits_loop_step (fuel : nat) (big : bool) (a : Uint8Array.t)
      (bits offset value i : Z) :
  i < bits -> 0 <= offset < 2 ^ 31 ->
  setBits_loop (S fuel) big a bits offset value i
  = let k := offset mod 8 in
    let n := Z.min (bits - i) (8 - k) in
    let old := Uint8Array.read a (offset / 8) in
    if big then
      let mask := :~: (:~: 0 :<<: n) in
      setBits_loop fuel big
        (Uint8Array.write a (offset / 8)
           ((old :&: :~: (mask :<<: (8 - k - n)))
              :|: (((value :>>: (bits - i - n)) :&: mask) :<<: (8 - k - n))))
        bits (offset + n) value (i + n)
    else
      let mask := :~: (255 :<<: n) in
      setBits_loop fuel big
        (Uint8Array.write a (offset / 8)
           ((old :&: :~: (mask :<<: k)) :|: ((value :&: mask) :<<: k)))
        bits (offset + n) (value :>>: n) (i + n).
Proof.
  intros Hi Ho. cbn [setBits_loop].
  destruct (Z.ltb_spec i bits); [| lia].
  rewrite bitOffset_mod, byteOffset_div by lia. reflexivity.
Qed.

(* ================================================================== *)
(** ** What [setBits] does to the buffer, bit by bit *)
(* ================================================================== *)


Lemma set_post_refl (big : bool) (a : Uint8Array.t) (off : Z)
      (vb : Z -> bool) :
  set_post big a a off 0 vb.
Proof.
  repeat split; try lia.
  intros p Hp. destruct (Z.leb_spec off p), (Z.ltb_spec p (off + 0));
    try lia; reflexivity.
Qed.

Lemma set_post_trans (big : bool) (a a1 a2 : Uint8Array.t)
      (off len n m : Z) (vb1 vb2 vb : Z -> bool) :
  len = n + m -> 0 <= n -> 0 <= m ->
  set_post big a a1 off n vb1 ->
  set_post big a1 a2 (off + n) m vb2 ->
  (forall p, off <= p < off + n -> vb p = vb1 p) ->
  (forall p, off + n <= p < off + n + m -> vb p = vb2 p) ->
  set_post big a a2 off len vb.
Proof.
  intros -> Hn Hm (L1 & B1 & F1 & P1 & R1) (L2 & B2 & F2 & P2 & R2) Hv1 Hv2.
  split; [congruence |]. split; [| split; [| split]].
  - intros p Hp. rewrite B2, B1 by lia.
    destruct (Z.leb_spec (off + n) p), (Z.ltb_spec p (off + n + m)),
      (Z.leb_spec off p), (Z.ltb_spec p (off + n)),
      (Z.ltb_spec p (off + (n + m))); cbn [andb]; try lia;
      try reflexivity.
    + symmetry. apply Hv2. lia.
    + symmetry. apply Hv1. lia.
  - intros B HB. rewrite F2, F1 by lia. reflexivity.
  - intros B HB. apply P2, P1, HB.
  - intros p Hp.
    destruct (Z_lt_le_dec p (off + n)) as [Hlt | Hge].
    + apply P2, R1. lia.
    + apply R2. lia.
Qed.

(** One stored byte: the step of the loop. [idx r] is the bit of the
    byte that holds position [r] of it. *)
Lemma set_post_byte (big : bool) (a : Uint8Array.t) (off n x : Z)
      (vb : Z -> bool) :
  0 <= off -> 1 <= n -> off mod 8 + n <= 8 ->
  off + n <= 8 * Z.of_nat (length a) ->
  (forall r, 0 <= r < 8 ->
     Z.testbit (JS.ToUint8 x) (if big then 7 - r else r)
     = if (off mod 8 <=? r) && (r <? off mod 8 + n)
       then vb (8 * (off / 8) + r)
       else Z.testbit (Uint8Array.read a (off / 8))
                      (if big then 7 - r else r)) ->
  set_post big a (Uint8Array.write a (off / 8) x) off n vb.
Proof.
  intros Ho Hn Hk Hlen Hx.
  pose proof (Z.div_mod off 8 ltac:(lia)) as Hdm.
  pose proof (Z.mod_pos_bound off 8 ltac:(lia)) as Hmb.
  set (B := off / 8) in *. set (k := off mod 8) in *.
  assert (HB : 0 <= B < Z.of_nat (length a)) by lia.
  split; [apply write_length |]. split; [| split; [| split]].
  - intros p Hp. unfold bitAt.
    pose proof (Z.div_mod p 8 ltac:(lia)) as Hpdm.
    pose proof (Z.mod_pos_bound p 8 ltac:(lia)) as Hpmb.
    set (q := p / 8) in *. set (r := p mod 8) in *.
    destruct (Z.eq_dec q B) as [-> | Hne].
    + rewrite read_write_same by lia. rewrite Hx by lia.
      replace (8 * B + r) with p by lia.
      destruct (Z.leb_spec k r), (Z.ltb_spec r (k + n)),
        (Z.leb_spec off p), (Z.ltb_spec p (off + n));
        cbn [andb]; try lia; reflexivity.
    + rewrite read_write_other by congruence.
      destruct (Z.leb_spec off p), (Z.ltb_spec p (off + n));
        cbn [andb]; try lia; reflexivity.
  - intros B' HB'. apply read_write_other. lia.
  - intros B' HB'. destruct (Z.eq_dec B B') as [<- | Hne].
    + rewrite read_write_same by lia. apply ToUint8_range.
    + rewrite read_write_other by congruence. exact HB'.
  - intros p Hp.
    pose proof (Z.div_mod p 8 ltac:(lia)) as Hpdm.
    pose proof (Z.mod_pos_bound p 8 ltac:(lia)) as Hpmb.
    replace (p / 8) with B by lia.
    rewrite read_write_same by lia. apply ToUint8_range.
Qed.

Lemma setBits_loop_LE (fuel : nat) :
  forall (a : Uint8Array.t) (bits offset value i : Z),
    0 <= i <= bits -> bits <= 32 ->
    0 <= offset -> offset + (bits - i) <= 2 ^ 31 ->
    offset + (bits - i) <= 8 * Z.of_nat (length a) ->
    (Z.to_nat (bits - i) <= fuel)%nat ->
    set_post false a (setBits_loop fuel false a bits offset value i)
             offset (bits - i)
             (fun p => Z.testbit (JS.ToInt32 value) (p - offset)).
Proof.
  induction fuel as [| fuel IH]; intros a bits offset value i Hi Hb Ho H31 Hlen Hf.
  - replace (bits - i) with 0 by lia.
    rewrite setBits_loop_done by lia. apply set_post_refl.
  - destruct (Z_lt_le_dec i bits) as [Hlt | Hge].
    2:{ replace (bits - i) with 0 by lia.
        rewrite setBits_loop_done by lia. apply set_post_refl. }
    rewrite setBits_loop_step by lia. cbv zeta.
    pose proof (Z.mod_pos_bound offset 8 ltac:(lia)) as Hk.
    set (k := offset mod 8) in *.
    set (n := Z.min (bits - i) (8 - k)).
    assert (Hn : 1 <= n <= 8 - k /\ n <= bits - i) by lia.
    eapply (set_post_trans _ _ _ _ _ _ n (bits - (i + n)));
      [lia | lia | lia | | apply IH; rewrite ?write_length; lia | |].
    + apply set_post_byte with
        (vb := fun p => Z.testbit (JS.ToInt32 value) (p - offset));
        try (fold k; lia).
      fold k. intros r Hr. rewrite set_byte_LE by lia.
      pose proof (Z.div_mod offset 8 ltac:(lia)). fold k in H.
      replace (8 * (offset / 8) + r - offset) with (r - k) by lia.
      reflexivity.
    + reflexivity.
    + intros p Hp. cbv beta. rewrite sar_int32_bit by lia.
      f_equal. lia.
Qed.

Lemma setBits_loop_BE (fuel : nat) :
  forall (a : Uint8Array.t) (bits offset value i : Z),
    0 <= i <= bits -> bits <= 32 ->
    0 <= offset -> offset + (bits - i) <= 2 ^ 31 ->
    offset + (bits - i) <= 8 * Z.of_nat (length a) ->
    (Z.to_nat (bits - i) <= fuel)%nat ->
    set_post true a (setBits_loop fuel true a bits offset value i)
             offset (bits - i)
             (fun p => Z.testbit (JS.ToInt32 value)
                                 (bits - i - 1 - (p - offset))).
Proof.
  induction fuel as [| fuel IH]; intros a bits offset value i Hi Hb Ho H31 Hlen Hf.
  - replace (bits - i) with 0 at 1 by lia.
    rewrite setBits_loop_done by lia. apply set_post_refl.
  - destruct (Z_lt_le_dec i bits) as [Hlt | Hge].
    2:{ replace (bits - i) with 0 at 1 by lia.
        rewrite setBits_loop_done by lia. apply set_post_refl. }
    rewrite setBits_loop_step by lia. cbv zeta.
    pose proof (Z.mod_pos_bound offset 8 ltac:(lia)) as Hk.
    set (k := offset mod 8) in *.
    set (n := Z.min (bits - i) (8 - k)).
    assert (Hn : 1 <= n <= 8 - k /\ n <= bits - i) by lia.
    eapply (set_post_trans _ _ _ _ _ _ n (bits - (i + n)));
      [lia | lia | lia | | apply IH; rewrite ?write_length; lia | |].
    + apply set_post_byte with
        (vb := fun p => Z.testbit (JS.ToInt32 value)
                                  (bits - i - 1 - (p - offset)));
        try (fold k; lia).
      fold k. intros r Hr. rewrite set_byte_BE by lia.
      pose proof (Z.div_mod offset 8 ltac:(lia)). fold k in H.
      destruct (Z.leb_spec (8 - k - n) (7 - r)),
        (Z.ltb_spec (7 - r) (8 - k - n + n)),
        (Z.leb_spec k r), (Z.ltb_spec r (k + n));
        cbn [andb]; try lia; try reflexivity.
      f_equal. lia.
    + reflexivity.
    + intros p Hp. cbv beta. f_equal. lia.
Qed.

(* ================================================================== *)
(** ** What [getBits] assembles, bit by bit *)
(* ================================================================== *)

Lemma getBits_loop_done (fuel : nat) (this : BitView)
      (bits offset i value : Z) :
  bits <= i -> getBits_loop fuel this bits offset i value = value.
Proof.
  intros H. destruct fuel; cbn [getBits_loop]; [reflexivity |].
  destruct (Z.ltb_spec i bits); [lia | reflexivity].
Qed.

Lemma getBits_loop_step (fuel : nat) (this : BitView)
      (bits offset i value : Z) :
  i < bits -> 0 <= offset < 2 ^ 31 ->
  getBits_loop (S fuel) this bits offset i value
  = let k := offset mod 8 in
    let n := Z.min (bits - i) (8 - k) in
    let byte := Uint8Array.read (_view this) (offset / 8) in
    if bigEndian this then
      getBits_loop fuel this bits (offset + n) (i + n)
        ((value :<<: n) :|: ((byte :>>: (8 - n - k)) :&: :~: (255 :<<: n)))
    else
      getBits_loop fuel this bits (offset + n) (i + n)
        (value :|: (((byte :>>: k) :&: :~: (255 :<<: n)) :<<: i)).
Proof.
  intros Hi Ho. cbn [getBits_loop].
  destruct (Z.ltb_spec i bits); [| lia].
  rewrite bitOffset_mod, byteOffset_div by lia. reflexivity.
Qed.

Lemma getBits_loop_int32 (fuel : nat) :
  forall (this : BitView) (bits offset i value : Z),
    JS.ToInt32 value = value ->
    JS.ToInt32 (getBits_loop fuel this bits offset i value)
    = getBits_loop fuel this bits offset i value.
Proof.
  induction fuel as [| fuel IH]; intros this bits offset i value Hv;
    cbn [getBits_loop]; [exact Hv |].
  destruct (i <? bits); [| exact Hv].
  destruct (bigEndian this); apply IH, bor_int32.
Qed.

Lemma getBits_loop_LE (fuel : nat) :
  forall (this : BitView) (bits offset i value : Z),
    bigEndian this = false ->
    0 <= i <= bits -> bits <= 32 ->
    0 <= offset -> offset + (bits - i) <= 2 ^ 31 ->
    (forall p, offset <= p < offset + (bits - i) ->
       0 <= Uint8Array.read (_view this) (p / 8) < 256) ->
    (Z.to_nat (bits - i) <= fuel)%nat ->
    forall j, 0 <= j <= 31 ->
      Z.testbit (getBits_loop fuel this bits offset i value) j
      = Z.testbit value j
        || ((i <=? j) && (j <? bits)
            && bitAt false (_view this) (offset - i + j)).
Proof.
  induction fuel as [| fuel IH];
    intros this bits offset i value Hle Hi Hb Ho H31 Hr Hf j Hj.
  - rewrite getBits_loop_done by lia.
    destruct (Z.leb_spec i j), (Z.ltb_spec j bits); cbn [andb]; try lia;
      rewrite orb_false_r; reflexivity.
  - destruct (Z_lt_le_dec i bits) as [Hlt | Hge].
    2:{ rewrite getBits_loop_done by lia.
        destruct (Z.leb_spec i j), (Z.ltb_spec j bits); cbn [andb];
          try lia; rewrite orb_false_r; reflexivity. }
    rewrite getBits_loop_step by lia. cbv zeta. rewrite Hle.
    pose proof (Z.mod_pos_bound offset 8 ltac:(lia)) as Hk.
    pose proof (Z.div_mod offset 8 ltac:(lia)) as Hdm.
    set (k := offset mod 8) in *. set (B := offset / 8) in *.
    set (n := Z.min (bits - i) (8 - k)).
    assert (Hn : 1 <= n <= 8 - k /\ n <= bits - i) by lia.
    assert (HB : 0 <= Uint8Array.read (_view this) B < 256).
    { replace B with (offset / 8) by reflexivity. apply Hr. lia. }
    rewrite IH; try lia; try assumption.
    2:{ intros p Hp. apply Hr. lia. }
    rewrite bor_bit, shl_bit by lia. rewrite !(Z.min_l j 31) by lia.
    replace (offset + n - (i + n) + j) with (offset - i + j) by lia.
    destruct (Z.leb_spec i j); cbn [andb].
    + rewrite chunk_bit by lia.
      destruct (Z.ltb_spec (j - i) n).
      * destruct (Z.leb_spec (i + n) j); [lia |]. cbn [andb].
        destruct (Z.ltb_spec j bits); [| lia].
        rewrite orb_false_r. cbn [andb]. unfold bitAt.
        pose proof (Z.div_mod (offset - i + j) 8 ltac:(lia)).
        pose proof (Z.mod_pos_bound (offset - i + j) 8 ltac:(lia)).
        replace ((offset - i + j) / 8) with B by lia.
        replace ((offset - i + j) mod 8) with (j - i + k) by lia.
        reflexivity.
      * destruct (Z.leb_spec (i + n) j); [| lia]. cbn [andb].
        rewrite orb_false_r. reflexivity.
    + destruct (Z.leb_spec (i + n) j); [lia |]. cbn [andb].
      rewrite !orb_false_r. reflexivity.
Qed.

Lemma getBits_loop_BE (fuel : nat) :
  forall (this : BitView) (bits offset i value : Z),
    bigEndian this = true ->
    0 <= i <= bits -> bits <= 32 ->
    0 <= offset -> offset + (bits - i) <= 2 ^ 31 ->
    (forall p, offset <= p < offset + (bits - i) ->
       0 <= Uint8Array.read (_view this) (p / 8) < 256) ->
    (Z.to_nat (bits - i) <= fuel)%nat ->
    forall j, 0 <= j <= 31 ->
      Z.testbit (getBits_loop fuel this bits offset i value) j
      = if j <? bits - i
        then bitAt true (_view this) (offset + (bits - i) - 1 - j)
        else Z.testbit value (j - (bits - i)).
Proof.
  induction fuel as [| fuel IH];
    intros this bits offset i value Hbe Hi Hb Ho H31 Hr Hf j Hj.
  - rewrite getBits_loop_done by lia.
    destruct (Z.ltb_spec j (bits - i)); [lia |]. f_equal. lia.
  - destruct (Z_lt_le_dec i bits) as [Hlt | Hge].
    2:{ rewrite getBits_loop_done by lia.
        destruct (Z.ltb_spec j (bits - i)); [lia |]. f_equal. lia. }
    rewrite getBits_loop_step by lia. cbv zeta. rewrite Hbe.
    pose proof (Z.mod_pos_bound offset 8 ltac:(lia)) as Hk.
    pose proof (Z.div_mod offset 8 ltac:(lia)) as Hdm.
    set (k := offset mod 8) in *. set (B := offset / 8) in *.
    set (n := Z.min (bits - i) (8 - k)).
    assert (Hn : 1 <= n <= 8 - k /\ n <= bits - i) by lia.
    assert (HB : 0 <= Uint8Array.read (_view this) B < 256).
    { replace B with (offset / 8) by reflexivity. apply Hr. lia. }
    rewrite IH; try lia; try assumption.
    2:{ intros p Hp. apply Hr. lia. }
    destruct (Z.ltb_spec j (bits - (i + n))).
    + destruct (Z.ltb_spec j (bits - i)); [| lia]. f_equal. lia.
    + set (j' := j - (bits - (i + n))).
      rewrite bor_bit, shl_bit by lia. rewrite !(Z.min_l j' 31) by lia.
      rewrite chunk_bit by lia.
      destruct (Z.ltb_spec j' n).
      * destruct (Z.leb_spec n j'); [lia |]. cbn [andb orb].
        destruct (Z.ltb_spec j (bits - i)); [| lia]. unfold bitAt.
        pose proof (Z.div_mod (offset + (bits - i) - 1 - j) 8 ltac:(lia)).
        pose proof (Z.mod_pos_bound (offset + (bits - i) - 1 - j) 8
                                    ltac:(lia)).
        replace ((offset + (bits - i) - 1 - j) / 8) with B by lia.
        f_equal. lia.
      * destruct (Z.leb_spec n j'); [| lia]. cbn [andb].
        rewrite orb_false_r.
        destruct (Z.ltb_spec j (bits - i)); [lia |]. f_equal. lia.
Qed.

(* ================================================================== *)
(** ** Decoding the assembled value *)
(* ================================================================== *)


Lemma pow2_le_mono (m n : Z) : 0 <= m <= n -> 2 ^ m <= 2 ^ n.
Proof. intros H. apply Z.pow_le_mono_r; lia. Qed.

Lemma sign_fill (w : Z) :
  1 <= w <= 31 -> (-1 :^: ((1 :<<: w) - 1)) = - 2 ^ w.
Proof.
  intros H. destruct w as [| p | p]; try lia.
  do 5 (try (destruct p as [p | p |]; try lia)); reflexivity.
Qed.

Lemma sign_probe (w : Z) : 1 <= w <= 31 -> 1 :<<: (w - 1) = 2 ^ (w - 1).
Proof.
  intros H. destruct w as [| p | p]; try lia.
  do 5 (try (destruct p as [p | p |]; try lia)); reflexivity.
Qed.

Lemma testbit_neg_pow2 (w m : Z) :
  0 <= w -> 0 <= m -> Z.testbit (- 2 ^ w) m = (w <=? m).
Proof.
  intros Hw Hm.
  replace (- 2 ^ w) with (Z.lnot (Z.ones w))
    by (rewrite Z.ones_equiv; unfold Z.lnot; lia).
  rewrite Z.lnot_spec by lia.
  destruct (Z.leb_spec w m).
  - rewrite Z.ones_spec_high by lia. reflexivity.
  - rewrite Z.ones_spec_low by lia. reflexivity.
Qed.

Section Decode.

Variables V v w : Z.
Hypothesis Hw : 1 <= w <= 32.
Hypothesis HV : forall j, 0 <= j <= 31 ->
                  Z.testbit V j = (j <? w) && Z.testbit v j.
Hypothesis HVint : JS.ToInt32 V = V.

Lemma decode_unsigned : 0 <= v < 2 ^ w -> V :>>>: 0 = v.
Proof.
  intros Hv. unfold JS.shr, JS.ToUint32. change (0 mod 32) with 0.
  rewrite Z.shiftr_0_r. apply Z.bits_inj'. intros j Hj.
  destruct (Z_lt_le_dec j 32).
  - rewrite Z.mod_pow2_bits_low, HV by lia.
    destruct (Z.ltb_spec j w); [reflexivity |].
    rewrite (testbit_above v w) by lia. reflexivity.
  - rewrite Z.mod_pow2_bits_high by lia.
    rewrite (testbit_above v w) by lia. reflexivity.
Qed.

Lemma decode_signed32 : w = 32 -> - 2 ^ 31 <= v < 2 ^ 31 -> V = v.
Proof.
  intros -> Hv. rewrite <- HVint, <- (ToInt32_id v) by lia.
  apply ToInt32_eq_of_mod. apply Z.bits_inj'. intros j Hj.
  destruct (Z_lt_le_dec j 32).
  - rewrite !Z.mod_pow2_bits_low, HV by lia.
    destruct (Z.ltb_spec j 32); [reflexivity | lia].
  - rewrite !Z.mod_pow2_bits_high by lia. reflexivity.
Qed.

Lemma probe_sign :
  w <> 32 ->
  JS.truthy (V :&: (1 :<<: (w - 1))) = Z.testbit v (w - 1).
Proof.
  intros Hne. rewrite sign_probe by lia. unfold JS.band.
  rewrite HVint, (ToInt32_id (2 ^ (w - 1))).
  2:{ pose proof (pow2_le_mono (w - 1) 30 ltac:(lia)).
      change (2 ^ 30) with 1073741824 in *. pow_consts. lia. }
  assert (E : Z.land V (2 ^ (w - 1))
              = if Z.testbit v (w - 1) then 2 ^ (w - 1) else 0).
  { apply Z.bits_inj'. intros j Hj.
    rewrite Z.land_spec, Z.pow2_bits_eqb by lia.
    destruct (Z.eqb_spec (w - 1) j) as [<- | Hd].
    - rewrite HV by lia. destruct (Z.ltb_spec (w - 1) w); [| lia].
      destruct (Z.testbit v (w - 1)); cbn [andb].
      + rewrite Z.pow2_bits_true by lia. reflexivity.
      + rewrite Z.testbit_0_l. reflexivity.
    - rewrite andb_false_r.
      destruct (Z.testbit v (w - 1)).
      + rewrite Z.pow2_bits_false by lia. reflexivity.
      + rewrite Z.testbit_0_l. reflexivity. }
  rewrite E. unfold JS.truthy.
  destruct (Z.testbit v (w - 1)); [| reflexivity].
  destruct (Z.eqb_spec (2 ^ (w - 1)) 0) as [E0 | ]; [| reflexivity].
  pose proof (Z.pow_pos_nonneg 2 (w - 1)). lia.
Qed.

Lemma decode_negative :
  w <> 32 -> - 2 ^ (w - 1) <= v < 0 ->
  V :|: (-1 :^: ((1 :<<: w) - 1)) = v.
Proof.
  intros Hne Hv. rewrite sign_fill by lia.
  apply Z.bits_inj'. intros j Hj.
  rewrite bor_bit, testbit_neg_pow2 by lia.
  destruct (Z.leb_spec w (Z.min j 31)).
  - rewrite orb_true_r. symmetry.
    apply (testbit_above_neg v (w - 1)); lia.
  - rewrite orb_false_r, Z.min_l, HV by lia.
    destruct (Z.ltb_spec j w); [reflexivity | lia].
Qed.

Lemma decode_nonneg : w <> 32 -> 0 <= v < 2 ^ (w - 1) -> V = v.
Proof.
  intros Hne Hv. apply Z.bits_inj'. intros j Hj.
  rewrite <- HVint, ToInt32_bit, HV by lia.
  destruct (Z.ltb_spec (Z.min j 31) w).
  - cbn [andb]. destruct (Z_lt_le_dec j 31).
    + rewrite Z.min_l by lia. reflexivity.
    + rewrite Z.min_r by lia.
      rewrite !(testbit_above v (w - 1)) by lia. reflexivity.
  - rewrite !(testbit_above v (w - 1)) by lia. reflexivity.
Qed.

End Decode.


(* ================================================================== *)
(** ** [setBits] then [getBits] *)
(* ================================================================== *)

(** The bits [getBits] assembles after [setBits] wrote [v] at the same
    place: the low [w] bits of [v]. *)
Lemma written_then_assembled (this : BitView) (o v w : Z) :
  1 <= w <= 32 -> 0 <= o -> o + w <= byteLength this * 8 ->
  o + w <= 2 ^ 31 ->
  let a' := setBits_loop (Z.to_nat w) (bigEndian this) (_view this)
                         w o v 0 in
  let V := getBits_loop (Z.to_nat w) (with_view this a') w o 0 0 in
  (forall j, 0 <= j <= 31 ->
     Z.testbit V j = (j <? w) && Z.testbit v j) /\
  JS.ToInt32 V = V.
Proof.
  intros Hw Ho Hlen H31 a' V. unfold byteLength in Hlen.
  split; [| apply getBits_loop_int32; reflexivity].
  intros j Hj. subst V.
  destruct (bigEndian this) eqn:Hbig.
  - destruct (setBits_loop_BE (Z.to_nat w) (_view this) w o v 0)
      as (L & B & _ & _ & R); try lia.
    fold a' in L, B, R.
    rewrite getBits_loop_BE; cbn [with_view bigEndian _view]; try lia;
      try assumption; try (intros p Hp; apply R; lia).
    destruct (Z.ltb_spec j (w - 0)), (Z.ltb_spec j w); try lia.
    + rewrite B by lia.
      destruct (Z.leb_spec o (o + (w - 0) - 1 - j)),
        (Z.ltb_spec (o + (w - 0) - 1 - j) (o + (w - 0)));
        cbn [andb]; try lia.
      rewrite ToInt32_bit_low by lia. f_equal. lia.
    + apply Z.testbit_0_l.
  - destruct (setBits_loop_LE (Z.to_nat w) (_view this) w o v 0)
      as (L & B & _ & _ & R); try lia.
    fold a' in L, B, R.
    rewrite getBits_loop_LE; cbn [with_view bigEndian _view]; try lia;
      try assumption; try (intros p Hp; apply R; lia).
    rewrite Z.testbit_0_l. cbn [orb].
    destruct (Z.leb_spec 0 j), (Z.ltb_spec j w); cbn [andb]; try lia;
      try reflexivity.
    rewrite B by lia.
    destruct (Z.leb_spec o (o - 0 + j)),
      (Z.ltb_spec (o - 0 + j) (o + (w - 0)));
      cbn [andb]; try lia.
    rewrite ToInt32_bit_low by lia. f_equal. lia.
Qed.

(** The round trip where the address arithmetic is exact: for a width
    [w] in [1, 32], a value [v] that fits in [w] bits (signed or
    unsigned, as it is read back) and a bit offset [o] with [o + w]
    within the view and not above bit [2 ^ 31], in either mode,
    [setBits(o, v, w)] succeeds and [getBits(o, w, signed)] then
    returns [v]. *)
Lemma setBits_getBits_roundtrip (this : BitView) (o v w : Z)
        (signed : bool) :
  1 <= w <= 32 -> 0 <= o -> o + w <= byteLength this * 8 ->
  o + w <= 2 ^ 31 ->
  representable signed w v ->
  exists this',
    setBits o v w this = (Ok tt, this') /\
    bigEndian this' = bigEndian this /\
    getBits this' o w signed = Ok v.
Proof.
  intros Hw Ho Hlen H31 Hv.
  pose proof (written_then_assembled this o v w Hw Ho Hlen H31) as HW.
  cbv zeta in HW. destruct HW as [HV HVint].
  unfold setBits. destruct (Z.gtb_spec w (byteLength this * 8 - o)); [lia |].
  eexists. split; [reflexivity |]. split; [reflexivity |].
  unfold getBits.
  assert (HL : byteLength
                 (with_view this
                    (setBits_loop (Z.to_nat w) (bigEndian this)
                                  (_view this) w o v 0))
               = byteLength this).
  { unfold byteLength. cbn [with_view _view]. f_equal.
    destruct (bigEndian this).
    - apply (setBits_loop_BE (Z.to_nat w) (_view this) w o v 0);
        unfold byteLength in Hlen; lia.
    - apply (setBits_loop_LE (Z.to_nat w) (_view this) w o v 0);
        unfold byteLength in Hlen; lia. }
  rewrite HL. destruct (Z.gtb_spec w (byteLength this * 8 - o)); [lia |].
  unfold representable in Hv. destruct signed.
  - destruct (Z.eqb_spec w 32) as [E | NE]; cbn [negb andb].
    + f_equal. apply (decode_signed32 _ v w); try assumption.
      subst w. exact Hv.
    + rewrite (probe_sign _ v w) by assumption.
      destruct (Z_lt_le_dec v 0).
      * rewrite (testbit_above_neg v (w - 1)) by lia.
        f_equal. apply (decode_negative _ v w); try assumption. lia.
      * rewrite (testbit_above v (w - 1)) by lia.
        f_equal. apply (decode_nonneg _ v w); try assumption. lia.
  - f_equal. apply (decode_unsigned _ v w); assumption.
Qed.


(* ================================================================== *)
(** ** Bounds of the bit engine *)
(* ================================================================== *)

Lemma setBits_loop_length (fuel : nat) :
  forall (big : bool) (a : Uint8Array.t) (bits offset value i : Z),
    length (setBits_loop fuel big a bits offset value i) = length a.
Proof.
  induction fuel as [| fuel IH]; intros big a bits offset value i;
    cbn [setBits_loop]; [reflexivity |].
  destruct (i <? bits); [| reflexivity].
  destruct big; rewrite IH; apply write_length.
Qed.

Lemma setBits_result (offset value bits : Z) (this : BitView) :
  match setBits offset value bits this with
  | (Ok _, this') => byteLength this' = byteLength this
  | (Throw e, this') => e = OutOfRange /\ this' = this
  end.
Proof.
  unfold setBits.
  destruct (bits >? byteLength this * 8 - offset); [split; reflexivity |].
  unfold byteLength. cbn [with_view _view]. f_equal.
  apply setBits_loop_length.
Qed.

(** C2. [getBits] and [setBits] throw the out-of-range error exactly when
    [offset + bits] exceeds the bit length of the view, they throw nothing
    else, and a [setBits] that throws leaves the view as it was. *)
Theorem bounds_check (this : BitView) (offset value bits : Z)
        (signed : bool) :
  (getBits this offset bits signed = Throw OutOfRange
   <-> offset + bits > byteLength this * 8) /\
  (fst (setBits offset value bits this) = Throw OutOfRange
   <-> offset + bits > byteLength this * 8) /\
  match getBits this offset bits signed with
  | Ok _ => True
  | Throw e => e = OutOfRange
  end /\
  match setBits offset value bits this with
  | (Ok _, this') => byteLength this' = byteLength this
  | (Throw e, this') => e = OutOfRange /\ this' = this
  end.
Proof.
  unfold getBits, setBits.
  destruct (Z.gtb_spec bits (byteLength this * 8 - offset)) as [Hgt | Hle].
  - repeat split; intros; cbn; try reflexivity; lia.
  - repeat split; cbn [fst].
    + destruct signed;
        [destruct (negb (bits =? 32) && _) |]; intros H; discriminate H.
    + intros H. lia.
    + intros H. discriminate H.
    + intros H. lia.
    + destruct signed; [destruct (negb (bits =? 32) && _) |]; exact I.
    + unfold byteLength. cbn [with_view _view]. f_equal.
      apply setBits_loop_length.
Qed.

(* ================================================================== *)
(** ** The typed accessors of a stream *)
(* ================================================================== *)

(** What [reader(name, size)] does to the stream, whatever [name] is. *)
Lemma reader_spec {T} (name : Z -> M BitView T) (size : Z) (st : St) :
  (_index (fst st) + size > _length (fst st) ->
   reader name size st = (Throw EndOfStream, st)) /\
  match reader name size st with
  | (r, st') =>
    view (fst st') = view (fst st) /\
    _startIndex (fst st') = _startIndex (fst st) /\
    _length (fst st') = _length (fst st) /\
    _index (fst st')
    = match r with
      | Ok _ => _index (fst st) + size
      | Throw _ => _index (fst st)
      end /\
    match r with
    | Ok _ => _index (fst st) + size <= _length (fst st)
    | Throw _ => True
    end
  end.
Proof.
  destruct st as [s h]. unfold reader, bind, this_, throw, on_view, set_index_, ret.
  cbn [fst snd].
  destruct (Z.gtb_spec (_index s + size) (_length s)) as [Hgt | Hle].
  - split; [reflexivity |]. cbn. auto.
  - split; [lia |]. cbv zeta. cbn [fst snd].
    destruct (name (_index s) (h (view s))) as [[val | e] v']; cbn;
      repeat split; try reflexivity; lia.
Qed.

Lemma writer_spec {T} (name : Z -> T -> M BitView unit) (size : Z)
      (value : T) (st : St) :
  match writer name size value st with
  | (r, st') =>
    view (fst st') = view (fst st) /\
    _startIndex (fst st') = _startIndex (fst st) /\
    _length (fst st') = _length (fst st) /\
    _index (fst st')
    = match r with
      | Ok _ => _index (fst st) + size
      | Throw _ => _index (fst st)
      end
  end.
Proof.
  destruct st as [s h]. unfold writer, bind, this_, on_view, set_index_.
  cbn [fst snd]. cbv zeta. cbn [fst snd].
  destruct (name (_index s) value (h (view s))) as [[[] | e] v']; cbn;
    repeat split.
Qed.

Lemma read_prim_spec (p : prim) (st : St) :
  (_index (fst st) + width p > _length (fst st) ->
   read_prim p st = (Throw EndOfStream, st)) /\
  match read_prim p st with
  | (r, st') =>
    view (fst st') = view (fst st) /\
    _startIndex (fst st') = _startIndex (fst st) /\
    _length (fst st') = _length (fst st) /\
    _index (fst st')
    = match r with
      | Ok _ => _index (fst st) + width p
      | Throw _ => _index (fst st)
      end /\
    match r with
    | Ok _ => _index (fst st) + width p <= _length (fst st)
    | Throw _ => True
    end
  end.
Proof. destruct p; exact (reader_spec _ _ st). Qed.

Lemma write_prim_spec (p : prim) (value : value_of p) (st : St) :
  match write_prim p value st with
  | (r, st') =>
    view (fst st') = view (fst st) /\
    _startIndex (fst st') = _startIndex (fst st) /\
    _length (fst st') = _length (fst st) /\
    _index (fst st')
    = match r with
      | Ok _ => _index (fst st) + width p
      | Throw _ => _index (fst st)
      end
  end.
Proof. destruct p; exact (writer_spec _ _ value st). Qed.

(** C3. A typed read or write that succeeds advances the index by the
    bit width of its type; a read that would cross the length of the
    stream throws the end-of-stream error; a read or write that throws
    leaves the index where it was. *)
Theorem typed_access_advances (p : prim) (st : St) :
  (_index (fst st) + width p > _length (fst st) ->
   fst (read_prim p st) = Throw EndOfStream) /\
  match read_prim p st with
  | (Ok _, st') => _index (fst st') = _index (fst st) + width p
  | (Throw _, st') => _index (fst st') = _index (fst st)
  end /\
  forall value : value_of p,
    match write_prim p value st with
    | (Ok _, st') => _index (fst st') = _index (fst st) + width p
    | (Throw _, st') => _index (fst st') = _index (fst st)
    end.
Proof.
  split; [| split].
  - intros H. rewrite (proj1 (read_prim_spec p st) H). reflexivity.
  - pose proof (proj2 (read_prim_spec p st)) as H.
    destruct (read_prim p st) as [[v | e] st'];
      destruct H as (_ & _ & _ & H & _); exact H.
  - intros value. pose proof (write_prim_spec p value st) as H.
    destruct (write_prim p value st) as [[v | e] st'];
      destruct H as (_ & _ & _ & H); exact H.
Qed.

(* ================================================================== *)
(** ** The window of a stream *)
(* ================================================================== *)

(** C4, as the code has it. A typed read keeps the cursor within its
    window: when it would push the index past the length it throws the
    end-of-stream error and leaves the stream and the views as they were.
    [readBits] and [writeBits] check nothing but the bounds of the view:
    when they succeed the index is within the buffer, not within the
    window. *)
Theorem typed_read_keeps_window (p : prim) (st : St) :
  cursor_inv (fst st) ->
  match read_prim p st with
  | (r, st') =>
    cursor_inv (fst st') /\
    (_index (fst st) + width p > _length (fst st) ->
     r = Throw EndOfStream /\ st' = st)
  end /\
  (forall value bits,
     fst (writeBits value bits st) = Ok tt ->
     _index (fst st) + bits <= byteLength (snd st (view (fst st))) * 8) /\
  (forall bits signed v,
     fst (readBits bits signed st) = Ok v ->
     _index (fst st) + bits <= byteLength (snd st (view (fst st))) * 8).
Proof.
  intros Hinv. unfold cursor_inv in *. split; [| split].
  - destruct (read_prim_spec p st) as [Hthrow H].
    destruct (read_prim p st) as [r st'] eqn:E.
    destruct H as (_ & Hs & Hl & Hi & Hok). split.
    + rewrite Hs, Hl, Hi. destruct r; cbn [width] in *.
      * destruct p; cbn [width] in *; lia.
      * lia.
    + intros H. specialize (Hthrow H). split; congruence.
  - intros value bits. destruct st as [s h].
    unfold writeBits, bind, this_, on_view, setBits. cbn [fst snd].
    cbv zeta. cbn [fst snd].
    destruct (Z.gtb_spec bits (byteLength (h (view s)) * 8 - _index s));
      cbn [fst]; [discriminate | lia].
  - intros bits signed v. destruct st as [s h].
    unfold readBits, bind, this_, on_view, getBitsM, getBits.
    cbn [fst snd]. cbv zeta. cbn [fst snd].
    destruct (Z.gtb_spec bits (byteLength (h (view s)) * 8 - _index s));
      cbn [fst]; [discriminate | lia].
Qed.

(** C5. [readBitStream(n)] returns a stream on the same view, whose
    window starts at the current index of [c] and is [n] bits long, with
    its own index at the start of the window; it advances [c] by [n] bits
    and changes nothing else. *)
Theorem readBitStream_spec (bitLength : Z) (c : BitStream) (h : heap) :
  exists slice c',
    readBitStream bitLength (c, h) = (Ok slice, (c', h)) /\
    view slice = view c /\
    _startIndex slice = _index c /\
    length_ slice = bitLength /\
    index slice = 0 /\
    _index c' = _index c + bitLength /\
    index c' = index c + bitLength /\
    view c' = view c /\
    _startIndex c' = _startIndex c /\
    _length c' = _length c.
Proof.
  eexists. eexists. split; [reflexivity |].
  unfold length_, index. cbn. repeat split; lia.
Qed.

(* ================================================================== *)
(** ** Examples and the 64-bit float accessors *)
(* ================================================================== *)

(** Bits written in one mode and read in the other: the bytes of
    [0x0102] written big-endian read [0x0201] little-endian. *)
Example endianness_swap :
  let this := mkBitView [0; 0] (repeat 0 8) true in
  let this := snd (setBits 0 0x0102 16 this) in
  _view this = [1; 2] /\
  getBits (mkBitView (_view this) (_scratch this) false) 0 16 false
  = Ok 0x0201.
Proof. split; reflexivity. Qed.

(** The UTF-8 bytes of the euro sign. *)
Example stringToByteArray_euro :
  stringToByteArray [0x20AC] = [0xE2; 0x82; 0xAC].
Proof. reflexivity. Qed.

(** C9. On the buffer [0b10110010, 0, 0], [getBits(0, 4, false)] is
    [0b1011 = 11] in big-endian mode and [0b0010 = 2] in little-endian
    mode. *)
Theorem getBits_example :
  getBits (mkBitView [0xb2; 0; 0] (repeat 0 8) true) 0 4 false = Ok 11 /\
  getBits (mkBitView [0xb2; 0; 0] (repeat 0 8) false) 0 4 false = Ok 2.
Proof. split; reflexivity. Qed.

(** C8, at the double 1.0 (bits [0x3FF0000000000000]) on eight zero
    bytes: [setFloat64] writes both words at [offset], the second over
    the first, so the buffer holds the low word alone and [getFloat64]
    returns the double of bits 0, not 1.0. *)
Theorem setFloat64_overwrites_high_word :
  let this := newBitView (repeat 0 8) in
  exists this',
    setFloat64 0 0x3FF0000000000000 this = (Ok tt, this') /\
    _view this' = repeat 0 8 /\
    fst (getFloat64 0 this') = Ok 0.
Proof. eexists. split; [reflexivity |]. split; reflexivity. Qed.

(** What [getFloat64] expects: the high word at [offset] and the low
    word at [offset + 32]. *)
Example getFloat64_layout :
  let this := newBitView (repeat 0 8) in
  let this := snd (setBits 0 0x3FF00000 32 this) in
  let this := snd (setBits 32 0 32 this) in
  fst (getFloat64 0 this) = Ok 0x3FF0000000000000.
Proof. reflexivity. Qed.

(* ================================================================== *)
(** ** Strings *)
(* ================================================================== *)

(** C7, on the method of the stream: it hands its byte count to the
    helper in the place of [length] and leaves [index] and [bytes]
    undefined, so the helper computes [NaN] bytes to read, reads nothing
    and returns the empty string, whatever the count and the stream. *)
Theorem BitStream_readASCIIString_reads_nothing (N : Z) (st : St) :
  BitStream_readASCIIString N st = (Ok [], st).
Proof. reflexivity. Qed.


Lemma for_loop_write_bytes (string l : list Z) :
  forall (pre : list Z) (st : St),
    string = pre ++ l ->
    for_loop (S (length l)) (Z.of_nat (length pre))
      (fun i =>
         writeUint8 (if i <? Z.of_nat (length string)
                     then charCodeAt string i else 0)) st
    = write_bytes (l ++ [0]) st.
Proof.
  induction l as [| x l IH]; intros pre st Hs.
  - rewrite app_nil_r in Hs. subst string.
    cbn [for_loop write_bytes app]. rewrite Z.ltb_irrefl. reflexivity.
  - cbn [for_loop write_bytes app length]. unfold bind at 1 3.
    assert (Hlt : (Z.of_nat (length pre) <? Z.of_nat (length string)) = true).
    { apply Z.ltb_lt. subst string. rewrite length_app. cbn [length]. lia. }
    rewrite Hlt.
    assert (Hx : charCodeAt string (Z.of_nat (length pre)) = x).
    { unfold charCodeAt. rewrite Nat2Z.id. subst string.
      apply nth_middle. }
    rewrite Hx.
    destruct (writeUint8 x st) as [[[] | e] st1]; [| reflexivity].
    replace (Z.of_nat (length pre) + 1)
      with (Z.of_nat (length (pre ++ [x])))
      by (rewrite length_app; cbn [length]; lia).
    apply IH. rewrite <- app_assoc. exact Hs.
Qed.



(* ================================================================== *)
(** ** What a write leaves unchanged *)
(* ================================================================== *)

Lemma view_frame_refl (lo hi : Z) (v : BitView) : view_frame lo hi v v.
Proof. repeat split. Qed.

Lemma view_frame_same (lo hi : Z) (v v' : BitView) :
  _view v' = _view v -> bigEndian v' = bigEndian v -> view_frame lo hi v v'.
Proof. intros Hv Hb. unfold view_frame. rewrite Hv. repeat split. exact Hb. Qed.

Lemma view_frame_trans (lo hi : Z) (v1 v2 v3 : BitView) :
  view_frame lo hi v1 v2 -> view_frame lo hi v2 v3 -> view_frame lo hi v1 v3.
Proof.
  intros (L1 & M1 & B1 & P1) (L2 & M2 & B2 & P2).
  split; [congruence |]. split; [congruence |]. split.
  - intros B HB. rewrite B2, B1 by assumption. reflexivity.
  - intros p Hp Hout. rewrite <- P1 by assumption.
    rewrite <- M1. apply P2; assumption.
Qed.

Lemma view_frame_weaken (lo hi lo' hi' : Z) (v v' : BitView) :
  lo' <= lo -> hi <= hi' -> view_frame lo hi v v' -> view_frame lo' hi' v v'.
Proof.
  intros Hlo Hhi (L & M & B & P). repeat split; try assumption.
  - intros B' HB'. apply B. lia.
  - intros p Hp Hout. apply P; lia.
Qed.

(** [setBits] either throws and leaves the view, or changes bits of its
    span only. *)
Lemma setBits_frame (offset value bits : Z) (this : BitView) :
  0 <= offset -> 0 <= bits <= 32 ->
  match setBits offset value bits this with
  | (Ok _, this') =>
    offset + bits <= byteLength this * 8 /\
    _scratch this' = _scratch this /\
    (offset + bits <= 2 ^ 31 ->
     view_frame offset (offset + bits) this this')
  | (Throw _, this') => this' = this
  end.
Proof.
  intros Ho Hb. unfold setBits.
  destruct (Z.gtb_spec bits (byteLength this * 8 - offset)) as [Hgt | Hle];
    [reflexivity |].
  split; [lia |]. split; [reflexivity |]. intros H31.
  unfold byteLength in Hle. unfold view_frame. cbn [with_view _view bigEndian].
  destruct (bigEndian this).
  - destruct (setBits_loop_BE (Z.to_nat bits) (_view this) bits offset value 0)
      as (L & B & F & _ & _); try lia.
    replace (bits - 0) with bits in * by lia.
    repeat split; try assumption.
    intros p Hp Hout. rewrite B by lia.
    destruct (Z.leb_spec offset p), (Z.ltb_spec p (offset + bits));
      cbn [andb]; try lia; reflexivity.
  - destruct (setBits_loop_LE (Z.to_nat bits) (_view this) bits offset value 0)
      as (L & B & F & _ & _); try lia.
    replace (bits - 0) with bits in * by lia.
    repeat split; try assumption.
    intros p Hp Hout. rewrite B by lia.
    destruct (Z.leb_spec offset p), (Z.ltb_spec p (offset + bits));
      cbn [andb]; try lia; reflexivity.
Qed.


Lemma setBits_setter_frame (bits : Z) :
  0 <= bits <= 32 ->
  setter_frame (fun offset value => setBits offset value bits) bits.
Proof.
  intros Hb offset value this Ho.
  pose proof (setBits_frame offset value bits this Ho Hb) as H.
  destruct (setBits offset value bits this) as [[[] | e] this'].
  - apply H.
  - subst this'. split; reflexivity.
Qed.


Lemma setBoolean_frame : setter_frame setBoolean 1.
Proof.
  intros offset value this Ho.
  exact (setBits_setter_frame 1 ltac:(lia) offset
                              (if value then 1 else 0) this Ho).
Qed.

Lemma setFloat32_frame : setter_frame setFloat32 32.
Proof.
  intros offset value this Ho.
  unfold setFloat32, bind, scratch_set, scratch_get.
  set (this1 := with_scratch this _).
  set (u := DataView.getUint32 0 (_scratch this1)).
  pose proof (setBits_setter_frame 32 ltac:(lia) offset u this1 Ho) as H.
  cbv beta in H.
  destruct (setBits offset u 32 this1) as [[[] | e] this']; exact H.
Qed.

(** [setFloat64] changes the 32 bits at [offset] and nothing after
    them: its two words go to the same place. *)
Lemma setFloat64_one_word : setter_frame setFloat64 32.
Proof.
  intros offset value this Ho.
  unfold setFloat64, bind, scratch_set, scratch_get.
  set (this1 := with_scratch this _).
  set (hi := DataView.getUint32 0 (_scratch this1)).
  pose proof (setBits_frame offset hi 32 this1 Ho ltac:(lia)) as H1.
  pose proof (setBits_result offset hi 32 this1) as HB.
  destruct (setBits offset hi 32 this1) as [[[] | e] this2]; cbv iota beta.
  2:{ destruct HB as [_ ->]. split; reflexivity. }
  destruct H1 as (Hroom & Hs & H1).
  set (lo := DataView.getUint32 4 (_scratch this2)).
  pose proof (setBits_frame offset lo 32 this2 Ho ltac:(lia)) as H2.
  unfold setBits in *.
  destruct (Z.gtb_spec 32 (byteLength this2 * 8 - offset)) as [Hgt | Hle].
  - (* the second write has the room the first one had *)
    exfalso. lia.
  - intros H31. destruct H2 as (_ & _ & H2).
    eapply view_frame_trans; [apply H1 | apply H2]; lia.
Qed.

Lemma setter_frame_weaken {T} (set : Z -> T -> M BitView unit) (w w' : Z) :
  0 <= w <= w' -> setter_frame set w -> setter_frame set w'.
Proof.
  intros Hw H offset value this Ho. specialize (H offset value this Ho).
  destruct (set offset value this) as [[[] | e] this']; [| exact H].
  intros H31. apply view_frame_weaken with (lo := offset) (hi := offset + w);
    try lia.
  apply H. lia.
Qed.

Lemma setFloat64_frame : setter_frame setFloat64 64.
Proof. apply (setter_frame_weaken _ 32); [lia | apply setFloat64_one_word]. Qed.

Lemma write_prim_frame (p : prim) (value : value_of p) :
  exists (T : Type) (set : Z -> T -> M BitView unit) (v : T),
    setter_frame set (width p) /\
    write_prim p value = writer set (width p) v.
Proof.
  destruct p; cbn [value_of width write_prim] in *.
  - exists bool, setBoolean, value. split; [apply setBoolean_frame | reflexivity].
  - exists Z, setInt8, value.
    split; [apply (setBits_setter_frame 8); lia | reflexivity].
  - exists Z, setInt16, value.
    split; [apply (setBits_setter_frame 16); lia | reflexivity].
  - exists Z, setInt32, value.
    split; [apply (setBits_setter_frame 32); lia | reflexivity].
  - exists Z, setUint8, value.
    split; [apply (setBits_setter_frame 8); lia | reflexivity].
  - exists Z, setUint16, value.
    split; [apply (setBits_setter_frame 16); lia | reflexivity].
  - exists Z, setUint32, value.
    split; [apply (setBits_setter_frame 32); lia | reflexivity].
  - exists Z, setFloat32, value. split; [apply setFloat32_frame | reflexivity].
  - exists Z, setFloat64, value. split; [apply setFloat64_frame | reflexivity].
Qed.


Lemma upd_same (h : heap) (l : ref) (v : BitView) : upd h l v l = v.
Proof. unfold upd. rewrite Nat.eqb_refl. reflexivity. Qed.

Lemma upd_other (h : heap) (l l' : ref) (v : BitView) :
  l' <> l -> upd h l v l' = h l'.
Proof.
  intros H. unfold upd. destruct (Nat.eqb_spec l' l); [contradiction |].
  reflexivity.
Qed.


Lemma writer_frame {T} (set : Z -> T -> M BitView unit) (w : Z)
      (value : T) (s : BitStream) (h : heap) :
  setter_frame set w -> 0 <= _index s ->
  write_post w s h (writer set w value (s, h)).
Proof.
  intros Hset Hi. unfold write_post, writer, bind, this_, on_view, set_index_.
  cbn [fst snd]. cbv zeta. cbn [fst snd].
  specialize (Hset (_index s) value (h (view s)) Hi).
  destruct (set (_index s) value (h (view s))) as [[[] | e] v'];
    cbn [fst snd view _startIndex _length _index];
    rewrite upd_same;
    (split; [reflexivity |]); (split; [reflexivity |]);
    (split; [reflexivity |]);
    (split; [intros l Hl; apply upd_other; exact Hl |]).
  - split; [reflexivity | exact Hset].
  - split; [reflexivity | exact Hset].
Qed.


Lemma run_write_frame (op : write_op) (s : BitStream) (h : heap) :
  op_ok op -> 0 <= _index s ->
  0 <= op_width op /\
  write_post (op_width op) s h (run_write op (s, h)).
Proof.
  intros Hok Hi. destruct op as [value bits | p value];
    cbn [op_ok op_width run_write] in *.
  - split; [lia |].
    change (writeBits value bits)
      with (writer (fun offset v => setBits offset v bits) bits value).
    apply writer_frame; [apply setBits_setter_frame; lia | exact Hi].
  - split; [destruct p; cbn [width]; lia |].
    destruct (write_prim_frame p value) as (T & set & v & Hset & ->).
    apply writer_frame; assumption.
Qed.

Lemma run_writes_frame (ops : list write_op) :
  forall (s : BitStream) (h : heap) (lo hi : Z),
    Forall op_ok ops ->
    0 <= lo <= _index s -> hi <= 2 ^ 31 ->
    match run_writes ops (s, h) with
    | (r, (s', h')) =>
      view s' = view s /\
      _index s <= _index s' /\
      (forall l, l <> view s -> h' l = h l) /\
      (_index s' <= hi ->
       view_frame lo hi (h (view s)) (h' (view s)))
    end.
Proof.
  induction ops as [| op ops IH]; intros s h lo hi Hok Hlo Hhi.
  - cbn [run_writes]. unfold ret.
    split; [reflexivity |]. split; [lia |]. split; [reflexivity |].
    intros _. apply view_frame_refl.
  - inversion Hok as [| ? ? Hop Hops]; subst.
    cbn [run_writes]. unfold bind.
    destruct (run_write_frame op s h Hop ltac:(lia)) as [Hw Hpost].
    destruct (run_write op (s, h)) as [[[] | e] [s1 h1]];
      unfold write_post in Hpost;
      destruct Hpost as (Hv & Hs & Hlen & Hother & Hr).
    + destruct Hr as [Hi1 Hframe].
      specialize (IH s1 h1 lo hi Hops ltac:(lia) Hhi).
      destruct (run_writes ops (s1, h1)) as [r [s' h']].
      destruct IH as (Hv' & Hmono & Hother' & Hframe').
      split; [congruence |]. split; [lia |]. split.
      * intros l Hne. rewrite Hother' by congruence. apply Hother, Hne.
      * intros Hend. rewrite Hv in Hframe'.
        eapply view_frame_trans; [| apply Hframe'; exact Hend].
        apply view_frame_weaken
          with (lo := _index s) (hi := _index s + op_width op);
          try lia.
        apply Hframe. lia.
    + destruct Hr as (Hi1 & Hview & Hmode).
      split; [exact Hv |]. split; [lia |]. split; [exact Hother |].
      intros _. apply view_frame_same; assumption.
Qed.

(** C6, as the code has it. Writes through a stream (a sub-stream in
    particular) are not checked against its window.  As long as the index
    they leave is within the window, they change no bit of the bytes of
    the view outside the window and no byte that lies outside it, and
    they keep the size and the mode of the view; the window is given in
    bits of the mode of the view and lies below bit [2 ^ 31]. *)
Theorem writes_within_window (ops : list write_op) (s : BitStream)
        (h : heap) :
  Forall op_ok ops ->
  0 <= _startIndex s <= _index s -> _length s <= 2 ^ 31 ->
  match run_writes ops (s, h) with
  | (r, (s', h')) =>
    _index s' <= _length s ->
    view_frame (_startIndex s) (_length s) (h (view s)) (h' (view s))
  end.
Proof.
  intros Hok Hs Hl.
  pose proof (run_writes_frame ops s h (_startIndex s) (_length s)
                               Hok Hs Hl) as H.
  destruct (run_writes ops (s, h)) as [r [s' h']].
  destruct H as (_ & _ & _ & Hframe).
  intros Hend. apply Hframe, Hend.
Qed.


(* ================================================================== *)
(** ** The loops end within their fuel *)
(* ================================================================== *)

Lemma bitOffset_range (offset : Z) : 0 <= offset :&: 7 <= 7.
Proof.
  unfold JS.band. change (JS.ToInt32 7) with (Z.ones 3).
  rewrite Z.land_ones by lia.
  pose proof (Z.mod_pos_bound (JS.ToInt32 offset) (2 ^ 3) ltac:(lia)).
  change (2 ^ 3) with 8 in *. lia.
Qed.

(** More fuel than the bits left changes nothing: the loops of [getBits]
    and [setBits] stop on their condition. *)
Lemma getBits_loop_fuel (fuel : nat) :
  forall (this : BitView) (bits offset i value : Z) (k : nat),
    (Z.to_nat (bits - i) <= fuel)%nat ->
    getBits_loop (fuel + k) this bits offset i value
    = getBits_loop fuel this bits offset i value.
Proof.
  induction fuel as [| fuel IH]; intros this bits offset i value k Hf.
  - rewrite !getBits_loop_done by lia. reflexivity.
  - cbn [Nat.add getBits_loop].
    destruct (Z.ltb_spec i bits); [| reflexivity].
    pose proof (bitOffset_range offset).
    destruct (bigEndian this); apply IH; lia.
Qed.

Lemma setBits_loop_fuel (fuel : nat) :
  forall (big : bool) (a : Uint8Array.t) (bits offset value i : Z)
         (k : nat),
    (Z.to_nat (bits - i) <= fuel)%nat ->
    setBits_loop (fuel + k) big a bits offset value i
    = setBits_loop fuel big a bits offset value i.
Proof.
  induction fuel as [| fuel IH]; intros big a bits offset value i k Hf.
  - rewrite !setBits_loop_done by lia. reflexivity.
  - cbn [Nat.add setBits_loop].
    destruct (Z.ltb_spec i bits); [| reflexivity].
    pose proof (bitOffset_range offset).
    destruct big; apply IH; lia.
Qed.

(* ================================================================== *)
(** ** Reading and writing bytes through a stream *)
(* ================================================================== *)

Lemma readUint8_ok (s : BitStream) (h : heap) :
  _index s + 8 <= _length s ->
  _index s + 8 <= byteLength (h (view s)) * 8 ->
  exists c,
    readUint8 (s, h)
    = (Ok c,
       (mkBitStream (view s) (_startIndex s) (_length s) (_index s + 8),
        upd h (view s) (h (view s)))).
Proof.
  intros Hwin Hbuf.
  unfold readUint8, reader, bind, this_, throw, on_view, set_index_, ret,
    getUint8, getBitsM, getBits.
  cbn [fst snd]. cbv zeta. cbn [fst snd].
  destruct (Z.gtb_spec (_index s + 8) (_length s)); [lia |].
  cbv zeta. cbn [fst snd].
  destruct (Z.gtb_spec 8 (byteLength (h (view s)) * 8 - _index s)); [lia |].
  eexists. reflexivity.
Qed.

Lemma writeUint8_ok (value : Z) (s : BitStream) (h : heap) :
  _index s + 8 <= byteLength (h (view s)) * 8 ->
  exists v',
    writeUint8 value (s, h)
    = (Ok tt,
       (mkBitStream (view s) (_startIndex s) (_length s) (_index s + 8),
        upd h (view s) v')) /\
    byteLength v' = byteLength (h (view s)).
Proof.
  intros Hbuf.
  unfold writeUint8, writer, bind, this_, on_view, set_index_, setUint8,
    setInt8.
  cbn [fst snd]. cbv zeta. cbn [fst snd].
  pose proof (setBits_result (_index s) value 8 (h (view s))) as H.
  unfold setBits in *.
  destruct (Z.gtb_spec 8 (byteLength (h (view s)) * 8 - _index s)); [lia |].
  eexists. split; [reflexivity | exact H].
Qed.

(** With room for them in the buffer, the bytes are all written and the
    index advances by eight bits for each. *)
Lemma write_bytes_ok (l : list Z) :
  forall (s : BitStream) (h : heap),
    _index s + 8 * Z.of_nat (length l) <= byteLength (h (view s)) * 8 ->
    exists s' h',
      write_bytes l (s, h) = (Ok tt, (s', h')) /\
      _index s' = _index s + 8 * Z.of_nat (length l) /\
      view s' = view s /\
      byteLength (h' (view s)) = byteLength (h (view s)).
Proof.
  induction l as [| b l IH]; intros s h Hroom.
  - exists s, h. cbn [length]. repeat split; lia.
  - cbn [length] in Hroom. cbn [write_bytes]. unfold bind.
    destruct (writeUint8_ok b s h ltac:(lia)) as (v' & -> & Hlen).
    set (s1 := mkBitStream _ _ _ _). set (h1 := upd _ _ _).
    destruct (IH s1 h1) as (s' & h' & -> & Hi & Hv & Hb).
    { subst s1 h1. cbn [view _index]. rewrite upd_same. lia. }
    exists s', h'. subst s1 h1. cbn [view _index] in *.
    rewrite upd_same in Hb. cbn [length].
    repeat split; try assumption; lia.
Qed.

(** The helper in fixed-length mode: with [bytes] bytes left in the
    window and in the buffer, it reads them all, zero bytes or not. *)
Lemma readString_loop_fixed (N : Z) (fuel : nat) :
  forall (i : Z) (chars : list Z) (append : bool) (s : BitStream)
         (h : heap),
    Z.of_nat fuel = N - i ->
    _index s + 8 * (N - i) <= _length s ->
    _index s + 8 * (N - i) <= byteLength (h (view s)) * 8 ->
    exists chars' s' h',
      readString_loop fuel (JS.Num N) true i chars append (s, h)
      = (Ok chars', (s', h')) /\
      _index s' = _index s + 8 * (N - i).
Proof.
  induction fuel as [| fuel IH]; intros i chars append s h Hf Hwin Hbuf.
  - exists chars, s, h. split; [reflexivity | lia].
  - cbn [readString_loop JS.lt].
    destruct (Z.ltb_spec i N); [| lia]. unfold bind.
    destruct (readUint8_ok s h ltac:(lia) ltac:(lia)) as [c ->].
    rewrite andb_false_r.
    set (s1 := mkBitStream _ _ _ _). set (h1 := upd _ _ _).
    edestruct (IH (i + 1)) with (s := s1) (h := h1)
      as (chars' & s' & h' & -> & Hi).
    + lia.
    + subst s1. cbn [_index _length]. lia.
    + subst s1 h1. cbn [_index view]. rewrite upd_same. lia.
    + exists chars', s', h'. split; [reflexivity |].
      subst s1. cbn [_index] in Hi. lia.
Qed.

Lemma readString_fixed_consumes (N length : Z) (index : option Z)
      (s : BitStream) (h : heap) :
  0 < N ->
  _index s + 8 * N <= _length s ->
  _index s + 8 * N <= byteLength (h (view s)) * 8 ->
  exists string s' h',
    readASCIIString length index (Some N) (s, h) = (Ok string, (s', h')) /\
    _index s' = _index s + 8 * N.
Proof.
  intros HN Hwin Hbuf. unfold readASCIIString, readString.
  destruct N as [| n | n]; try lia.
  assert (Ht : JS.truthy (Z.pos n) = true) by reflexivity.
  rewrite Ht. unfold bind.
  destruct (readString_loop_fixed (Z.pos n) (Z.to_nat (Z.pos n)) 0 [] true s h)
    as (chars' & s' & h' & -> & Hi); try lia.
  exists (fromCharCode chars'), s', h'. split; [reflexivity | lia].
Qed.

(* ================================================================== *)
(** ** What [getBits] returns *)
(* ================================================================== *)

Lemma bytes_ok_read (a : Uint8Array.t) (i : Z) :
  bytes_ok a -> 0 <= Uint8Array.read a i < 256.
Proof.
  intros H. unfold Uint8Array.read. destruct (i <? 0); [lia |].
  destruct (nth_in_or_default (Z.to_nat i) a 0) as [Hin | ->]; [| lia].
  unfold bytes_ok in H. rewrite Forall_forall in H. apply H, Hin.
Qed.

Lemma bytes_ok_span (a : Uint8Array.t) (o w : Z) :
  bytes_ok a -> span_ok a o w.
Proof. intros H p _. apply bytes_ok_read, H. Qed.

Lemma pow2_double (w : Z) : 1 <= w -> 2 ^ w = 2 * 2 ^ (w - 1).
Proof.
  intros H. replace w with (Z.succ (w - 1)) at 1 by lia.
  apply Z.pow_succ_r. lia.
Qed.

Lemma lt_pow2_of_bits (u w : Z) :
  0 <= w -> 0 <= u ->
  (forall j, w <= j -> Z.testbit u j = false) -> u < 2 ^ w.
Proof.
  intros Hw Hu H.
  assert (E : u mod 2 ^ w = u).
  { apply Z.bits_inj'. intros j Hj.
    destruct (Z_lt_le_dec j w).
    - apply Z.mod_pow2_bits_low. lia.
    - rewrite Z.mod_pow2_bits_high by lia. symmetry. apply H. lia. }
  rewrite <- E. apply Z.mod_pos_bound. apply Z.pow_pos_nonneg; lia.
Qed.

(** The bits the loop of [getBits] assembles from a buffer of bytes. *)
Lemma getBits_loop_bits (this : BitView) (o w : Z) :
  0 <= w <= 32 -> 0 <= o -> o + w <= 2 ^ 31 ->
  span_ok (_view this) o w ->
  let V := getBits_loop (Z.to_nat w) this w o 0 0 in
  (forall j, 0 <= j <= 31 ->
     Z.testbit V j
     = (j <? w) && bitAt (bigEndian this) (_view this)
                         (place (bigEndian this) o w j)) /\
  JS.ToInt32 V = V.
Proof.
  intros Hw Ho H31 Hok V.
  split; [| apply getBits_loop_int32; reflexivity].
  intros j Hj. subst V. unfold place.
  destruct (bigEndian this) eqn:Hbig.
  - rewrite getBits_loop_BE; try lia; try assumption.
    + destruct (Z.ltb_spec j (w - 0)), (Z.ltb_spec j w); try lia.
      * cbn [andb]. f_equal. lia.
      * apply Z.testbit_0_l.
    + intros p Hp. apply Hok. lia.
  - rewrite getBits_loop_LE; try lia; try assumption.
    + rewrite Z.testbit_0_l. cbn [orb].
      destruct (Z.leb_spec 0 j), (Z.ltb_spec j w); cbn [andb]; try lia;
        try reflexivity.
      f_equal. lia.
    + intros p Hp. apply Hok. lia.
Qed.

(** Decoding, given the bits of the assembled value [V]: the unsigned
    result is the [w]-bit number of those bits, the signed result its
    signed reading. *)
Lemma decode_results (V w : Z) (b : Z -> bool) :
  1 <= w <= 32 ->
  (forall j, 0 <= j <= 31 -> Z.testbit V j = (j <? w) && b j) ->
  JS.ToInt32 V = V ->
  exists U,
    0 <= U < 2 ^ w /\
    (forall j, 0 <= j < w -> Z.testbit U j = b j) /\
    V :>>>: 0 = U /\
    (if negb (w =? 32) && JS.truthy (V :&: (1 :<<: (w - 1)))
     then V :|: (-1 :^: ((1 :<<: w) - 1)) else V) = signed_of w U.
Proof.
  intros Hw HV HVint.
  set (U := V mod 2 ^ 32).
  assert (HU32 : 0 <= U < 2 ^ 32)
    by (apply Z.mod_pos_bound; reflexivity).
  assert (HUbit : forall j, 0 <= j ->
             Z.testbit U j = (j <? w) && Z.testbit V j).
  { intros j Hj. unfold U. destruct (Z_lt_le_dec j 32).
    - rewrite Z.mod_pow2_bits_low by lia. rewrite HV by lia.
      destruct (j <? w); reflexivity.
    - rewrite Z.mod_pow2_bits_high by lia.
      destruct (Z.ltb_spec j w); [lia | reflexivity]. }
  assert (HUw : U < 2 ^ w).
  { apply lt_pow2_of_bits; try lia. intros j Hj. rewrite HUbit by lia.
    destruct (Z.ltb_spec j w); [lia | reflexivity]. }
  assert (HVU : forall j, 0 <= j <= 31 ->
             Z.testbit V j = (j <? w) && Z.testbit U j).
  { intros j Hj. rewrite HUbit by lia. rewrite HV by lia.
    destruct (j <? w); reflexivity. }
  exists U. split; [lia |]. split; [| split].
  - intros j Hj. rewrite HUbit, HV by lia.
    destruct (Z.ltb_spec j w); [reflexivity | lia].
  - unfold JS.shr, JS.ToUint32. change (0 mod 32) with 0.
    apply Z.shiftr_0_r.
  - pose proof (pow2_double w ltac:(lia)) as Hd.
    assert (Hpos : 0 < 2 ^ (w - 1)) by (apply Z.pow_pos_nonneg; lia).
    unfold signed_of.
    destruct (Z.eqb_spec w 32) as [E | NE]; cbn [negb andb].
    + (* a full word is returned as the int32 it is *)
      subst w. pose proof (ToInt32_range V) as HR. rewrite HVint in HR.
      change (2 ^ (32 - 1)) with (2 ^ 31) in *.
      pose proof (Z.div_mod V (2 ^ 32) ltac:(discriminate)) as Hdm.
      fold U in Hdm. pow_consts.
      destruct (Z.ltb_spec U 2147483648); lia.
    + set (v := if U <? 2 ^ (w - 1) then U else U - 2 ^ w).
      assert (Hv : forall j, 0 <= j <= 31 ->
                 Z.testbit V j = (j <? w) && Z.testbit v j).
      { intros j Hj. rewrite HVU by lia. unfold v.
        destruct (U <? 2 ^ (w - 1)); [reflexivity |].
        destruct (Z.ltb_spec j w); [| reflexivity]. cbn [andb].
        rewrite <- (Z.mod_pow2_bits_low U w j) by lia.
        rewrite <- (Z.mod_pow2_bits_low (U - 2 ^ w) w j) by lia.
        f_equal. replace (U - 2 ^ w) with (U + (-1) * 2 ^ w) by lia.
        symmetry. apply Z_mod_plus_full. }
      rewrite (probe_sign V v w Hw Hv HVint NE).
      unfold v in *. destruct (Z.ltb_spec U (2 ^ (w - 1))).
      * rewrite (testbit_above U (w - 1)) by lia.
        apply (decode_nonneg V U w Hw Hv HVint NE). lia.
      * rewrite (testbit_above_neg (U - 2 ^ w) (w - 1)) by lia.
        apply (decode_negative V (U - 2 ^ w) w Hw Hv NE). lia.
Qed.

(** [getBits] on a buffer of bytes: the unsigned result and the signed
    one, for a span within the view and below bit [2 ^ 31]. *)
Lemma getBits_results (this : BitView) (o w : Z) :
  1 <= w <= 32 -> 0 <= o -> o + w <= byteLength this * 8 ->
  o + w <= 2 ^ 31 -> span_ok (_view this) o w ->
  exists U,
    0 <= U < 2 ^ w /\
    (forall j, 0 <= j < w ->
       Z.testbit U j = bitAt (bigEndian this) (_view this)
                             (place (bigEndian this) o w j)) /\
    getBits this o w false = Ok U /\
    getBits this o w true = Ok (signed_of w U).
Proof.
  intros Hw Ho Hlen H31 Hok.
  destruct (getBits_loop_bits this o w ltac:(lia) Ho H31 Hok) as [HV HVint].
  destruct (decode_results _ w _ Hw HV HVint) as (U & HU & Hbits & Hu & Hs).
  exists U. split; [exact HU |]. split; [exact Hbits |].
  unfold getBits.
  destruct (Z.gtb_spec w (byteLength this * 8 - o)); [lia |].
  split; [f_equal; exact Hu |].
  destruct (negb (w =? 32) && _); f_equal; exact Hs.
Qed.

(** [setBits] followed by [getBits] on the same span, for any integer
    [v]: what is stored is the low [w] bits of [v]. *)
Lemma setBits_then_getBits (this : BitView) (o v w : Z) :
  1 <= w <= 32 -> 0 <= o -> o + w <= byteLength this * 8 ->
  o + w <= 2 ^ 31 ->
  exists this',
    setBits o v w this = (Ok tt, this') /\
    bigEndian this' = bigEndian this /\
    byteLength this' = byteLength this /\
    getBits this' o w false = Ok (v mod 2 ^ w) /\
    getBits this' o w true = Ok (signed_of w (v mod 2 ^ w)).
Proof.
  intros Hw Ho Hlen H31.
  pose proof (written_then_assembled this o v w Hw Ho Hlen H31) as HW.
  cbv zeta in HW. destruct HW as [HV HVint].
  pose proof (setBits_result o v w this) as HR.
  unfold setBits in *.
  destruct (Z.gtb_spec w (byteLength this * 8 - o)); [lia |].
  eexists. split; [reflexivity |]. split; [reflexivity |].
  split; [exact HR |].
  destruct (decode_results _ w _ Hw HV HVint) as (U & HU & Hbits & Hu & Hs).
  assert (E : U = v mod 2 ^ w).
  { apply Z.bits_inj'. intros j Hj. destruct (Z_lt_le_dec j w).
    - rewrite Z.mod_pow2_bits_low, Hbits by lia. reflexivity.
    - rewrite Z.mod_pow2_bits_high by lia. apply (testbit_above U w); lia. }
  unfold getBits. rewrite HR.
  destruct (Z.gtb_spec w (byteLength this * 8 - o)); [lia |].
  rewrite <- E. split; [f_equal; exact Hu |].
  destruct (negb (w =? 32) && _); f_equal; exact Hs.
Qed.

Lemma signed_of_range (w u : Z) :
  1 <= w -> 0 <= u < 2 ^ w ->
  - 2 ^ (w - 1) <= signed_of w u < 2 ^ (w - 1) /\
  signed_of w u mod 2 ^ w = u.
Proof.
  intros Hw Hu. pose proof (pow2_double w Hw) as Hd. unfold signed_of.
  destruct (Z.ltb_spec u (2 ^ (w - 1))).
  - split; [lia |]. apply Z.mod_small. lia.
  - split; [lia |].
    replace (u - 2 ^ w) with (u + (-1) * 2 ^ w) by lia.
    rewrite Z_mod_plus_full. apply Z.mod_small. lia.
Qed.

(** X1. On a buffer of bytes, [getBits] of a width in [1, 32] within the
    view and below bit [2 ^ 31] succeeds for both signs: the unsigned
    result lies in [0, 2 ^ w), and the signed result is the two's-complement
    reading of the same [w] bits, in [- 2 ^ (w - 1), 2 ^ (w - 1)). *)
Theorem getBits_signed_unsigned (this : BitView) (o w : Z) :
  bytes_ok (_view this) ->
  1 <= w <= 32 -> 0 <= o -> o + w <= byteLength this * 8 ->
  o + w <= 2 ^ 31 ->
  exists U,
    getBits this o w false = Ok U /\
    0 <= U < 2 ^ w /\
    getBits this o w true = Ok (signed_of w U) /\
    - 2 ^ (w - 1) <= signed_of w U < 2 ^ (w - 1) /\
    signed_of w U mod 2 ^ w = U.
Proof.
  intros Hok Hw Ho Hlen H31.
  destruct (getBits_results this o w Hw Ho Hlen H31
                            (bytes_ok_span _ o w Hok))
    as (U & HU & _ & Hu & Hs).
  exists U. split; [exact Hu |]. split; [exact HU |].
  split; [exact Hs |]. apply signed_of_range; lia.
Qed.

(** X2. [setBits] keeps the low [w] bits of any integer: reading the span
    back unsigned gives [v mod 2 ^ w], and reading it signed gives the
    signed reading of those bits, so a value written signed and one
    written unsigned with the same [w] bits are stored alike. *)
Theorem setBits_getBits_wrap (this : BitView) (o v w : Z) :
  1 <= w <= 32 -> 0 <= o -> o + w <= byteLength this * 8 ->
  o + w <= 2 ^ 31 ->
  exists this',
    setBits o v w this = (Ok tt, this') /\
    getBits this' o w false = Ok (v mod 2 ^ w) /\
    getBits this' o w true = Ok (signed_of w (v mod 2 ^ w)).
Proof.
  intros Hw Ho Hlen H31.
  destruct (setBits_then_getBits this o v w Hw Ho Hlen H31)
    as (this' & Hset & _ & _ & Hu & Hs).
  exists this'. auto.
Qed.

(** A byte at a byte boundary reads as itself in both modes. *)
Lemma getBits_aligned_byte (this : BitView) (k : Z) :
  0 <= k -> 8 * k + 8 <= byteLength this * 8 -> 8 * k + 8 <= 2 ^ 31 ->
  0 <= Uint8Array.read (_view this) k < 256 ->
  getBits this (8 * k) 8 false = Ok (Uint8Array.read (_view this) k).
Proof.
  intros Hk Hlen H31 Hb.
  assert (Hdiv : forall p, 8 * k <= p < 8 * k + 8 -> p / 8 = k).
  { intros p Hp. pose proof (Z.div_mod p 8 ltac:(lia)).
    pose proof (Z.mod_pos_bound p 8 ltac:(lia)). lia. }
  destruct (getBits_results this (8 * k) 8 ltac:(lia) ltac:(lia) Hlen H31)
    as (U & HU & Hbits & Hu & _).
  { intros p Hp. rewrite (Hdiv p Hp). exact Hb. }
  rewrite Hu. f_equal. apply Z.bits_inj'. intros j Hj.
  destruct (Z_lt_le_dec j 8).
  - rewrite Hbits by lia. unfold bitAt, place.
    destruct (bigEndian this).
    + rewrite (Hdiv (8 * k + 8 - 1 - j)) by lia. f_equal.
      pose proof (Z.div_mod (8 * k + 8 - 1 - j) 8 ltac:(lia)) as Hdm.
      rewrite (Hdiv (8 * k + 8 - 1 - j)) in Hdm by lia. lia.
    + rewrite (Hdiv (8 * k + j)) by lia. f_equal.
      pose proof (Z.div_mod (8 * k + j) 8 ltac:(lia)) as Hdm.
      rewrite (Hdiv (8 * k + j)) in Hdm by lia. lia.
  - change (2 ^ 8) with 256 in HU.
    rewrite (testbit_above U 8), (testbit_above _ 8)
      by (change (2 ^ 8) with 256; lia).
    reflexivity.
Qed.

(* ================================================================== *)
(** ** Copying bytes out *)
(* ================================================================== *)

Lemma getUint8_run (offset : Z) (this : BitView) :
  getUint8 offset this
  = (if 8 >? byteLength this * 8 - offset then Throw OutOfRange
     else Ok (getBits_loop 8 this 8 offset 0 0 :>>>: 0), this).
Proof.
  unfold getUint8, getBitsM, getBits.
  destruct (8 >? byteLength this * 8 - offset); reflexivity.
Qed.

(** The loop of [getArrayBuffer] succeeds when its last byte is within
    the view and throws otherwise; the view is as it was either way. *)
Lemma getArrayBuffer_loop_run (n : nat) :
  forall (offset i : Z) (buffer : Uint8Array.t) (this : BitView),
    snd (getArrayBuffer_loop n offset i buffer this) = this /\
    match fst (getArrayBuffer_loop n offset i buffer this) with
    | Ok b =>
      length b = length buffer /\
      (n = O \/ offset + (i + Z.of_nat n) * 8 <= byteLength this * 8)
    | Throw e =>
      e = OutOfRange /\ n <> O /\
      offset + (i + Z.of_nat n) * 8 > byteLength this * 8
    end.
Proof.
  induction n as [| n IH]; intros offset i buffer this.
  - cbn. auto.
  - cbn [getArrayBuffer_loop]. unfold bind. rewrite getUint8_run.
    destruct (Z.gtb_spec 8 (byteLength this * 8 - (offset + i * 8))).
    + cbn [fst snd]. repeat split; [discriminate | lia].
    + specialize (IH offset (i + 1) (Uint8Array.write buffer i
                    (getBits_loop 8 this 8 (offset + i * 8) 0 0 :>>>: 0))
                     this).
      destruct IH as [Hs Hr]. split; [exact Hs |].
      destruct (fst (getArrayBuffer_loop n offset (i + 1) _ this)).
      * rewrite write_length in Hr. destruct Hr as [Hl Hn].
        split; [exact Hl |]. right. destruct Hn as [-> | Hn]; lia.
      * destruct Hr as (He & Hn & Hgt).
        split; [exact He |]. split; [discriminate | lia].
Qed.

(** X3. [getArrayBuffer] never changes the view.  It returns an array of
    [byteLength] bytes when [byteLength] is 0 or the span of [byteLength]
    bytes from [offset] ends within the view, and throws the out-of-range
    error otherwise; a negative [byteLength] is the range error of the
    array allocation. *)
Theorem getArrayBuffer_bounds (offset count : Z) (this : BitView) :
  match getArrayBuffer offset count with
  | None => count < 0
  | Some m =>
    0 <= count /\
    snd (m this) = this /\
    match fst (m this) with
    | Ok b =>
      Z.of_nat (length b) = count /\
      (count = 0 \/ offset + count * 8 <= byteLength this * 8)
    | Throw e =>
      e = OutOfRange /\ 0 < count /\
      offset + count * 8 > byteLength this * 8
    end
  end.
Proof.
  unfold getArrayBuffer, getArrayBuffer_from.
  destruct (Z.ltb_spec count 0); [assumption |].
  split; [assumption |].
  destruct (getArrayBuffer_loop_run (Z.to_nat count) offset 0
              (repeat 0 (Z.to_nat count)) this) as [Hs Hr].
  split; [exact Hs |].
  destruct (fst (getArrayBuffer_loop _ offset 0 _ this)).
  - destruct Hr as [Hl Hn]. rewrite repeat_length in Hl.
    split; [lia |]. destruct Hn as [Hn | Hn]; [left | right]; lia.
  - destruct Hr as (He & Hn & Hgt). split; [exact He |]. split; lia.
Qed.

(** At a byte boundary the loop copies the bytes of the view. *)
Lemma getArrayBuffer_loop_aligned (n : nat) :
  forall (k i : Z) (buffer : Uint8Array.t) (this : BitView),
    bytes_ok (_view this) ->
    0 <= k -> 0 <= i ->
    i + Z.of_nat n <= Z.of_nat (length buffer) ->
    8 * (k + i + Z.of_nat n) <= byteLength this * 8 ->
    8 * (k + i + Z.of_nat n) <= 2 ^ 31 ->
    exists b,
      getArrayBuffer_loop n (8 * k) i buffer this = (Ok b, this) /\
      length b = length buffer /\
      (forall j, i <= j < i + Z.of_nat n ->
         Uint8Array.read b j = Uint8Array.read (_view this) (k + j)) /\
      (forall j, j < i -> Uint8Array.read b j = Uint8Array.read buffer j).
Proof.
  induction n as [| n IH]; intros k i buffer this Hok Hk Hi Hbuf Hlen H31.
  - exists buffer. cbn. repeat split; intros; lia.
  - cbn [getArrayBuffer_loop]. unfold bind.
    replace (8 * k + i * 8) with (8 * (k + i)) by lia.
    unfold getUint8, getBitsM.
    rewrite getBits_aligned_byte;
      try lia; [| apply bytes_ok_read; exact Hok].
    set (v := Uint8Array.read (_view this) (k + i)).
    destruct (IH k (i + 1) (Uint8Array.write buffer i v) this)
      as (b & -> & Hl & Hnew & Hold);
      try assumption; rewrite ?write_length; try lia.
    exists b. split; [reflexivity |]. rewrite write_length in Hl.
    split; [exact Hl |]. split.
    + intros j Hj. destruct (Z.eq_dec j i) as [-> | Hne].
      * rewrite Hold by lia. rewrite read_write_same by lia.
        unfold JS.ToUint8. apply Z.mod_small.
        change (2 ^ 8) with 256. apply bytes_ok_read, Hok.
      * apply Hnew. lia.
    + intros j Hj. rewrite Hold by lia. apply read_write_other. lia.
Qed.

(** X4. At a byte boundary, on a view of bytes, [getArrayBuffer] returns
    a copy of the [byteLength] bytes of the view from byte [k], in both
    modes. *)
Theorem getArrayBuffer_copies (k count : Z) (this : BitView) :
  bytes_ok (_view this) ->
  0 <= k -> 0 <= count ->
  8 * (k + count) <= byteLength this * 8 ->
  8 * (k + count) <= 2 ^ 31 ->
  exists b,
    getArrayBuffer (8 * k) count
    = Some (getArrayBuffer_from (8 * k) count) /\
    getArrayBuffer_from (8 * k) count this = (Ok b, this) /\
    b = firstn (Z.to_nat count) (skipn (Z.to_nat k) (_view this)).
Proof.
  intros Hok Hk Hn Hlen H31. unfold getArrayBuffer, getArrayBuffer_from.
  destruct (Z.ltb_spec count 0); [lia |].
  destruct (getArrayBuffer_loop_aligned (Z.to_nat count) k 0
              (repeat 0 (Z.to_nat count)) this)
    as (b & Hrun & Hl & Hnew & _);
    try assumption; rewrite ?repeat_length; try lia.
  exists b. split; [reflexivity |]. split; [exact Hrun |].
  rewrite repeat_length in Hl. unfold byteLength in Hlen.
  apply (nth_ext _ _ 0 0).
  - rewrite length_firstn, length_skipn. lia.
  - intros j Hj. rewrite Hl in Hj.
    specialize (Hnew (Z.of_nat j) ltac:(lia)).
    unfold Uint8Array.read in Hnew.
    destruct (Z.ltb_spec (Z.of_nat j) 0); [lia |].
    destruct (Z.ltb_spec (k + Z.of_nat j) 0); [lia |].
    rewrite Nat2Z.id in Hnew. rewrite Hnew.
    rewrite nth_firstn.
    destruct (Nat.ltb_spec j (Z.to_nat count)); [| lia].
    rewrite nth_skipn. f_equal. lia.
Qed.

(** The heap after a call that leaves the view as it was. *)
Lemma upd_id (h : heap) (l l' : ref) : upd h l (h l) l' = h l'.
Proof.
  unfold upd. destruct (Nat.eqb_spec l' l) as [-> |]; reflexivity.
Qed.

(** X5. [readArrayBuffer] is checked against the buffer alone, never
    against the window of the stream: it returns [byteLength] bytes and
    advances the index by [8 * byteLength] bits when [byteLength] is 0 or the
    bytes end within the buffer, and otherwise throws the out-of-range
    error with the index where it was.  No buffer changes. *)
Theorem readArrayBuffer_spec (count : Z) (s : BitStream) (h : heap) :
  match readArrayBuffer count with
  | None => count < 0
  | Some m =>
    0 <= count /\
    match m (s, h) with
    | (r, (s', h')) =>
      view s' = view s /\ _startIndex s' = _startIndex s /\
      _length s' = _length s /\
      (forall l, h' l = h l) /\
      match r with
      | Ok b =>
        Z.of_nat (length b) = count /\
        _index s' = _index s + count * 8 /\
        (count = 0 \/
         _index s + count * 8 <= byteLength (h (view s)) * 8)
      | Throw e =>
        e = OutOfRange /\ _index s' = _index s /\ 0 < count /\
        _index s + count * 8 > byteLength (h (view s)) * 8
      end
    end
  end.
Proof.
  unfold readArrayBuffer.
  destruct (Z.ltb_spec count 0) as [Hneg | Hpos]; [assumption |].
  split; [assumption |].
  destruct (getArrayBuffer_loop_run (Z.to_nat count) (_index s) 0
              (repeat 0 (Z.to_nat count)) (h (view s))) as [Hs Hr].
  fold (getArrayBuffer_from (_index s) count) in Hs, Hr.
  unfold bind, this_, on_view, set_index_, ret. cbn [fst snd].
  cbv zeta. cbn [fst snd].
  destruct (getArrayBuffer_from (_index s) count (h (view s)))
    as [[b | e] v'] eqn:E; cbn [fst snd] in *; subst v';
    cbn [with_index view _startIndex _length _index];
    (split; [reflexivity |]); (split; [reflexivity |]);
    (split; [reflexivity |]); (split; [intros l; apply upd_id |]).
  - destruct Hr as [Hl Hc]. rewrite repeat_length in Hl.
    split; [lia |]. split; [reflexivity |].
    destruct Hc as [Hc | Hc]; [left | right]; lia.
  - destruct Hr as (He & Hc & Hgt).
    split; [exact He |]. split; [reflexivity |]. split; lia.
Qed.

(* ================================================================== *)
(** ** Writing a value and reading it back through a stream *)
(* ================================================================== *)

Lemma signed_of_mod (w v : Z) :
  1 <= w -> - 2 ^ (w - 1) <= v < 2 ^ (w - 1) ->
  signed_of w (v mod 2 ^ w) = v.
Proof.
  intros Hw Hv. pose proof (pow2_double w Hw) as Hd. unfold signed_of.
  destruct (Z_lt_le_dec v 0).
  - replace (v mod 2 ^ w) with (v + 2 ^ w).
    + destruct (Z.ltb_spec (v + 2 ^ w) (2 ^ (w - 1))); lia.
    + symmetry. replace v with (v + 2 ^ w + (-1) * 2 ^ w) at 1 by lia.
      rewrite Z_mod_plus_full. apply Z.mod_small. lia.
  - rewrite Z.mod_small by lia.
    destruct (Z.ltb_spec v (2 ^ (w - 1))); lia.
Qed.

(** A writer, then the index set back, then the reader of the same
    place. *)
Lemma writer_then_reader {T U} (set : Z -> T -> M BitView unit)
      (get : Z -> M BitView U) (size : Z) (value : T) (back : U)
      (s : BitStream) (h : heap) (this' : BitView) :
  set (_index s) value (h (view s)) = (Ok tt, this') ->
  get (_index s) this' = (Ok back, this') ->
  _index s + size <= _length s ->
  exists s1 h1 h2,
    writer set size value (s, h) = (Ok tt, (s1, h1)) /\
    index s1 = index s + size /\
    reader get size (set_index s1 (index s), h1) = (Ok back, (s1, h2)) /\
    (forall l, h2 l = h1 l).
Proof.
  intros Hset Hget Hwin.
  exists (with_index s (_index s + size)), (upd h (view s) this'),
    (upd (upd h (view s) this') (view s) this').
  unfold writer, reader, bind, this_, throw, on_view, set_index_, ret,
    set_index, index.
  cbn [fst snd]. cbv zeta. cbn [fst snd]. rewrite Hset.
  cbn [fst snd with_index view _startIndex _length _index].
  replace (_index s - _startIndex s + _startIndex s) with (_index s) by lia.
  destruct (Z.gtb_spec (_index s + size) (_length s)); [lia |].
  cbv zeta. cbn [fst snd with_index view _startIndex _length _index].
  rewrite upd_same, Hget.
  split; [reflexivity |]. split; [lia |]. split; [reflexivity |].
  intros l. unfold upd. destruct (Nat.eqb l (view s)); reflexivity.
Qed.

(** X6. A boolean or an integer of the range of its type, written by the
    typed writer with room for it in the window and in the buffer (below
    bit [2 ^ 31]), is returned by the typed reader of the same type once
    the index is set back to where it was, in both modes. *)
Theorem typed_write_then_read (p : prim) (value : value_of p)
        (s : BitStream) (h : heap) :
  prim_fits p value ->
  0 <= _index s ->
  _index s + width p <= _length s ->
  _index s + width p <= byteLength (h (view s)) * 8 ->
  _index s + width p <= 2 ^ 31 ->
  exists s1 h1 h2,
    write_prim p value (s, h) = (Ok tt, (s1, h1)) /\
    index s1 = index s + width p /\
    read_prim p (set_index s1 (index s), h1) = (Ok value, (s1, h2)) /\
    (forall l, h2 l = h1 l).
Proof.
  intros Hfit Hi Hwin Hbuf H31.
  destruct p; cbn [prim_fits width value_of write_prim read_prim] in *;
    try contradiction.
  - (* Boolean *)
    destruct (setBits_then_getBits (h (view s)) (_index s)
                (if value then 1 else 0) 1)
      as (this' & Hset & _ & _ & Hu & _); try lia.
    apply (writer_then_reader setBoolean getBoolean 1 value value s h this');
      [exact Hset | | exact Hwin].
    unfold getBoolean, bind, getBitsM, ret. rewrite Hu.
    destruct value; reflexivity.
  - destruct (setBits_then_getBits (h (view s)) (_index s) value 8)
      as (this' & Hset & _ & _ & _ & Hg); try lia.
    apply (writer_then_reader setInt8 getInt8 8 value value s h this');
      [exact Hset | | exact Hwin].
    unfold getInt8, getBitsM. rewrite Hg, signed_of_mod by lia. reflexivity.
  - destruct (setBits_then_getBits (h (view s)) (_index s) value 16)
      as (this' & Hset & _ & _ & _ & Hg); try lia.
    apply (writer_then_reader setInt16 getInt16 16 value value s h this');
      [exact Hset | | exact Hwin].
    unfold getInt16, getBitsM. rewrite Hg, signed_of_mod by lia. reflexivity.
  - destruct (setBits_then_getBits (h (view s)) (_index s) value 32)
      as (this' & Hset & _ & _ & _ & Hg); try lia.
    apply (writer_then_reader setInt32 getInt32 32 value value s h this');
      [exact Hset | | exact Hwin].
    unfold getInt32, getBitsM. rewrite Hg, signed_of_mod by lia. reflexivity.
  - destruct (setBits_then_getBits (h (view s)) (_index s) value 8)
      as (this' & Hset & _ & _ & Hg & _); try lia.
    apply (writer_then_reader setUint8 getUint8 8 value value s h this');
      [exact Hset | | exact Hwin].
    unfold getUint8, getBitsM. rewrite Hg, Z.mod_small by lia. reflexivity.
  - destruct (setBits_then_getBits (h (view s)) (_index s) value 16)
      as (this' & Hset & _ & _ & Hg & _); try lia.
    apply (writer_then_reader setUint16 getUint16 16 value value s h this');
      [exact Hset | | exact Hwin].
    unfold getUint16, getBitsM. rewrite Hg, Z.mod_small by lia. reflexivity.
  - destruct (setBits_then_getBits (h (view s)) (_index s) value 32)
      as (this' & Hset & _ & _ & Hg & _); try lia.
    apply (writer_then_reader setUint32 getUint32 32 value value s h this');
      [exact Hset | | exact Hwin].
    unfold getUint32, getBitsM. rewrite Hg, Z.mod_small by lia. reflexivity.
Qed.

(* ================================================================== *)
(** ** Writing strings with a byte count, and the UTF-8 bytes *)
(* ================================================================== *)

Lemma skipn_nth_cons (l : list Z) (i : nat) :
  (i < length l)%nat -> skipn i l = nth i l 0 :: skipn (S i) l.
Proof.
  revert i. induction l as [| x l IH]; intros [| i] H; cbn in *;
    try lia; [reflexivity |].
  apply IH. lia.
Qed.

(** The writing loop of the string writers, from byte [i] of the string
    for [m] bytes: the rest of the string, cut or padded with zeros. *)
Lemma for_loop_fit (string : list Z) (m : nat) :
  forall (i k : nat) (st : St),
    (m <= k)%nat ->
    for_loop m (Z.of_nat i)
      (fun i =>
         writeUint8 (if i <? Z.of_nat (length string)
                     then charCodeAt string i else 0)) st
    = write_bytes (firstn m (skipn i string ++ repeat 0 k)) st.
Proof.
  induction m as [| m IH]; intros i k st Hk; [reflexivity |].
  destruct k as [| k]; [lia |].
  cbn [for_loop].
  destruct (Z.ltb_spec (Z.of_nat i) (Z.of_nat (length string))) as [Hlt | Hge].
  - rewrite (skipn_nth_cons string i) by lia.
    cbn [app firstn write_bytes]. unfold bind.
    unfold charCodeAt. rewrite Nat2Z.id.
    destruct (writeUint8 (nth i string 0) st) as [[[] | e] st1];
      [| reflexivity].
    replace (Z.of_nat i + 1) with (Z.of_nat (S i)) by lia.
    apply IH. lia.
  - rewrite (skipn_all2 string (n := i)) by lia.
    cbn [app repeat firstn write_bytes]. unfold bind.
    destruct (writeUint8 0 st) as [[[] | e] st1]; [| reflexivity].
    replace (Z.of_nat i + 1) with (Z.of_nat (S i)) by lia.
    rewrite (IH (S i) k st1) by lia.
    rewrite (skipn_all2 string (n := S i)) by lia. reflexivity.
Qed.

Lemma fit_length (n : nat) (l : list Z) : length (fit n l) = n.
Proof.
  unfold fit. rewrite length_firstn, length_app, repeat_length. lia.
Qed.


Lemma all_from_spec (P : Z -> bool) (n : nat) :
  forall u x,
    all_from n u P = true -> u <= x < u + Z.of_nat n -> P x = true.
Proof.
  induction n as [| n IH]; intros u x H Hx; [lia |].
  cbn [all_from] in H. apply andb_prop in H as [H0 H1].
  destruct (Z.eq_dec x u) as [-> | Hne]; [exact H0 |].
  apply (IH (u + 1)); [exact H1 | lia].
Qed.

Lemma sar_small (u n : Z) :
  0 <= u < 2 ^ 31 -> 0 <= n < 32 -> u :>>: n = u / 2 ^ n.
Proof.
  intros Hu Hn. unfold JS.sar.
  rewrite ToInt32_id by lia. rewrite Z.mod_small by lia.
  apply Z.shiftr_div_pow2. lia.
Qed.

Lemma band_63 (x : Z) : 0 <= x < 2 ^ 31 -> x :&: 0x3f = x mod 64.
Proof.
  intros Hx. unfold JS.band.
  rewrite (ToInt32_id x) by lia.
  rewrite (ToInt32_id 0x3f) by (pow_consts; lia).
  change 0x3f with (Z.ones 6). rewrite Z.land_ones by lia. reflexivity.
Qed.

(** The marker bits of UTF-8 lie above the payload they are or-ed to:
    checked on each payload. *)
Lemma bor_marker (a : Z) :
  0 <= a < 64 ->
  a :|: 0x80 = a + 0x80 /\
  (a < 32 -> a :|: 0xc0 = a + 0xc0) /\
  (a < 16 -> a :|: 0xe0 = a + 0xe0).
Proof.
  intros Ha.
  assert (H : all_from 64 0
                (fun a => ((a :|: 0x80) =? a + 0x80)
                          && ((32 <=? a) || ((a :|: 0xc0) =? a + 0xc0))
                          && ((16 <=? a) || ((a :|: 0xe0) =? a + 0xe0)))
              = true) by (vm_compute; reflexivity).
  pose proof (all_from_spec _ 64 0 a H ltac:(lia)) as Hp.
  cbv beta in Hp.
  apply andb_prop in Hp as [Hp H3]. apply andb_prop in Hp as [H1 H2].
  apply Z.eqb_eq in H1. split; [exact H1 |]. split; intros Hlt.
  - apply orb_prop in H2 as [H2 | H2];
      [apply Z.leb_le in H2; lia | apply Z.eqb_eq in H2; exact H2].
  - apply orb_prop in H3 as [H3 | H3];
      [apply Z.leb_le in H3; lia | apply Z.eqb_eq in H3; exact H3].
Qed.

Ltac bool_arith :=
  repeat (apply andb_true_intro; split);
  first [reflexivity
        | apply Z.leb_le; lia
        | apply Z.ltb_lt; lia
        | apply Z.eqb_eq; lia].

(** The bytes of one code unit, by its range. *)
Lemma encode_unit_form (u : Z) :
  0 <= u < 65536 ->
  (u <= 0x7f /\ encode_unit u = [u]) \/
  (0x7f < u <= 0x7ff /\
   encode_unit u = [u / 64 + 0xc0; u mod 64 + 0x80]) \/
  (0x7ff < u /\
   encode_unit u
   = [u / 64 / 64 + 0xe0; (u / 64) mod 64 + 0x80; u mod 64 + 0x80]).
Proof.
  intros Hu. unfold encode_unit, stringToByteArray.
  cbn [flat_map]. rewrite app_nil_r.
  pose proof (Z.div_mod u 64 ltac:(lia)) as Hd1.
  pose proof (Z.mod_pos_bound u 64 ltac:(lia)) as Hm1.
  pose proof (Z.div_mod (u / 64) 64 ltac:(lia)) as Hd2.
  pose proof (Z.mod_pos_bound (u / 64) 64 ltac:(lia)) as Hm2.
  assert (H6 : u :>>: 6 = u / 64)
    by (rewrite sar_small by (pow_consts; lia); reflexivity).
  assert (H12 : u :>>: 12 = u / 64 / 64).
  { rewrite sar_small by (pow_consts; lia).
    rewrite Z.div_div by lia. reflexivity. }
  assert (Hlow : u :&: 0x3f = u mod 64)
    by (apply band_63; pow_consts; lia).
  assert (Hmid : (u / 64) :&: 0x3f = (u / 64) mod 64)
    by (apply band_63; pow_consts; lia).
  destruct (Z.leb_spec u 0x7f) as [H1 | H1].
  - left. split; [exact H1 | reflexivity].
  - destruct (Z.leb_spec u 0x7ff) as [H2 | H2].
    + right. left. split; [lia |].
      rewrite H6, Hlow.
      destruct (bor_marker (u / 64) ltac:(lia)) as (_ & -> & _); [| lia].
      destruct (bor_marker (u mod 64) ltac:(lia)) as (-> & _).
      reflexivity.
    + right. right. split; [exact H2 |].
      destruct (Z.leb_spec u 0xffff) as [H3 | H3]; [| lia].
      rewrite H12, H6, Hmid, Hlow.
      destruct (bor_marker (u / 64 / 64) ltac:(lia)) as (_ & _ & ->);
        [| lia].
      destruct (bor_marker ((u / 64) mod 64) ltac:(lia)) as (-> & _).
      destruct (bor_marker (u mod 64) ltac:(lia)) as (-> & _).
      reflexivity.
Qed.

Lemma stringToByteArray_cons (u : Z) (str : list Z) :
  stringToByteArray (u :: str) = encode_unit u ++ stringToByteArray str.
Proof.
  unfold encode_unit, stringToByteArray. cbn [flat_map].
  rewrite app_nil_r. reflexivity.
Qed.

Lemma encode_unit_shape (u : Z) :
  0 <= u < 65536 ->
  Forall (fun x => 0 <= x < 256) (encode_unit u) /\
  (1 <= length (encode_unit u) <= 3)%nat.
Proof.
  intros Hu.
  pose proof (Z.div_mod u 64 ltac:(lia)) as Hd1.
  pose proof (Z.mod_pos_bound u 64 ltac:(lia)) as Hm1.
  pose proof (Z.div_mod (u / 64) 64 ltac:(lia)) as Hd2.
  pose proof (Z.mod_pos_bound (u / 64) 64 ltac:(lia)) as Hm2.
  destruct (encode_unit_form u Hu) as [[H1 ->] | [[H2 ->] | [H3 ->]]];
    (split; [repeat constructor; lia | cbn [length]; lia]).
Qed.

Ltac decide_bytes :=
  unfold continuation;
  repeat match goal with
         | |- context [?a <=? ?b] => destruct (Z.leb_spec a b); try lia
         | |- context [?a <? ?b] => destruct (Z.ltb_spec a b); try lia
         | |- context [?a =? ?b] => destruct (Z.eqb_spec a b); try lia
         end;
  cbn [andb orb negb].

(** The bytes of a code unit that is no surrogate decode to it alone,
    and the bytes after them are decoded after it. *)
Lemma encode_unit_decodes (u : Z) (fuel : nat) (rest : list Z) :
  0 <= u < 65536 -> ~ surrogate u ->
  utf8_units (S fuel) (encode_unit u ++ rest)
  = option_map (cons u) (utf8_units fuel rest).
Proof.
  intros Hu Hs. unfold surrogate in Hs.
  pose proof (Z.div_mod u 64 ltac:(lia)) as Hd1.
  pose proof (Z.mod_pos_bound u 64 ltac:(lia)) as Hm1.
  pose proof (Z.div_mod (u / 64) 64 ltac:(lia)) as Hd2.
  pose proof (Z.mod_pos_bound (u / 64) 64 ltac:(lia)) as Hm2.
  destruct (encode_unit_form u Hu) as [[H1 ->] | [[H2 ->] | [H3 ->]]];
    cbn [app utf8_units]; decide_bytes;
    try reflexivity; f_equal; f_equal; lia.
Qed.

(** The bytes of a surrogate are refused. *)
Lemma encode_unit_surrogate (u : Z) (fuel : nat) (rest : list Z) :
  surrogate u -> utf8_units (S fuel) (encode_unit u ++ rest) = None.
Proof.
  intros Hs. unfold surrogate in Hs.
  pose proof (Z.div_mod u 64 ltac:(lia)) as Hd1.
  pose proof (Z.mod_pos_bound u 64 ltac:(lia)) as Hm1.
  pose proof (Z.div_mod (u / 64) 64 ltac:(lia)) as Hd2.
  pose proof (Z.mod_pos_bound (u / 64) 64 ltac:(lia)) as Hm2.
  destruct (encode_unit_form u ltac:(lia)) as [[H1 _] | [[H2 _] | [H3 ->]]];
    try lia.
  cbn [app utf8_units]. decide_bytes; reflexivity.
Qed.

(** X8. [stringToByteArray] encodes each code unit of a string (a
    number below [0x10000], as [charCodeAt] gives) on its own, in one
    to three bytes.  The bytes are well-formed UTF-8 that decodes to the
    string itself when the string holds no surrogate code unit; when it
    holds one (half of a character from U+10000 on), its three bytes,
    [0xed] and a byte from [0xa0] on, are what UTF-8 forbids, and the
    output does not decode. *)
Theorem stringToByteArray_decodes (str : list Z) :
  Forall (fun u => 0 <= u < 65536) str ->
  Forall (fun x => 0 <= x < 256) (stringToByteArray str) /\
  (length str <= length (stringToByteArray str) <= 3 * length str)%nat /\
  (Forall (fun u => ~ surrogate u) str ->
   utf8_units (length (stringToByteArray str)) (stringToByteArray str)
   = Some str) /\
  (Exists surrogate str ->
   utf8_units (length (stringToByteArray str)) (stringToByteArray str)
   = None).
Proof.
  intros Hstr.
  assert (H : Forall (fun x => 0 <= x < 256) (stringToByteArray str) /\
              (length str <= length (stringToByteArray str)
               <= 3 * length str)%nat /\
              (Forall (fun u => ~ surrogate u) str ->
               forall fuel, (length str <= fuel)%nat ->
                 utf8_units fuel (stringToByteArray str) = Some str) /\
              (Exists surrogate str ->
               forall fuel, (length str <= fuel)%nat ->
                 utf8_units fuel (stringToByteArray str) = None)).
  { induction Hstr as [| u str Hu Hstr IH].
    - split; [apply Forall_nil |]. split; [cbn; lia |]. split.
      + intros _ [| fuel] _; reflexivity.
      + intros Hex. inversion Hex.
    - destruct IH as (IHb & IHl & IHd & IHs).
      destruct (encode_unit_shape u Hu) as (Hb & Hl).
      rewrite stringToByteArray_cons. split; [| split; [| split]].
      + apply Forall_app. split; assumption.
      + rewrite length_app. cbn [length]. lia.
      + intros Hns [| fuel] Hf; cbn [length] in Hf; [lia |].
        inversion Hns as [| ? ? Hnu Hnstr]; subst.
        rewrite encode_unit_decodes by assumption.
        rewrite IHd by (assumption || lia). reflexivity.
      + intros Hex [| fuel] Hf; cbn [length] in Hf; [lia |].
        destruct (Z_le_dec 0xd800 u) as [Hlo | Hlo];
          [destruct (Z_le_dec u 0xdfff) as [Hhi | Hhi] |].
        * apply encode_unit_surrogate. split; assumption.
        * rewrite encode_unit_decodes
            by (assumption || (unfold surrogate; lia)).
          rewrite IHs; [reflexivity | | lia].
          inversion Hex as [? ? Hsu | ? ? Hsstr]; subst;
            [unfold surrogate in Hsu; lia | exact Hsstr].
        * rewrite encode_unit_decodes
            by (assumption || (unfold surrogate; lia)).
          rewrite IHs; [reflexivity | | lia].
          inversion Hex as [? ? Hsu | ? ? Hsstr]; subst;
            [unfold surrogate in Hsu; lia | exact Hsstr]. }
  destruct H as (Hb & Hl & Hd & Hs).
  split; [exact Hb |]. split; [exact Hl |]. split.
  - intros Hns. apply Hd; [exact Hns | lia].
  - intros Hex. apply Hs; [exact Hex | lia].
Qed.

(** X9. A string of code units up to [0x7f] is its own byte array, so
    the UTF-8 writer writes it as the ASCII writer does, with any byte
    count. *)
Theorem stringToByteArray_ascii (str : list Z) :
  Forall (fun u => u <= 127) str ->
  stringToByteArray str = str /\
  forall (bytes : option Z) (st : St),
    writeUTF8String str bytes st = writeASCIIString str bytes st.
Proof.
  intros Hstr.
  assert (E : stringToByteArray str = str).
  { induction Hstr as [| u str Hu Hstr IH]; [reflexivity |].
    rewrite stringToByteArray_cons, IH. unfold encode_unit, stringToByteArray.
    cbn [flat_map]. destruct (Z.leb_spec u 127); [reflexivity | lia]. }
  split; [exact E |]. intros bytes st.
  unfold writeUTF8String, writeASCIIString. cbv zeta. rewrite E.
  reflexivity.
Qed.

(* ================================================================== *)
(** ** Bytes written and read through a stream *)
(* ================================================================== *)

Lemma changed_within_refl (lo hi : Z) (v : BitView) :
  changed_within lo hi v v.
Proof. split; [apply view_frame_refl |]. intros B HB. exact HB. Qed.

Lemma changed_within_trans (lo hi lo1 hi1 lo2 hi2 : Z)
      (v1 v2 v3 : BitView) :
  lo <= lo1 -> hi1 <= hi -> lo <= lo2 -> hi2 <= hi ->
  changed_within lo1 hi1 v1 v2 -> changed_within lo2 hi2 v2 v3 ->
  changed_within lo hi v1 v3.
Proof.
  intros H1 H2 H3 H4 [F1 K1] [F2 K2]. split.
  - apply view_frame_trans with (v2 := v2).
    + apply (view_frame_weaken lo1 hi1); assumption.
    + apply (view_frame_weaken lo2 hi2); assumption.
  - intros B HB. apply K2, K1, HB.
Qed.

(** What [setBits] leaves of the view, and what it stores. *)
Lemma setBits_effect (this : BitView) (o v w : Z) :
  1 <= w <= 32 -> 0 <= o -> o + w <= byteLength this * 8 ->
  o + w <= 2 ^ 31 ->
  exists this',
    setBits o v w this = (Ok tt, this') /\
    changed_within o (o + w) this this' /\
    span_ok (_view this') o w /\
    (forall j, 0 <= j < w ->
       bitAt (bigEndian this) (_view this') (place (bigEndian this) o w j)
       = Z.testbit v j) /\
    getBits this' o w false = Ok (v mod 2 ^ w).
Proof.
  intros Hw Ho Hlen H31.
  destruct (setBits_then_getBits this o v w Hw Ho Hlen H31)
    as (this' & Hset & Hmode & _ & Hu & _).
  exists this'. split; [exact Hset |].
  pose proof (setBits_frame o v w this Ho ltac:(lia)) as HF.
  rewrite Hset in HF. destruct HF as (_ & _ & HF). specialize (HF H31).
  unfold setBits in Hset.
  destruct (Z.gtb_spec w (byteLength this * 8 - o)); [lia |].
  injection Hset as <-.
  unfold byteLength in Hlen. unfold changed_within, span_ok, place.
  cbn [with_view _view bigEndian] in *.
  destruct (bigEndian this).
  - destruct (setBits_loop_BE (Z.to_nat w) (_view this) w o v 0)
      as (L & B & _ & P & R); try lia.
    replace (w - 0) with w in * by lia.
    split; [split; [exact HF | exact P] |].
    split; [exact R |]. split; [| exact Hu].
    intros j Hj. rewrite B by lia.
    destruct (Z.leb_spec o (o + w - 1 - j)),
      (Z.ltb_spec (o + w - 1 - j) (o + w)); cbn [andb]; try lia.
    rewrite ToInt32_bit_low by lia. f_equal. lia.
  - destruct (setBits_loop_LE (Z.to_nat w) (_view this) w o v 0)
      as (L & B & _ & P & R); try lia.
    replace (w - 0) with w in * by lia.
    split; [split; [exact HF | exact P] |].
    split; [exact R |]. split; [| exact Hu].
    intros j Hj. rewrite B by lia.
    destruct (Z.leb_spec o (o + j)), (Z.ltb_spec (o + j) (o + w));
      cbn [andb]; try lia.
    rewrite ToInt32_bit_low by lia. f_equal. lia.
Qed.

(** A read outside the changed bits returns what it returned before. *)
Lemma getBits_stable (lo hi : Z) (v v' : BitView) (o w : Z)
      (signed : bool) :
  changed_within lo hi v v' -> o + w <= lo \/ hi <= o ->
  1 <= w <= 32 -> 0 <= o -> o + w <= byteLength v * 8 ->
  o + w <= 2 ^ 31 -> span_ok (_view v) o w ->
  getBits v' o w signed = getBits v o w signed.
Proof.
  intros [(L & M & _ & B) P] Hout Hw Ho Hlen H31 Hok.
  assert (Hlen' : byteLength v' = byteLength v)
    by (unfold byteLength; congruence).
  assert (Hok' : span_ok (_view v') o w)
    by (intros p Hp; apply P, Hok, Hp).
  destruct (getBits_results v o w Hw Ho Hlen H31 Hok)
    as (U & HU & Hbits & Hu & Hs).
  destruct (getBits_results v' o w Hw Ho ltac:(lia) H31 Hok')
    as (U' & HU' & Hbits' & Hu' & Hs').
  assert (E : U' = U).
  { apply Z.bits_inj'. intros j Hj. destruct (Z_lt_le_dec j w).
    - rewrite Hbits, Hbits' by lia. rewrite M. apply B;
        unfold place; destruct (bigEndian v); lia.
    - rewrite (testbit_above U w), (testbit_above U' w) by lia.
      reflexivity. }
  destruct signed; congruence.
Qed.

Lemma writeUint8_run (value : Z) (s : BitStream) (h : heap) :
  writeUint8 value (s, h)
  = match setBits (_index s) value 8 (h (view s)) with
    | (Ok _, v') => (Ok tt, (with_index s (_index s + 8), upd h (view s) v'))
    | (Throw e, v') => (Throw e, (s, upd h (view s) v'))
    end.
Proof.
  unfold writeUint8, writer, bind, this_, on_view, set_index_, setUint8,
    setInt8.
  cbn [fst snd]. cbv zeta. cbn [fst snd].
  destruct (setBits (_index s) value 8 (h (view s))) as [[[] | e] v'];
    reflexivity.
Qed.

Lemma readUint8_run (s : BitStream) (h : heap) :
  readUint8 (s, h)
  = if _index s + 8 >? _length s then (Throw EndOfStream, (s, h))
    else
      match getBits (h (view s)) (_index s) 8 false with
      | Ok c => (Ok c, (with_index s (_index s + 8),
                        upd h (view s) (h (view s))))
      | Throw e => (Throw e, (s, upd h (view s) (h (view s))))
      end.
Proof.
  unfold readUint8, reader, bind, this_, throw, on_view, set_index_, ret,
    getUint8, getBitsM.
  cbn [fst snd]. destruct (_index s + 8 >? _length s); [reflexivity |].
  cbv zeta. cbn [fst snd].
  destruct (getBits (h (view s)) (_index s) 8 false); reflexivity.
Qed.

Lemma with_index_same (s : BitStream) (i : Z) :
  i = _index s -> with_index s i = s.
Proof. intros ->. destruct s. reflexivity. Qed.

Lemma with_index_twice (s : BitStream) (i j : Z) :
  with_index (with_index s i) j = with_index s j.
Proof. reflexivity. Qed.

(** The bytes a sequence of [writeUint8] leaves in the view: each byte
    modulo 256, at its place after the index, whatever the alignment. *)
Lemma write_bytes_holds (l : list Z) :
  forall (s : BitStream) (h : heap),
    0 <= _index s ->
    _index s + 8 * Z.of_nat (length l) <= byteLength (h (view s)) * 8 ->
    _index s + 8 * Z.of_nat (length l) <= 2 ^ 31 ->
    exists h',
      write_bytes l (s, h)
      = (Ok tt, (with_index s (_index s + 8 * Z.of_nat (length l)), h')) /\
      changed_within (_index s) (_index s + 8 * Z.of_nat (length l))
                     (h (view s)) (h' (view s)) /\
      holds_bytes (h' (view s)) (_index s) (map (fun c => c mod 256) l) /\
      (forall l0, l0 <> view s -> h' l0 = h l0).
Proof.
  induction l as [| c l IH]; intros s h Hi Hbuf H31.
  - exists h. cbn [write_bytes length map]. unfold ret.
    rewrite with_index_same by lia.
    split; [reflexivity |].
    split; [apply changed_within_refl |].
    split; [intros j Hj; cbn in Hj; lia | reflexivity].
  - cbn [length] in Hbuf, H31. cbn [write_bytes]. unfold bind.
    rewrite writeUint8_run.
    destruct (setBits_effect (h (view s)) (_index s) c 8)
      as (v1 & -> & Hst & Hok & _ & Hget); try lia.
    set (s1 := with_index s (_index s + 8)).
    set (h1 := upd h (view s) v1).
    assert (Hv1 : h1 (view s1) = v1) by (apply upd_same).
    assert (Hlen1 : byteLength v1 = byteLength (h (view s))).
    { unfold byteLength. f_equal. apply Hst. }
    destruct (IH s1 h1) as (h' & Hrun & Hst' & Hholds & Hother).
    { subst s1. cbn [with_index _index]. lia. }
    { rewrite Hv1, Hlen1. subst s1. cbn [with_index _index]. lia. }
    { subst s1. cbn [with_index _index]. lia. }
    rewrite Hv1 in Hst'.
    change (view s1) with (view s) in Hst', Hholds, Hother.
    change (_index s1) with (_index s + 8) in Hrun, Hst', Hholds.
    exists h'. split; [| split; [| split]].
    + rewrite Hrun. unfold with_index.
      cbn [view _startIndex _length length]. do 3 f_equal. lia.
    + eapply changed_within_trans; [| | | | exact Hst | exact Hst'];
        cbn [length]; lia.
    + intros [| j] Hj; cbn [map length nth] in *.
      * replace (_index s + 8 * Z.of_nat 0) with (_index s) by lia.
        rewrite (getBits_stable _ _ v1 _ _ _ _ Hst'); try lia;
          assumption.
      * replace (_index s + 8 * Z.of_nat (S j))
          with (_index s + 8 + 8 * Z.of_nat j) by lia.
        apply Hholds. lia.
    + intros l0 Hl0. rewrite Hother by exact Hl0.
      subst h1. apply upd_other. exact Hl0.
Qed.

Lemma consumed_cons (fixedLength : bool) (b : Z) (bs : list Z) :
  consumed fixedLength (b :: bs)
  = if (b =? 0) && negb fixedLength then 1%nat
    else S (consumed fixedLength bs).
Proof.
  unfold consumed. destruct fixedLength; cbn [negb length until_zero].
  - rewrite andb_false_r. reflexivity.
  - rewrite andb_true_r. destruct (b =? 0); cbn [length]; lia.
Qed.

(** The reading loop of [readString] over the bytes [bs] ahead: it
    stops at a zero byte when there is no byte count, and at the bound
    otherwise. *)
Lemma readString_loop_holds (N : Z) (fixedLength : bool) (fuel : nat) :
  forall (bs : list Z) (i : Z) (chars : list Z) (append : bool)
         (s : BitStream) (h : heap),
    (length bs <= fuel)%nat ->
    Z.of_nat (length bs) <= N - i ->
    (fixedLength = false /\ In 0 bs) \/ Z.of_nat (length bs) = N - i ->
    holds_bytes (h (view s)) (_index s) bs ->
    _index s + 8 * Z.of_nat (consumed fixedLength bs) <= _length s ->
    exists h',
      readString_loop fuel (JS.Num N) fixedLength i chars append (s, h)
      = (Ok (chars ++ if append then until_zero bs else []),
         (with_index s (_index s
                        + 8 * Z.of_nat (consumed fixedLength bs)), h')) /\
      (forall l, h' l = h l).
Proof.
  assert (E0 : consumed fixedLength [] = 0%nat)
    by (destruct fixedLength; reflexivity).
  induction fuel as [| fuel IH];
    intros bs i chars append s h Hle HN Hstop Hholds Hwin.
  - destruct bs as [| b bs]; [| cbn [length] in Hle; lia].
    exists h. cbn [readString_loop]. unfold ret.
    rewrite E0, with_index_same by lia.
    destruct append; rewrite app_nil_r; split; reflexivity.
  - cbn [readString_loop JS.lt].
    destruct bs as [| b bs].
    { destruct Hstop as [[_ []] | Hstop]. cbn [length] in Hstop.
      destruct (Z.ltb_spec i N); [lia |].
      exists h. unfold ret. rewrite E0, with_index_same by lia.
      destruct append; rewrite app_nil_r; split; reflexivity. }
    cbn [length] in Hle, HN.
    destruct (Z.ltb_spec i N); [| lia].
    rewrite consumed_cons in *.
    assert (Hb : getBits (h (view s)) (_index s) 8 false = Ok b).
    { specialize (Hholds 0%nat ltac:(cbn [length]; lia)).
      cbn [nth] in Hholds.
      replace (_index s + 8 * Z.of_nat 0) with (_index s) in Hholds by lia.
      exact Hholds. }
    unfold bind. rewrite readUint8_run.
    destruct (Z.gtb_spec (_index s + 8) (_length s)) as [Hgt | _].
    { destruct ((b =? 0) && negb fixedLength); lia. }
    rewrite Hb.
    set (s1 := with_index s (_index s + 8)).
    set (h1 := upd h (view s) (h (view s))).
    assert (Hh1 : forall l, h1 l = h l) by (intros l; apply upd_id).
    destruct ((b =? 0) && negb fixedLength) eqn:Estop.
    + exists h1. unfold ret.
      apply andb_true_iff in Estop. destruct Estop as [Eb _].
      cbn [until_zero]. rewrite Eb.
      replace (_index s + 8 * Z.of_nat 1) with (_index s + 8) by lia.
      split; [| exact Hh1].
      destruct append; rewrite app_nil_r; reflexivity.
    + destruct (IH bs (i + 1)
                   (if (if b =? 0 then false else append)
                    then chars ++ [b] else chars)
                   (if b =? 0 then false else append) s1 h1)
        as (h' & Hrun & Hh').
      * lia.
      * lia.
      * destruct Hstop as [[Hfix Hin] | Hstop];
          [| right; cbn [length] in Hstop; lia].
        subst fixedLength. cbn [negb] in Estop.
        rewrite andb_true_r in Estop.
        destruct (Z.eqb_spec b 0); [discriminate |].
        destruct Hin as [Hin | Hin]; [congruence |].
        left. split; [reflexivity | exact Hin].
      * rewrite Hh1. intros j Hj.
        change (_index s1) with (_index s + 8).
        replace (_index s + 8 + 8 * Z.of_nat j)
          with (_index s + 8 * Z.of_nat (S j)) by lia.
        apply (Hholds (S j)). cbn [length]. lia.
      * change (_index s1) with (_index s + 8).
        change (_length s1) with (_length s). lia.
      * exists h'. rewrite Hrun. split.
        -- subst s1. rewrite with_index_twice. cbn [with_index _index].
           cbn [until_zero].
           replace (_index s + 8
                    + 8 * Z.of_nat (consumed fixedLength bs))
             with (_index s
                   + 8 * Z.of_nat (S (consumed fixedLength bs))) by lia.
           destruct (b =? 0), append; rewrite <- ?app_assoc;
             rewrite ?app_nil_r; reflexivity.
        -- intros l. rewrite Hh', Hh1. reflexivity.
Qed.

Lemma floor_sub (length index : Z) :
  JS.floor (JS.sub_undef length (Some index)) = JS.Num (length - index).
Proof. reflexivity. Qed.

Lemma until_zero_terminated (pre rest : list Z) :
  Forall (fun c => c <> 0) pre -> until_zero (pre ++ 0 :: rest) = pre.
Proof.
  induction 1 as [| c pre Hc _ IH]; [reflexivity |].
  cbn [app until_zero]. destruct (Z.eqb_spec c 0); [contradiction |].
  rewrite IH. reflexivity.
Qed.

Lemma until_zero_none (bs : list Z) :
  Forall (fun c => c <> 0) bs -> until_zero bs = bs.
Proof.
  induction 1 as [| c bs Hc _ IH]; [reflexivity |].
  cbn [until_zero]. destruct (Z.eqb_spec c 0); [contradiction |].
  rewrite IH. reflexivity.
Qed.

Lemma until_zero_fit (n : nat) :
  forall str : list Z,
    Forall (fun c => c <> 0) str -> until_zero (fit n str) = firstn n str.
Proof.
  unfold fit. induction n as [| n IH]; intros str Hstr.
  - reflexivity.
  - destruct Hstr as [| c str Hc Hstr].
    + reflexivity.
    + cbn [app firstn until_zero].
      destruct (Z.eqb_spec c 0); [contradiction |].
      f_equal. rewrite <- (IH str Hstr). f_equal.
      replace (repeat 0 (S n)) with (repeat 0 n ++ [0])
        by (rewrite <- repeat_cons; reflexivity).
      rewrite app_assoc. rewrite firstn_app.
      replace (n - length (str ++ repeat 0%Z n))%nat with 0%nat
        by (rewrite length_app, repeat_length; lia).
      cbn [firstn]. rewrite app_nil_r. reflexivity.
Qed.

Lemma fromCharCode_bytes (bs : list Z) :
  Forall (fun c => 0 <= c < 256) bs -> fromCharCode bs = bs.
Proof.
  unfold fromCharCode. induction 1 as [| c bs Hc _ IH]; [reflexivity |].
  cbn [map]. rewrite IH. f_equal. apply Z.mod_small. pow_consts. lia.
Qed.

Lemma map_mod_bytes (bs : list Z) :
  Forall (fun c => 0 <= c < 256) bs -> map (fun c => c mod 256) bs = bs.
Proof.
  induction 1 as [| c bs Hc _ IH]; [reflexivity |].
  cbn [map]. rewrite IH. f_equal. apply Z.mod_small. lia.
Qed.

(** The string readers over the bytes [bs] ahead, with a byte count. *)
Lemma readString_count (length : Z) (index : option Z) (utf8 : bool)
      (N : Z) (bs : list Z) (s : BitStream) (h : heap) :
  0 < N -> Datatypes.length bs = Z.to_nat N ->
  holds_bytes (h (view s)) (_index s) bs ->
  _index s + 8 * N <= _length s ->
  exists h',
    readString length index utf8 (Some N) (s, h)
    = (Ok (let string := fromCharCode (until_zero bs) in
           if utf8 then match utf8_decode string with
                        | Some decoded => decoded
                        | None => string
                        end
           else string),
       (with_index s (_index s + 8 * N), h')) /\
    (forall l, h' l = h l).
Proof.
  intros HN Hlen Hholds Hwin. unfold readString.
  destruct N as [| n | n]; try lia.
  assert (Ht : JS.truthy (Z.pos n) = true) by reflexivity.
  rewrite Ht. unfold bind.
  destruct (readString_loop_holds (Z.pos n) true (Z.to_nat (Z.pos n))
              bs 0 [] true s h) as (h' & -> & Hh');
    try assumption; try lia.
  { unfold consumed. lia. }
  exists h'. split; [| exact Hh'].
  unfold consumed. rewrite Hlen. rewrite Z2Nat.id by lia.
  cbn [app]. cbv zeta.
  destruct utf8; [destruct (utf8_decode _) |]; reflexivity.
Qed.

(** The string readers without a byte count, over bytes that end in a
    zero byte. *)
Lemma readString_zero (length index : Z) (utf8 : bool)
      (pre : list Z) (s : BitStream) (h : heap) :
  Forall (fun c => c <> 0) pre ->
  Z.of_nat (Datatypes.length pre) < length - index ->
  holds_bytes (h (view s)) (_index s) (pre ++ [0]) ->
  _index s + 8 * (Z.of_nat (Datatypes.length pre) + 1) <= _length s ->
  exists h',
    readString length (Some index) utf8 None (s, h)
    = (Ok (let string := fromCharCode pre in
           if utf8 then match utf8_decode string with
                        | Some decoded => decoded
                        | None => string
                        end
           else string),
       (with_index s (_index s + 8 * (Z.of_nat (Datatypes.length pre) + 1)),
        h')) /\
    (forall l, h' l = h l).
Proof.
  intros Hpre HN Hholds Hwin. unfold readString.
  rewrite floor_sub. unfold bind.
  assert (Hc : consumed false (pre ++ [0]) = S (Datatypes.length pre)).
  { unfold consumed. rewrite until_zero_terminated by assumption.
    rewrite length_app. cbn [Datatypes.length]. lia. }
  destruct (readString_loop_holds (length - index) false
              (Z.to_nat (length - index))
              (pre ++ [0]) 0 [] true s h) as (h' & -> & Hh').
  - rewrite length_app. cbn [Datatypes.length]. lia.
  - rewrite length_app. cbn [Datatypes.length]. lia.
  - left. split; [reflexivity |]. apply in_or_app. right. left. reflexivity.
  - exact Hholds.
  - rewrite Hc. lia.
  - exists h'. split; [| exact Hh'].
    rewrite Hc. rewrite until_zero_terminated by assumption.
    cbn [app].
    replace (8 * Z.of_nat (S (Datatypes.length pre)))
      with (8 * (Z.of_nat (Datatypes.length pre) + 1)) by lia.
    cbv zeta.
    destruct utf8; [destruct (utf8_decode _) |]; reflexivity.
Qed.

(** The string readers without a byte count, over bytes with no zero
    byte up to the bound. *)
Lemma readString_bound (length index : Z) (utf8 : bool)
      (bs : list Z) (s : BitStream) (h : heap) :
  Forall (fun c => c <> 0) bs ->
  Datatypes.length bs = Z.to_nat (length - index) ->
  holds_bytes (h (view s)) (_index s) bs ->
  _index s + 8 * Z.of_nat (Datatypes.length bs) <= _length s ->
  exists h',
    readString length (Some index) utf8 None (s, h)
    = (Ok (let string := fromCharCode bs in
           if utf8 then match utf8_decode string with
                        | Some decoded => decoded
                        | None => string
                        end
           else string),
       (with_index s (_index s + 8 * Z.of_nat (Datatypes.length bs)), h')) /\
    (forall l, h' l = h l).
Proof.
  intros Hbs Hlen Hholds Hwin. unfold readString.
  rewrite floor_sub. unfold bind.
  assert (Hc : consumed false bs = Datatypes.length bs).
  { unfold consumed. rewrite until_zero_none by assumption. lia. }
  assert (Hrun : exists h',
             readString_loop (Z.to_nat (length - index))
                             (JS.Num (length - index)) false 0 [] true (s, h)
             = (Ok bs, (with_index s (_index s
                          + 8 * Z.of_nat (Datatypes.length bs)), h')) /\
             (forall l, h' l = h l)).
  { destruct (Z_lt_le_dec (length - index) 0) as [Hneg | Hpos].
    - replace (Z.to_nat (length - index)) with 0%nat in * by lia.
      destruct bs; [| discriminate]. exists h.
      cbn [readString_loop Datatypes.length]. unfold ret.
      rewrite with_index_same by lia. split; reflexivity.
    - destruct (readString_loop_holds (length - index) false
                  (Z.to_nat (length - index)) bs 0 [] true s h)
        as (h' & -> & Hh'); try assumption; try lia.
      exists h'. rewrite Hc, until_zero_none by assumption.
      split; [reflexivity | exact Hh']. }
  destruct Hrun as (h' & -> & Hh'). exists h'. split; [| exact Hh'].
  cbv zeta. destruct utf8; [destruct (utf8_decode _) |]; reflexivity.
Qed.

(** X10. With a byte count [count] other than 0 the string readers read
    exactly [count] bytes, zero bytes or not, and return the bytes before
    the first zero byte (for UTF-8, what the decoder makes of them, or
    the bytes themselves when it fails); no view is changed. *)
Theorem read_string_fixed_count (length : Z) (index : option Z)
        (count : Z) (bs : list Z) (s : BitStream) (h : heap) :
  0 < count -> Datatypes.length bs = Z.to_nat count ->
  holds_bytes (h (view s)) (_index s) bs ->
  _index s + 8 * count <= _length s ->
  exists h1 h2,
    readASCIIString length index (Some count) (s, h)
    = (Ok (fromCharCode (until_zero bs)),
       (with_index s (_index s + 8 * count), h1)) /\
    readUTF8String length index (Some count) (s, h)
    = (Ok (match utf8_decode (fromCharCode (until_zero bs)) with
           | Some decoded => decoded
           | None => fromCharCode (until_zero bs)
           end),
       (with_index s (_index s + 8 * count), h2)) /\
    (forall l, h1 l = h l /\ h2 l = h l).
Proof.
  intros Hc Hlen Hholds Hwin.
  destruct (readString_count length index false count bs s h)
    as (h1 & H1 & Hh1); try assumption.
  destruct (readString_count length index true count bs s h)
    as (h2 & H2 & Hh2); try assumption.
  exists h1, h2. unfold readASCIIString, readUTF8String.
  split; [exact H1 |]. split; [exact H2 |].
  intros l. split; [apply Hh1 | apply Hh2].
Qed.

(** X11. Without a byte count and with an index, the string readers
    read up to the first zero byte when it comes within
    [length - index] bytes: they return the bytes before it and leave
    the cursor after it. *)
Theorem read_string_until_zero (length index : Z) (pre : list Z)
        (s : BitStream) (h : heap) :
  Forall (fun c => c <> 0) pre ->
  Z.of_nat (Datatypes.length pre) < length - index ->
  holds_bytes (h (view s)) (_index s) (pre ++ [0]) ->
  _index s + 8 * (Z.of_nat (Datatypes.length pre) + 1) <= _length s ->
  exists h1 h2,
    readASCIIString length (Some index) None (s, h)
    = (Ok (fromCharCode pre),
       (with_index s (_index s + 8 * (Z.of_nat (Datatypes.length pre) + 1)),
        h1)) /\
    readUTF8String length (Some index) None (s, h)
    = (Ok (match utf8_decode (fromCharCode pre) with
           | Some decoded => decoded
           | None => fromCharCode pre
           end),
       (with_index s (_index s + 8 * (Z.of_nat (Datatypes.length pre) + 1)),
        h2)) /\
    (forall l, h1 l = h l /\ h2 l = h l).
Proof.
  intros Hpre HN Hholds Hwin.
  destruct (readString_zero length index false pre s h)
    as (h1 & H1 & Hh1); try assumption.
  destruct (readString_zero length index true pre s h)
    as (h2 & H2 & Hh2); try assumption.
  exists h1, h2. unfold readASCIIString, readUTF8String.
  split; [exact H1 |]. split; [exact H2 |].
  intros l. split; [apply Hh1 | apply Hh2].
Qed.

(** X12. Without a byte count and with no zero byte among the next
    [length - index] bytes, the string readers read exactly that many
    bytes and return them all; when [length - index] is not positive
    they read nothing. *)
Theorem read_string_to_bound (length index : Z) (bs : list Z)
        (s : BitStream) (h : heap) :
  Forall (fun c => c <> 0) bs ->
  Datatypes.length bs = Z.to_nat (length - index) ->
  holds_bytes (h (view s)) (_index s) bs ->
  _index s + 8 * Z.of_nat (Datatypes.length bs) <= _length s ->
  exists h1,
    readASCIIString length (Some index) None (s, h)
    = (Ok (fromCharCode bs),
       (with_index s (_index s + 8 * Z.of_nat (Datatypes.length bs)), h1)) /\
    (forall l, h1 l = h l).
Proof.
  intros Hbs Hlen Hholds Hwin.
  apply (readString_bound length index false bs s h); assumption.
Qed.

Lemma writeASCIIString_none (string : list Z) (st : St) :
  writeASCIIString string None st = write_bytes (string ++ [0]) st.
Proof.
  unfold writeASCIIString.
  replace (Z.to_nat (JS.or_else (JS.nullish None 0)
                                (Z.of_nat (length string) + 1)))
    with (S (length string))
    by (cbn [JS.nullish]; unfold JS.or_else, JS.truthy;
        cbn [Z.eqb negb]; lia).
  apply (for_loop_write_bytes string string []). reflexivity.
Qed.

Lemma writeUTF8String_none (string : list Z) (st : St) :
  writeUTF8String string None st
  = write_bytes (stringToByteArray string ++ [0]) st.
Proof.
  unfold writeUTF8String. cbv zeta.
  replace (Z.to_nat (JS.or_else (JS.nullish None 0)
             (Z.of_nat (length (stringToByteArray string)) + 1)))
    with (S (length (stringToByteArray string)))
    by (cbn [JS.nullish]; unfold JS.or_else, JS.truthy;
        cbn [Z.eqb negb]; lia).
  apply (for_loop_write_bytes _ (stringToByteArray string) []). reflexivity.
Qed.

Lemma writeASCIIString_count (string : list Z) (count : Z) (st : St) :
  count <> 0 ->
  writeASCIIString string (Some count) st
  = write_bytes (fit (Z.to_nat count) string) st.
Proof.
  intros Hc. unfold writeASCIIString, fit.
  replace (JS.or_else (JS.nullish (Some count) 0)
                      (Z.of_nat (length string) + 1)) with count.
  - apply (for_loop_fit string (Z.to_nat count) 0 (Z.to_nat count)). lia.
  - cbn [JS.nullish]. unfold JS.or_else, JS.truthy.
    destruct (Z.eqb_spec count 0); [contradiction | reflexivity].
Qed.

Lemma rewind (s : BitStream) (i : Z) :
  set_index (with_index s i) (index s) = s.
Proof.
  unfold set_index, index. rewrite with_index_twice.
  apply with_index_same. cbn [with_index _startIndex]. lia.
Qed.

Lemma writeUTF8String_count (string : list Z) (count : Z) (st : St) :
  count <> 0 ->
  writeUTF8String string (Some count) st
  = write_bytes (fit (Z.to_nat count) (stringToByteArray string)) st.
Proof.
  intros Hc. unfold writeUTF8String, fit. cbv zeta.
  replace (JS.or_else (JS.nullish (Some count) 0)
             (Z.of_nat (length (stringToByteArray string)) + 1))
    with count.
  - apply (for_loop_fit _ (Z.to_nat count) 0 (Z.to_nat count)). lia.
  - cbn [JS.nullish]. unfold JS.or_else, JS.truthy.
    destruct (Z.eqb_spec count 0); [contradiction | reflexivity].
Qed.

Lemma string_writers_zero_count (string : list Z) (st : St) :
  writeASCIIString string (Some 0) st = writeASCIIString string None st /\
  writeUTF8String string (Some 0) st = writeUTF8String string None st.
Proof. split; reflexivity. Qed.

Lemma fit_cut (n : nat) (l : list Z) :
  (n <= length l)%nat -> fit n l = firstn n l.
Proof.
  intros H. unfold fit. rewrite firstn_app.
  replace (n - length l)%nat with 0%nat by lia.
  cbn [firstn]. apply app_nil_r.
Qed.

Lemma fit_pad (n : nat) (l : list Z) :
  (length l <= n)%nat -> fit n l = l ++ repeat 0 (n - length l).
Proof.
  intros H. unfold fit. rewrite firstn_app.
  rewrite firstn_all2 by lia. f_equal.
  replace n with ((n - length l) + length l)%nat at 2 by lia.
  rewrite repeat_app, firstn_app, repeat_length.
  replace (n - length l - (n - length l))%nat with 0%nat by lia.
  cbn [firstn]. rewrite app_nil_r.
  apply firstn_all2. rewrite repeat_length. lia.
Qed.

Lemma write_bytes_effect (l : list Z) (s : BitStream) (h : heap) :
  0 <= _index s ->
  _index s + 8 * Z.of_nat (length l) <= byteLength (h (view s)) * 8 ->
  _index s + 8 * Z.of_nat (length l) <= 2 ^ 31 ->
  exists h',
    write_bytes l (s, h)
    = (Ok tt, (with_index s (_index s + 8 * Z.of_nat (length l)), h')) /\
    holds_bytes (h' (view s)) (_index s) (map (fun c => c mod 256) l) /\
    changed_within (_index s) (_index s + 8 * Z.of_nat (length l))
                   (h (view s)) (h' (view s)).
Proof.
  intros Hi Hbuf H31.
  destruct (write_bytes_holds l s h Hi Hbuf H31) as (h' & Hw & Hch & Hh & _).
  exists h'. split; [exact Hw |]. split; assumption.
Qed.

(** C10. A byte count of 0 is taken as no count.  With either, and
    with room in the buffer, [writeASCIIString] stores the low eight
    bits of each code unit of the string and then a zero byte, one byte
    more than the string has, [writeUTF8String] the bytes of the
    encoded string and then a zero byte; the cursor moves past them,
    the view reads them back from the old cursor, and no other bit of
    the view changes. *)
Theorem write_string_zero_count (string : list Z) (s : BitStream)
        (h : heap) :
  0 <= _index s ->
  (forall st,
     writeASCIIString string (Some 0) st = writeASCIIString string None st /\
     writeUTF8String string (Some 0) st = writeUTF8String string None st) /\
  (_index s + 8 * (Z.of_nat (length string) + 1)
   <= Z.min (byteLength (h (view s)) * 8) (2 ^ 31) ->
   exists h',
     writeASCIIString string (Some 0) (s, h)
     = (Ok tt,
        (with_index s (_index s + 8 * (Z.of_nat (length string) + 1)), h')) /\
     holds_bytes (h' (view s)) (_index s)
                 (map (fun c => c mod 256) string ++ [0]) /\
     changed_within (_index s)
                    (_index s + 8 * (Z.of_nat (length string) + 1))
                    (h (view s)) (h' (view s))) /\
  (_index s + 8 * (Z.of_nat (length (stringToByteArray string)) + 1)
   <= Z.min (byteLength (h (view s)) * 8) (2 ^ 31) ->
   exists h',
     writeUTF8String string (Some 0) (s, h)
     = (Ok tt,
        (with_index s
           (_index s
            + 8 * (Z.of_nat (length (stringToByteArray string)) + 1)), h')) /\
     holds_bytes (h' (view s)) (_index s)
                 (map (fun c => c mod 256) (stringToByteArray string) ++ [0]) /\
     changed_within (_index s)
                    (_index s
                     + 8 * (Z.of_nat (length (stringToByteArray string)) + 1))
                    (h (view s)) (h' (view s))).
Proof.
  intros Hi.
  assert (Hlen : forall l : list Z,
             Z.of_nat (length (l ++ [0])) = Z.of_nat (length l) + 1)
    by (intros l; rewrite length_app; cbn [length]; lia).
  assert (Hmap : forall l : list Z,
             map (fun c => c mod 256) (l ++ [0])
             = map (fun c => c mod 256) l ++ [0])
    by (intros l; rewrite map_app; reflexivity).
  split; [intros st; apply string_writers_zero_count |]. split.
  - intros Hroom.
    destruct (string_writers_zero_count string (s, h)) as [-> _].
    rewrite writeASCIIString_none.
    destruct (write_bytes_effect (string ++ [0]) s h Hi)
      as (h' & Hw & Hh & Hch); rewrite ?Hlen; try lia.
    rewrite Hlen in Hw, Hch. rewrite Hmap in Hh.
    exists h'. split; [exact Hw |]. split; assumption.
  - intros Hroom.
    destruct (string_writers_zero_count string (s, h)) as [_ ->].
    rewrite writeUTF8String_none.
    destruct (write_bytes_effect (stringToByteArray string ++ [0]) s h Hi)
      as (h' & Hw & Hh & Hch); rewrite ?Hlen; try lia.
    rewrite Hlen in Hw, Hch. rewrite Hmap in Hh.
    exists h'. split; [exact Hw |]. split; assumption.
Qed.

(** X7. A positive byte count fixes the number of bytes the string
    writers write.  With room in the buffer the call succeeds, the
    cursor moves [count] bytes on, and the view then reads back, from
    the old cursor, the bytes of the (encoded) string cut at the count
    when they are more, and followed by zero bytes up to the count when
    they are fewer, with no terminator beyond the count; no other bit
    of the view changes.  A negative count writes nothing. *)
Theorem write_string_fixed_count (string : list Z) (count : Z)
        (s : BitStream) (h : heap) :
  0 < count -> 0 <= _index s ->
  _index s + 8 * count <= byteLength (h (view s)) * 8 ->
  _index s + 8 * count <= 2 ^ 31 ->
  (exists h',
     writeASCIIString string (Some count) (s, h)
     = (Ok tt, (with_index s (_index s + 8 * count), h')) /\
     holds_bytes (h' (view s)) (_index s)
                 (map (fun c => c mod 256) (fit (Z.to_nat count) string)) /\
     changed_within (_index s) (_index s + 8 * count)
                    (h (view s)) (h' (view s))) /\
  (exists h',
     writeUTF8String string (Some count) (s, h)
     = (Ok tt, (with_index s (_index s + 8 * count), h')) /\
     holds_bytes (h' (view s)) (_index s)
                 (map (fun c => c mod 256)
                      (fit (Z.to_nat count) (stringToByteArray string))) /\
     changed_within (_index s) (_index s + 8 * count)
                    (h (view s)) (h' (view s))) /\
  (forall l : list Z,
     length (fit (Z.to_nat count) l) = Z.to_nat count /\
     ((Z.to_nat count <= length l)%nat ->
      fit (Z.to_nat count) l = firstn (Z.to_nat count) l) /\
     ((length l <= Z.to_nat count)%nat ->
      fit (Z.to_nat count) l
      = l ++ repeat 0 (Z.to_nat count - length l))) /\
  (forall c st,
     c < 0 ->
     writeASCIIString string (Some c) st = (Ok tt, st) /\
     writeUTF8String string (Some c) st = (Ok tt, st)).
Proof.
  intros Hc Hi Hbuf H31.
  assert (Hl : forall l : list Z,
             Z.of_nat (length (fit (Z.to_nat count) l)) = count)
    by (intros l; rewrite fit_length; lia).
  split; [| split; [| split]].
  - rewrite writeASCIIString_count by lia.
    destruct (write_bytes_effect (fit (Z.to_nat count) string) s h Hi)
      as (h' & Hw & Hh & Hch); rewrite ?Hl; try lia.
    rewrite Hl in Hw, Hch.
    exists h'. split; [exact Hw |]. split; assumption.
  - rewrite writeUTF8String_count by lia.
    destruct (write_bytes_effect
                (fit (Z.to_nat count) (stringToByteArray string)) s h Hi)
      as (h' & Hw & Hh & Hch); rewrite ?Hl; try lia.
    rewrite Hl in Hw, Hch.
    exists h'. split; [exact Hw |]. split; assumption.
  - intros l. split; [apply fit_length |].
    split; [apply fit_cut | apply fit_pad].
  - intros c st Hneg.
    rewrite writeASCIIString_count, writeUTF8String_count by lia.
    replace (Z.to_nat c) with 0%nat by lia. split; reflexivity.
Qed.

(** Bytes written with a terminating zero and read back without a byte
    count. *)
Lemma bytes_write_then_read (b : list Z) (length index : Z) (utf8 : bool)
      (s : BitStream) (h : heap) :
  Forall (fun c => 1 <= c <= 255) b ->
  0 <= _index s ->
  _index s + 8 * (Z.of_nat (Datatypes.length b) + 1) <= _length s ->
  _index s + 8 * (Z.of_nat (Datatypes.length b) + 1)
  <= byteLength (h (view s)) * 8 ->
  _index s + 8 * (Z.of_nat (Datatypes.length b) + 1) <= 2 ^ 31 ->
  Z.of_nat (Datatypes.length b) < length - index ->
  exists h1 h2,
    write_bytes (b ++ [0]) (s, h)
    = (Ok tt,
       (with_index s (_index s + 8 * (Z.of_nat (Datatypes.length b) + 1)),
        h1)) /\
    readString length (Some index) utf8 None (s, h1)
    = (Ok (if utf8 then match utf8_decode b with
                        | Some decoded => decoded
                        | None => b
                        end
           else b),
       (with_index s (_index s + 8 * (Z.of_nat (Datatypes.length b) + 1)),
        h2)) /\
    (forall l, h2 l = h1 l).
Proof.
  intros Hb Hi Hwin Hbuf H31 HN.
  assert (Hl : Z.of_nat (Datatypes.length (b ++ [0]))
               = Z.of_nat (Datatypes.length b) + 1)
    by (rewrite length_app; cbn [Datatypes.length]; lia).
  destruct (write_bytes_holds (b ++ [0]) s h) as (h1 & Hw & Hst & Hholds & _);
    try lia.
  rewrite Hl in Hw.
  assert (Hrange : Forall (fun c => 0 <= c < 256) (b ++ [0])).
  { apply Forall_app. split.
    - eapply Forall_impl; [| exact Hb]. cbv beta. intros; lia.
    - repeat constructor; lia. }
  rewrite map_mod_bytes in Hholds by exact Hrange.
  destruct (readString_zero length index utf8 b s h1)
    as (h2 & Hr & Hh2); try assumption.
  { eapply Forall_impl; [| exact Hb]. cbv beta. intros; lia. }
  exists h1, h2. split; [exact Hw |]. split; [| exact Hh2].
  rewrite Hr. cbv zeta. rewrite fromCharCode_bytes; [reflexivity |].
  eapply Forall_impl; [| exact Hb]. cbv beta. intros; lia.
Qed.

(** X13. A string of characters 1..255 written with [writeASCIIString]
    without a byte count, terminator included, is what
    [readASCIIString] returns from the same place, given an index and a
    length that leave room for it; the read ends where the write ended. *)
Theorem ascii_string_round_trip (string : list Z) (len ix : Z)
        (s : BitStream) (h : heap) :
  Forall (fun c => 1 <= c <= 255) string ->
  0 <= _index s ->
  _index s + 8 * (Z.of_nat (Datatypes.length string) + 1) <= _length s ->
  _index s + 8 * (Z.of_nat (Datatypes.length string) + 1)
  <= byteLength (h (view s)) * 8 ->
  _index s + 8 * (Z.of_nat (Datatypes.length string) + 1) <= 2 ^ 31 ->
  Z.of_nat (Datatypes.length string) < len - ix ->
  exists s1 h1 h2,
    writeASCIIString string None (s, h) = (Ok tt, (s1, h1)) /\
    _index s1 = _index s + 8 * (Z.of_nat (Datatypes.length string) + 1) /\
    readASCIIString len (Some ix) None (set_index s1 (index s), h1)
    = (Ok string, (s1, h2)) /\
    (forall l, h2 l = h1 l).
Proof.
  intros Hs Hi Hwin Hbuf H31 HN.
  destruct (bytes_write_then_read string len ix false s h)
    as (h1 & h2 & Hw & Hr & Hh2); try assumption.
  eexists _, h1, h2. rewrite writeASCIIString_none.
  split; [exact Hw |]. split; [reflexivity |].
  rewrite rewind. split; [exact Hr | exact Hh2].
Qed.

Lemma Forall_fit (P : Z -> Prop) (n : nat) (l : list Z) :
  P 0 -> Forall P l -> Forall P (fit n l).
Proof.
  intros H0 Hl. unfold fit.
  assert (Hall : Forall P (l ++ repeat 0 n)).
  { apply Forall_app. split; [exact Hl |].
    apply Forall_forall. intros x Hx. apply repeat_spec in Hx.
    subst x. exact H0. }
  clear Hl. revert Hall. generalize (l ++ repeat 0 n) as l'.
  induction n as [| m IH]; intros l' Hall; [constructor |].
  destruct Hall as [| x l' Hx Hall]; cbn [firstn]; constructor;
    [exact Hx | apply IH, Hall].
Qed.

Lemma Forall_firstn_of (P : Z -> Prop) (n : nat) :
  forall l : list Z, Forall P l -> Forall P (firstn n l).
Proof.
  induction n as [| m IH]; intros l Hl; [constructor |].
  destruct Hl as [| x l Hx Hl]; cbn [firstn]; constructor;
    [exact Hx | apply IH, Hl].
Qed.

(** Bytes written to a fixed count and read back with the same count. *)
Lemma bytes_fixed_write_then_read (b : list Z) (count length : Z)
      (index : option Z) (utf8 : bool) (s : BitStream) (h : heap) :
  Forall (fun c => 1 <= c <= 255) b ->
  0 < count -> 0 <= _index s ->
  _index s + 8 * count <= _length s ->
  _index s + 8 * count <= byteLength (h (view s)) * 8 ->
  _index s + 8 * count <= 2 ^ 31 ->
  exists h1 h2,
    write_bytes (fit (Z.to_nat count) b) (s, h)
    = (Ok tt, (with_index s (_index s + 8 * count), h1)) /\
    readString length index utf8 (Some count) (s, h1)
    = (Ok (let string := firstn (Z.to_nat count) b in
           if utf8 then match utf8_decode string with
                        | Some decoded => decoded
                        | None => string
                        end
           else string),
       (with_index s (_index s + 8 * count), h2)) /\
    (forall l, h2 l = h1 l).
Proof.
  intros Hb Hc Hi Hwin Hbuf H31.
  assert (Hl : Z.of_nat (Datatypes.length (fit (Z.to_nat count) b)) = count)
    by (rewrite fit_length; lia).
  destruct (write_bytes_holds (fit (Z.to_nat count) b) s h)
    as (h1 & Hw & Hst & Hholds & _); try lia.
  rewrite Hl in Hw.
  assert (Hrange : Forall (fun c => 0 <= c < 256) (fit (Z.to_nat count) b)).
  { apply Forall_fit; [lia |].
    eapply Forall_impl; [| exact Hb]. cbv beta. intros; lia. }
  rewrite map_mod_bytes in Hholds by exact Hrange.
  destruct (readString_count length index utf8 count
              (fit (Z.to_nat count) b) s h1)
    as (h2 & Hr & Hh2); try assumption.
  { apply fit_length. }
  exists h1, h2. split; [exact Hw |]. split; [| exact Hh2].
  rewrite Hr. cbv zeta. rewrite until_zero_fit.
  - rewrite fromCharCode_bytes; [reflexivity |].
    apply Forall_firstn_of.
    eapply Forall_impl; [| exact Hb]. cbv beta. intros; lia.
  - eapply Forall_impl; [| exact Hb]. cbv beta. intros; lia.
Qed.

(** X14. A string of characters 1..255 written with [writeASCIIString]
    and a byte count is read back by [readASCIIString] with the same
    count as its first [count] characters: the whole string when the
    count is not below its length, the zero padding dropped. *)
Theorem ascii_string_fixed_round_trip (string : list Z) (count len : Z)
        (ix : option Z) (s : BitStream) (h : heap) :
  Forall (fun c => 1 <= c <= 255) string ->
  0 < count -> 0 <= _index s ->
  _index s + 8 * count <= _length s ->
  _index s + 8 * count <= byteLength (h (view s)) * 8 ->
  _index s + 8 * count <= 2 ^ 31 ->
  exists s1 h1 h2,
    writeASCIIString string (Some count) (s, h) = (Ok tt, (s1, h1)) /\
    _index s1 = _index s + 8 * count /\
    readASCIIString len ix (Some count) (set_index s1 (index s), h1)
    = (Ok (firstn (Z.to_nat count) string), (s1, h2)) /\
    (Z.of_nat (length string) <= count ->
     firstn (Z.to_nat count) string = string) /\
    (forall l, h2 l = h1 l).
Proof.
  intros Hs Hc Hi Hwin Hbuf H31.
  destruct (bytes_fixed_write_then_read string count len ix false s h)
    as (h1 & h2 & Hw & Hr & Hh2); try assumption.
  eexists _, h1, h2. rewrite writeASCIIString_count by lia.
  split; [exact Hw |]. split; [reflexivity |].
  rewrite rewind. split; [exact Hr |]. split; [| exact Hh2].
  intros Hle. apply firstn_all2. lia.
Qed.

Lemma encode_unit_nonzero (u : Z) : 1 <= u -> ~ In 0 (encode_unit u).
Proof.
  intros Hu Hin. unfold encode_unit, stringToByteArray in Hin.
  cbn [flat_map] in Hin. rewrite app_nil_r in Hin.
  assert (Hbit : forall x c, Z.testbit c 7 = true -> 0 = x :|: c -> False).
  { intros x c Hc E.
    assert (Hb : Z.testbit (x :|: c) 7 = true).
    { rewrite bor_bit by lia. rewrite Z.min_l by lia.
      rewrite Hc. apply orb_true_r. }
    rewrite <- E in Hb. discriminate. }
  destruct (u <=? 0x7f); [| destruct (u <=? 0x7ff);
                             [| destruct (u <=? 0xffff)]];
    cbn [In] in Hin;
    repeat match type of Hin with
           | _ \/ _ => destruct Hin as [Hin | Hin]
           end;
    try contradiction; try lia;
    try (symmetry in Hin; apply Hbit in Hin; [exact Hin | reflexivity]);
    try (apply Hbit in Hin; [exact Hin | reflexivity]).
Qed.

Lemma stringToByteArray_nonzero (str : list Z) :
  Forall (fun u => 1 <= u) str ->
  Forall (fun c => c <> 0) (stringToByteArray str).
Proof.
  induction 1 as [| u str Hu _ IH].
  - constructor.
  - rewrite stringToByteArray_cons. apply Forall_app. split; [| exact IH].
    apply Forall_forall. intros x Hx ->.
    exact (encode_unit_nonzero u Hu Hx).
Qed.

Lemma stringToByteArray_bytes (str : list Z) :
  Forall (fun u => 0 <= u < 65536) str ->
  Forall (fun x => 0 <= x < 256) (stringToByteArray str).
Proof.
  induction 1 as [| u str Hu _ IH].
  - constructor.
  - rewrite stringToByteArray_cons. apply Forall_app. split; [| exact IH].
    apply (encode_unit_shape u Hu).
Qed.

(** X15. A string of code units 1..65535 written with
    [writeUTF8String] without a byte count is read back from the same
    place as the bytes of its encoding: [readASCIIString] returns them
    as they are, and [readUTF8String] returns what the decoder makes of
    exactly these bytes. *)
Theorem utf8_string_round_trip (string : list Z) (len ix : Z)
        (s : BitStream) (h : heap) :
  Forall (fun u => 1 <= u < 65536) string ->
  0 <= _index s ->
  _index s + 8 * (Z.of_nat (length (stringToByteArray string)) + 1)
  <= _length s ->
  _index s + 8 * (Z.of_nat (length (stringToByteArray string)) + 1)
  <= byteLength (h (view s)) * 8 ->
  _index s + 8 * (Z.of_nat (length (stringToByteArray string)) + 1)
  <= 2 ^ 31 ->
  Z.of_nat (length (stringToByteArray string)) < len - ix ->
  exists s1 h1 h2 h3,
    writeUTF8String string None (s, h) = (Ok tt, (s1, h1)) /\
    _index s1
    = _index s + 8 * (Z.of_nat (length (stringToByteArray string)) + 1) /\
    readASCIIString len (Some ix) None (set_index s1 (index s), h1)
    = (Ok (stringToByteArray string), (s1, h2)) /\
    readUTF8String len (Some ix) None (set_index s1 (index s), h1)
    = (Ok (match utf8_decode (stringToByteArray string) with
           | Some decoded => decoded
           | None => stringToByteArray string
           end), (s1, h3)) /\
    (forall l, h2 l = h1 l /\ h3 l = h1 l).
Proof.
  intros Hs Hi Hwin Hbuf H31 HN.
  assert (Hb : Forall (fun c => 1 <= c <= 255) (stringToByteArray string)).
  { assert (H1 : Forall (fun x => 0 <= x < 256) (stringToByteArray string)).
    { apply stringToByteArray_bytes.
      eapply Forall_impl; [| exact Hs]. cbv beta. intros; lia. }
    assert (H2 : Forall (fun c => c <> 0) (stringToByteArray string)).
    { apply stringToByteArray_nonzero.
      eapply Forall_impl; [| exact Hs]. cbv beta. intros; lia. }
    rewrite Forall_forall in *. intros x Hx.
    specialize (H1 x Hx). specialize (H2 x Hx). cbv beta in *. lia. }
  destruct (bytes_write_then_read (stringToByteArray string) len ix false
                                  s h)
    as (h1 & h2 & Hw & Hr & Hh2); try assumption.
  destruct (bytes_write_then_read (stringToByteArray string) len ix true
                                  s h)
    as (h1' & h3 & Hw' & Hr' & Hh3); try assumption.
  assert (h1' = h1) by congruence. subst h1'.
  eexists _, h1, h2, h3. rewrite writeUTF8String_none.
  split; [exact Hw |]. split; [reflexivity |].
  rewrite rewind. split; [exact Hr |]. split; [exact Hr' |].
  intros l. split; [apply Hh2 | apply Hh3].
Qed.

(* ================================================================== *)
(** ** Copying from a stream to a stream *)
(* ================================================================== *)

Lemma readBits_run (bits : Z) (s : BitStream) (h : heap) :
  readBits bits (Some false) (s, h)
  = match getBits (h (view s)) (_index s) bits false with
    | Ok c => (Ok c, (with_index s (_index s + bits),
                      upd h (view s) (h (view s))))
    | Throw e => (Throw e, (s, upd h (view s) (h (view s))))
    end.
Proof.
  unfold readBits, bind, this_, on_view, set_index_, ret, getBitsM.
  cbn [fst snd]. cbv zeta. cbn [fst snd].
  destruct (getBits (h (view s)) (_index s) bits false); reflexivity.
Qed.

Lemma writeBits_run (value bits : Z) (s : BitStream) (h : heap) :
  writeBits value bits (s, h)
  = match setBits (_index s) value bits (h (view s)) with
    | (Ok _, v') =>
      (Ok tt, (with_index s (_index s + bits), upd h (view s) v'))
    | (Throw e, v') => (Throw e, (s, upd h (view s) v'))
    end.
Proof.
  unfold writeBits, bind, this_, on_view, set_index_.
  cbn [fst snd]. cbv zeta. cbn [fst snd].
  destruct (setBits (_index s) value bits (h (view s))) as [[[] | e] v'];
    reflexivity.
Qed.

(** The bits a copy moves within one view, chunk after chunk, when the
    span it reads and the span it writes do not overlap. *)
Lemma writeBitStream_loop_copies (fuel : nat) :
  forall (n : Z) (src dst : BitStream) (h : heap),
    0 <= n -> (Z.to_nat n <= fuel)%nat ->
    view dst = view src ->
    (forall B, 0 <= Uint8Array.read (_view (h (view src))) B < 256) ->
    0 <= _index src -> 0 <= _index dst ->
    _index src + n <= _index dst \/ _index dst + n <= _index src ->
    _index src + n <= byteLength (h (view src)) * 8 ->
    _index src + n <= 2 ^ 31 ->
    _index dst + n <= byteLength (h (view src)) * 8 ->
    _index dst + n <= 2 ^ 31 ->
    exists h',
      writeBitStream_loop fuel n (src, (dst, h))
      = (Ok tt, (with_index src (_index src + n),
                 (with_index dst (_index dst + n), h'))) /\
      changed_within (_index dst) (_index dst + n)
                     (h (view src)) (h' (view src)) /\
      (forall j, 0 <= j < n ->
         bitAt (bigEndian (h (view src))) (_view (h' (view src)))
               (_index dst + j)
         = bitAt (bigEndian (h (view src))) (_view (h (view src)))
                 (_index src + j)).
Proof.
  induction fuel as [| fuel IH];
    intros n src dst h Hn Hf Hsame Hall Hs0 Hd0 Hdis Hs1 Hs2 Hd1 Hd2.
  - assert (n = 0) by lia. subst n. exists h.
    cbn [writeBitStream_loop]. unfold ret.
    rewrite !with_index_same by lia.
    split; [reflexivity |].
    split; [apply changed_within_refl | intros; lia].
  - cbn [writeBitStream_loop].
    destruct (Z.gtb_spec n 0) as [Hpos | Hzero].
    2:{ assert (n = 0) by lia. subst n. exists h. unfold ret.
        rewrite !with_index_same by lia.
        split; [reflexivity |].
        split; [apply changed_within_refl | intros; lia]. }
    cbv zeta. set (w := Z.min n 32).
    assert (Hw : 1 <= w <= 32) by (subst w; lia).
    assert (Hwn : w <= n) by (subst w; lia).
    set (v := h (view src)) in *.
    destruct (getBits_results v (_index src) w)
      as (U & HU & Hbits & Hget & _); try lia.
    { intros p _. apply Hall. }
    unfold bind at 1. unfold on_stream at 1. cbn [fst snd].
    fold v. rewrite readBits_run. fold v. rewrite Hget. cbn [fst snd].
    set (src1 := with_index src (_index src + w)).
    set (h1 := upd h (view src) v).
    assert (Hh1 : h1 (view dst) = v).
    { subst h1. rewrite Hsame. apply upd_same. }
    unfold bind at 1. unfold on_this at 1. cbn [fst snd].
    rewrite writeBits_run, Hh1.
    destruct (setBits_effect v (_index dst) U w)
      as (v1 & -> & Hch & Hok & Hset & _); try lia.
    set (dst1 := with_index dst (_index dst + w)).
    set (h2 := upd h1 (view dst) v1).
    assert (Hh2 : h2 (view src) = v1).
    { subst h2. rewrite Hsame. apply upd_same. }
    destruct Hch as [(L1 & M1 & B1 & P1) K1].
    assert (Hlen1 : byteLength v1 = byteLength v).
    { unfold byteLength. f_equal. exact L1. }
    destruct (IH (n - w) src1 dst1 h2)
      as (h' & Hrun & Hch' & Hcopy);
      change (view src1) with (view src);
      change (view dst1) with (view dst);
      change (_index src1) with (_index src + w);
      change (_index dst1) with (_index dst + w);
      rewrite ?Hh2, ?Hlen1; try lia; try assumption.
    { intros B. apply K1, Hall. }
    change (view src1) with (view src) in *.
    change (_index src1) with (_index src + w) in *.
    change (_index dst1) with (_index dst + w) in *.
    rewrite Hh2 in *.
    exists h'. split; [| split].
    + etransitivity; [exact Hrun |].
      subst src1 dst1. rewrite !with_index_twice.
      replace (_index src + w + (n - w)) with (_index src + n) by lia.
      replace (_index dst + w + (n - w)) with (_index dst + n) by lia.
      reflexivity.
    + eapply changed_within_trans;
        [| | | | split; [exact (conj L1 (conj M1 (conj B1 P1))) | exact K1]
         | exact Hch']; lia.
    + intros j Hj. rewrite M1 in Hcopy.
      destruct Hch' as [(_ & _ & _ & P2) _]. rewrite M1 in P2.
      destruct (Z_lt_le_dec j w) as [Hlt | Hge].
      * rewrite P2 by lia.
        specialize (Hset (if bigEndian v then w - 1 - j else j)).
        specialize (Hbits (if bigEndian v then w - 1 - j else j)).
        unfold place in *.
        destruct (bigEndian v);
          [replace (_index dst + w - 1 - (w - 1 - j))
             with (_index dst + j) in Hset by lia;
           replace (_index src + w - 1 - (w - 1 - j))
             with (_index src + j) in Hbits by lia |];
          rewrite Hset, <- Hbits by lia; reflexivity.
      * specialize (Hcopy (j - w) ltac:(lia)).
        replace (_index dst + w + (j - w)) with (_index dst + j)
          in Hcopy by lia.
        replace (_index src + w + (j - w)) with (_index src + j)
          in Hcopy by lia.
        rewrite Hcopy. apply P1; lia.
Qed.

(** X16. [writeBitStream] between two stream objects on one view (a
    stream and a slice of it, say), from a span of [n] bits to a span
    that does not overlap it, [n] being the given length or, without
    one, the bits left in the source: both cursors advance by [n], bit
    [j] after the destination's cursor becomes what bit [j] after the
    source's cursor was, and no bit of the view outside the destination
    span changes, the source span in particular. *)
Theorem writeBitStream_copies (len : option Z) (n : Z)
        (src dst : BitStream) (h : heap) :
  n = match len with Some l => l | None => bitsLeft src end ->
  0 <= n ->
  view dst = view src ->
  bytes_ok (_view (h (view src))) ->
  0 <= _index src -> 0 <= _index dst ->
  _index src + n <= _index dst \/ _index dst + n <= _index src ->
  _index src + n <= byteLength (h (view src)) * 8 ->
  _index src + n <= 2 ^ 31 ->
  _index dst + n <= byteLength (h (view src)) * 8 ->
  _index dst + n <= 2 ^ 31 ->
  exists h',
    writeBitStream len (src, (dst, h))
    = (Ok tt, (with_index src (_index src + n),
               (with_index dst (_index dst + n), h'))) /\
    changed_within (_index dst) (_index dst + n)
                   (h (view src)) (h' (view src)) /\
    (forall j, 0 <= j < n ->
       bitAt (bigEndian (h (view src))) (_view (h' (view src)))
             (_index dst + j)
       = bitAt (bigEndian (h (view src))) (_view (h (view src)))
               (_index src + j)).
Proof.
  intros Hn Hpos Hsame Hok Hs0 Hd0 Hdis Hs1 Hs2 Hd1 Hd2.
  unfold writeBitStream. cbn [fst]. rewrite <- Hn.
  apply writeBitStream_loop_copies; try assumption; [lia |].
  intros B. apply bytes_ok_read, Hok.
Qed.

(** X17. [writeBitStream] reads a chunk from the source before it
    writes it: when the destination's buffer has no room for the first
    chunk, the call throws the range error with the source's cursor
    already past that chunk, the destination's cursor and every view
    as they were. *)
Theorem writeBitStream_source_runs_ahead (n : Z) (src dst : BitStream)
        (h : heap) :
  0 < n ->
  _index src + Z.min n 32 <= byteLength (h (view src)) * 8 ->
  _index dst + Z.min n 32 > byteLength (h (view dst)) * 8 ->
  exists h',
    writeBitStream (Some n) (src, (dst, h))
    = (Throw OutOfRange,
       (with_index src (_index src + Z.min n 32), (dst, h'))) /\
    (forall l, h' l = h l).
Proof.
  intros Hn Hs Hd. unfold writeBitStream.
  destruct (Z.to_nat n) as [| fuel] eqn:Ef; [lia |].
  cbn [writeBitStream_loop].
  destruct (Z.gtb_spec n 0); [| lia]. cbv zeta.
  unfold bind at 1. unfold on_stream at 1. cbn [fst snd].
  rewrite readBits_run.
  assert (Hget : exists U,
             getBits (h (view src)) (_index src) (Z.min n 32) false = Ok U).
  { unfold getBits.
    destruct (Z.gtb_spec (Z.min n 32)
                         (byteLength (h (view src)) * 8 - _index src));
      [lia |].
    eexists. reflexivity. }
  destruct Hget as [U ->]. cbn [fst snd].
  set (h1 := upd h (view src) (h (view src))).
  assert (Hh1 : forall l, h1 l = h l) by (intros l; apply upd_id).
  unfold bind. unfold on_this. cbn [fst snd].
  rewrite writeBits_run, Hh1.
  assert (Hset : setBits (_index dst) U (Z.min n 32) (h (view dst))
                 = (Throw OutOfRange, h (view dst))).
  { unfold setBits.
    destruct (Z.gtb_spec (Z.min n 32)
                         (byteLength (h (view dst)) * 8 - _index dst));
      [reflexivity | lia]. }
  rewrite Hset.
  exists (upd h1 (view dst) (h (view dst))). split; [reflexivity |].
  intros l. destruct (Nat.eq_dec l (view dst)) as [-> | Hl].
  - apply upd_same.
  - rewrite upd_other by exact Hl. apply Hh1.
Qed.

(* ================================================================== *)
(** ** Floats through the scratch view *)
(* ================================================================== *)

Lemma four_bytes_mod (x : Z) :
  (((x / 256 / 256 / 256) mod 256 * 256 + (x / 256 / 256) mod 256) * 256
   + (x / 256) mod 256) * 256 + x mod 256
  = x mod 4294967296.
Proof.
  pose proof (Z.div_mod x 256 ltac:(lia)).
  pose proof (Z.div_mod (x / 256) 256 ltac:(lia)).
  pose proof (Z.div_mod (x / 256 / 256) 256 ltac:(lia)).
  pose proof (Z.div_mod (x / 256 / 256 / 256) 256 ltac:(lia)).
  pose proof (Z.mod_pos_bound x 256 ltac:(lia)).
  pose proof (Z.mod_pos_bound (x / 256) 256 ltac:(lia)).
  pose proof (Z.mod_pos_bound (x / 256 / 256) 256 ltac:(lia)).
  pose proof (Z.mod_pos_bound (x / 256 / 256 / 256) 256 ltac:(lia)).
  apply (Z.mod_unique_pos _ _ (x / 256 / 256 / 256 / 256)); lia.
Qed.

Ltac scratch_bytes :=
  cbn [DataView.set_be DataView.get_be];
  unfold Uint8Array.write, Uint8Array.read;
  cbn [Z.of_nat Pos.of_succ_nat Pos.succ Z.add Pos.add Z.ltb Z.compare
       Z.to_nat Z.mul];
  change (Pos.to_nat 1) with 1%nat;
  change (Pos.to_nat 2) with 2%nat;
  change (Pos.to_nat 3) with 3%nat;
  change (Pos.to_nat 4) with 4%nat;
  change (Pos.to_nat 5) with 5%nat;
  change (Pos.to_nat 6) with 6%nat;
  change (Pos.to_nat 7) with 7%nat;
  cbn [Uint8Array.set_nth nth];
  unfold JS.ToUint8; change (2 ^ 8) with 256.

(** A word stored at byte 0 of the scratch view and read back. *)
Lemma scratch_word (s : list Z) (x : Z) :
  length s = 8%nat ->
  DataView.get_be 4 (DataView.set_be 4 s 0 x) 0 0 = x mod 2 ^ 32 /\
  length (DataView.set_be 4 s 0 x) = 8%nat.
Proof.
  intros Hs.
  do 8 (destruct s as [| ? s]; [discriminate |]).
  destruct s; [| discriminate].
  scratch_bytes. split; [| reflexivity].
  change (2 ^ 32) with 4294967296. apply four_bytes_mod.
Qed.

(** Two words stored at bytes 0 and 4 of the scratch view and read back
    as one number of 64 bits. *)
Lemma scratch_double (s : list Z) (hi lo : Z) :
  length s = 8%nat ->
  DataView.get_be 8 (DataView.set_be 4 (DataView.set_be 4 s 0 hi) 4 lo) 0 0
  = hi mod 2 ^ 32 * 2 ^ 32 + lo mod 2 ^ 32.
Proof.
  intros Hs.
  do 8 (destruct s as [| ? s]; [discriminate |]).
  destruct s; [| discriminate].
  scratch_bytes.
  change (2 ^ 32) with 4294967296.
  rewrite <- (four_bytes_mod hi), <- (four_bytes_mod lo). lia.
Qed.

Lemma setBits_scratch (o v w : Z) (this this' : BitView) (r : result unit) :
  setBits o v w this = (r, this') -> _scratch this' = _scratch this.
Proof.
  unfold setBits. destruct (w >? byteLength this * 8 - o);
    intros E; injection E as _ <-; reflexivity.
Qed.

(** X18. A single-precision number written with [setFloat32] is what
    [getFloat32] reads at the same offset: the 32 bits the platform
    stores for the value are the bits it decodes. *)
Theorem float32_round_trip (this : BitView) (o v : Z) :
  length (_scratch this) = 8%nat ->
  0 <= o -> o + 32 <= byteLength this * 8 -> o + 32 <= 2 ^ 31 ->
  exists this1 this2,
    setFloat32 o v this = (Ok tt, this1) /\
    getFloat32 o this1
    = (Ok (float32_value (float32_bits v mod 2 ^ 32)), this2) /\
    _view this2 = _view this1 /\
    bigEndian this2 = bigEndian this1.
Proof.
  intros Hs Ho Hlen H31.
  unfold setFloat32, bind, scratch_set, scratch_get.
  destruct (scratch_word (_scratch this) (float32_bits v) Hs) as [Hw Hs1].
  unfold DataView.getUint32, DataView_setFloat32.
  cbn [with_scratch _scratch]. rewrite Hw.
  set (u := float32_bits v mod 2 ^ 32).
  set (this0 := with_scratch this _).
  destruct (setBits_then_getBits this0 o u 32)
    as (this1 & Hset & _ & _ & Hget & _); try lia.
  { exact Hlen. }
  pose proof (setBits_scratch _ _ _ _ _ _ Hset) as Hsc.
  rewrite Hset. exists this1. eexists. split; [reflexivity |].
  unfold getFloat32, getUint32, getBitsM, bind, scratch_set, scratch_get.
  rewrite Hget.
  assert (Hu : u mod 2 ^ 32 = u) by (subst u; apply Z.mod_mod; lia).
  rewrite Hu.
  destruct (scratch_word (_scratch this1) (JS.ToUint32 u)) as [Hw1 _].
  { rewrite Hsc. subst this0. cbn [with_scratch _scratch]. exact Hs1. }
  unfold DataView_getFloat32, DataView.setUint32.
  cbn [with_scratch _scratch]. rewrite Hw1.
  unfold JS.ToUint32. rewrite Hu, Hu.
  split; [reflexivity |]. split; reflexivity.
Qed.

Lemma getBits_loop_with_scratch (sc : list Z) (this : BitView) (fuel : nat) :
  forall bits offset i value,
    getBits_loop fuel (with_scratch this sc) bits offset i value
    = getBits_loop fuel this bits offset i value.
Proof.
  induction fuel as [| fuel IH]; intros bits offset i value;
    [reflexivity |].
  cbn [getBits_loop with_scratch _view bigEndian].
  destruct (i <? bits); [| reflexivity].
  destruct (bigEndian this); apply IH.
Qed.

Lemma getBits_with_scratch (sc : list Z) (this : BitView) (o w : Z)
      (signed : bool) :
  getBits (with_scratch this sc) o w signed = getBits this o w signed.
Proof.
  unfold getBits. rewrite getBits_loop_with_scratch. reflexivity.
Qed.

(** X19. [getFloat64] returns the double whose 64 bits are the word at
    [offset], as the high half, and the word at [offset + 32], as the
    low half; the view's bytes are left as they are. *)
Theorem getFloat64_two_words (this : BitView) (o : Z) :
  length (_scratch this) = 8%nat ->
  bytes_ok (_view this) ->
  0 <= o -> o + 64 <= byteLength this * 8 -> o + 64 <= 2 ^ 31 ->
  exists hi lo this',
    getBits this o 32 false = Ok hi /\
    getBits this (o + 32) 32 false = Ok lo /\
    getFloat64 o this = (Ok (hi * 2 ^ 32 + lo), this') /\
    _view this' = _view this /\
    bigEndian this' = bigEndian this.
Proof.
  intros Hs Hok Ho Hlen H31.
  destruct (getBits_results this o 32) as (hi & Hhi & _ & Hgh & _);
    try lia.
  { apply bytes_ok_span, Hok. }
  destruct (getBits_results this (o + 32) 32) as (lo & Hlo & _ & Hgl & _);
    try lia.
  { apply bytes_ok_span, Hok. }
  exists hi, lo. eexists. split; [exact Hgh |]. split; [exact Hgl |].
  unfold getFloat64, getUint32, getBitsM, bind, scratch_set, scratch_get.
  rewrite Hgh.
  rewrite getBits_with_scratch, Hgl.
  unfold DataView.getFloat64, DataView.setUint32.
  cbn [with_scratch _scratch]. rewrite scratch_double by exact Hs.
  unfold JS.ToUint32. rewrite !Z.mod_mod by lia.
  rewrite !Z.mod_small by lia.
  split; [reflexivity |]. split; reflexivity.
Qed.

(* ================================================================== *)
(** ** Byte order *)
(* ================================================================== *)

Lemma byte_cons_bit (b r j : Z) :
  0 <= b < 256 -> 0 <= j ->
  Z.testbit (b + 256 * r) j
  = if j <? 8 then Z.testbit b j else Z.testbit r (j - 8).
Proof.
  intros Hb Hj. destruct (Z.ltb_spec j 8).
  - rewrite <- (Z.mod_pow2_bits_low (b + 256 * r) 8 j) by lia.
    change (2 ^ 8) with 256.
    replace ((b + 256 * r) mod 256) with b; [reflexivity |].
    apply (Z.mod_unique_pos _ _ r); lia.
  - replace j with ((j - 8) + 8) at 1 by lia.
    rewrite <- Z.div_pow2_bits by lia.
    change (2 ^ 8) with 256.
    replace ((b + 256 * r) / 256) with r; [reflexivity |].
    apply (Z.div_unique_pos _ _ r b); lia.
Qed.

Lemma le_bytes_bit (l : list Z) :
  Forall (fun b => 0 <= b < 256) l ->
  forall j, 0 <= j ->
    Z.testbit (le_bytes l) j
    = Z.testbit (nth (Z.to_nat (j / 8)) l 0) (j mod 8).
Proof.
  induction 1 as [| b l Hb _ IH]; intros j Hj.
  - cbn [le_bytes fold_right]. rewrite Z.testbit_0_l.
    destruct (Z.to_nat (j / 8)); cbn [nth]; rewrite Z.testbit_0_l;
      reflexivity.
  - change (le_bytes (b :: l)) with (b + 256 * le_bytes l).
    rewrite byte_cons_bit by assumption.
    pose proof (Z.div_mod j 8 ltac:(lia)) as Hdm.
    pose proof (Z.mod_pos_bound j 8 ltac:(lia)) as Hm.
    destruct (Z.ltb_spec j 8).
    + assert (Hq : j / 8 = 0) by lia.
      rewrite Hq. cbn [Z.to_nat nth]. f_equal. lia.
    + rewrite IH by lia.
      assert (Hq : (j - 8) / 8 = j / 8 - 1).
      { symmetry. apply (Z.div_unique_pos _ _ _ (j mod 8)); lia. }
      assert (Hr : (j - 8) mod 8 = j mod 8).
      { symmetry. apply (Z.mod_unique_pos _ _ (j / 8 - 1)); lia. }
      rewrite Hq, Hr.
      replace (Z.to_nat (j / 8)) with (S (Z.to_nat (j / 8 - 1))) by lia.
      reflexivity.
Qed.

Lemma nth_window (a : list Z) (k n i : nat) :
  (i < n)%nat -> nth i (firstn n (skipn k a)) 0 = nth (k + i) a 0.
Proof.
  intros Hi. revert a. induction k as [| k IH]; intros a.
  - cbn [skipn Nat.add]. revert i Hi a.
    induction n as [| n IHn]; intros i Hi a; [lia |].
    destruct a as [| x a]; [destruct i; reflexivity |].
    destruct i as [| i]; [reflexivity |].
    cbn [firstn nth]. apply IHn. lia.
  - destruct a as [| x a].
    + cbn [skipn]. rewrite firstn_nil. destruct i, k; reflexivity.
    + cbn [skipn Nat.add nth]. apply IH.
Qed.

Lemma read_nth (a : list Z) (i : Z) :
  0 <= i -> Uint8Array.read a i = nth (Z.to_nat i) a 0.
Proof.
  intros Hi. unfold Uint8Array.read.
  destruct (Z.ltb_spec i 0); [lia | reflexivity].
Qed.

(** X20. On a byte boundary, an unsigned read of one to four bytes
    returns the bytes in the byte order of the view's mode: the first
    byte is the least significant one in little-endian mode and the most
    significant one in big-endian mode. *)
Theorem aligned_read_byte_order (this : BitView) (k n : Z) :
  bytes_ok (_view this) ->
  0 <= k -> 1 <= n <= 4 ->
  8 * (k + n) <= byteLength this * 8 -> 8 * (k + n) <= 2 ^ 31 ->
  getBits this (8 * k) (8 * n) false
  = Ok ((if bigEndian this then be_bytes else le_bytes)
          (firstn (Z.to_nat n) (skipn (Z.to_nat k) (_view this)))).
Proof.
  intros Hok Hk Hn Hlen H31.
  destruct (getBits_results this (8 * k) (8 * n))
    as (U & HU & Hbits & -> & _); try lia.
  { apply bytes_ok_span, Hok. }
  f_equal. set (bs := firstn (Z.to_nat n) (skipn (Z.to_nat k) (_view this))).
  assert (Hbs : Forall (fun b => 0 <= b < 256) bs).
  { apply Forall_firstn_of. apply Forall_forall. intros x Hx.
    unfold bytes_ok in Hok. rewrite Forall_forall in Hok. apply Hok.
    revert Hx. generalize (_view this) as a.
    induction (Z.to_nat k) as [| m IH]; intros a Hx; [exact Hx |].
    destruct a as [| y a]; [destruct Hx |].
    right. apply IH, Hx. }
  assert (Hblen : length bs = Z.to_nat n).
  { subst bs. rewrite length_firstn, length_skipn.
    unfold byteLength in Hlen. lia. }
  apply Z.bits_inj'. intros j Hj.
  pose proof (Z.div_mod j 8 ltac:(lia)) as Hdm.
  pose proof (Z.mod_pos_bound j 8 ltac:(lia)) as Hm.
  assert (Htarget :
    Z.testbit ((if bigEndian this then be_bytes else le_bytes) bs) j
    = if j <? 8 * n
      then Z.testbit
             (nth (Z.to_nat (if bigEndian this then n - 1 - j / 8
                             else j / 8)) bs 0) (j mod 8)
      else false).
  { destruct (Z.ltb_spec j (8 * n)) as [Hlt | Hge].
    - destruct (bigEndian this).
      + unfold be_bytes. rewrite le_bytes_bit by (apply Forall_rev, Hbs || lia).
        rewrite rev_nth by lia. f_equal. f_equal. lia.
      + apply le_bytes_bit; [exact Hbs | lia].
    - destruct (bigEndian this).
      + unfold be_bytes. rewrite le_bytes_bit by (apply Forall_rev, Hbs || lia).
        rewrite nth_overflow by (rewrite length_rev; lia).
        apply Z.testbit_0_l.
      + rewrite le_bytes_bit by (exact Hbs || lia).
        rewrite nth_overflow by lia. apply Z.testbit_0_l. }
  rewrite Htarget. destruct (Z.ltb_spec j (8 * n)) as [Hlt | Hge].
  2:{ apply (testbit_above U (8 * n)); lia. }
  rewrite Hbits by lia. unfold bitAt, place.
  subst bs. rewrite nth_window by (destruct (bigEndian this); lia).
  destruct (bigEndian this).
  - assert (Hq : (8 * k + 8 * n - 1 - j) / 8 = k + n - 1 - j / 8).
    { symmetry. apply (Z.div_unique_pos _ _ _ (7 - j mod 8)); lia. }
    assert (Hr : (8 * k + 8 * n - 1 - j) mod 8 = 7 - j mod 8).
    { symmetry. apply (Z.mod_unique_pos _ _ (k + n - 1 - j / 8)); lia. }
    rewrite Hq, Hr, read_nth by lia. f_equal; [f_equal |]; lia.
  - assert (Hq : (8 * k + j) / 8 = k + j / 8).
    { symmetry. apply (Z.div_unique_pos _ _ _ (j mod 8)); lia. }
    assert (Hr : (8 * k + j) mod 8 = j mod 8).
    { symmetry. apply (Z.mod_unique_pos _ _ (k + j / 8)); lia. }
    rewrite Hq, Hr, read_nth by lia. f_equal. f_equal. lia.
Qed.


(* ================================================================== *)
(** ** The mode, the byte index and what reads leave *)
(* ================================================================== *)

(** X21. The endianness mode belongs to the view, not to the stream:
    set through a slice made by [readBitStream], it is the mode the
    parent stream reads in from then on; no byte of the view and no
    other view changes. *)
Theorem bigEndian_set_through_slice (val : bool) (bitLength : Z)
        (this : BitStream) (h : heap) :
  exists slice this' h',
    readBitStream bitLength (this, h) = (Ok slice, (this', h)) /\
    BitStream_set_bigEndian val (slice, h) = (Ok tt, (slice, h')) /\
    fst (BitStream_bigEndian (this', h')) = Ok val /\
    bigEndian (h' (view this)) = val /\
    _view (h' (view this)) = _view (h (view this)) /\
    (forall l, l <> view this -> h' l = h l).
Proof.
  eexists. eexists. eexists.
  split; [reflexivity |]. split; [reflexivity |].
  unfold BitStream_bigEndian, on_view.
  cbn [fst snd newBitStream set_length with_length with_index
       with_startIndex view].
  rewrite upd_same. cbn [fst bigEndian _view].
  split; [reflexivity |]. split; [reflexivity |]. split; [reflexivity |].
  intros l Hl. apply upd_other. exact Hl.
Qed.

(** X22. [byteIndex] is the absolute bit index in bytes, rounded up,
    and its setter assigns the absolute index: on a slice, the
    window-local [index] after setting byte index [val] is
    [8 * val] less the start of the window. *)
Theorem byteIndex_is_absolute (s : BitStream) (val : Z) :
  8 * (byteIndex s - 1) < _index s <= 8 * byteIndex s /\
  byteIndex (set_byteIndex s val) = val /\
  index (set_byteIndex s val) = 8 * val - _startIndex s.
Proof.
  unfold byteIndex, set_byteIndex, index.
  cbn [with_index _index _startIndex].
  pose proof (Z.div_mod (- _index s) 8 ltac:(lia)) as Hd.
  pose proof (Z.mod_pos_bound (- _index s) 8 ltac:(lia)) as Hm.
  split; [lia |]. split; [| lia].
  replace (- (val * 8)) with ((- val) * 8) by lia.
  rewrite Z.div_mul by lia. lia.
Qed.

Lemma getBitsM_keeps (o w : Z) (signed : bool) :
  keeps_view (getBitsM o w signed).
Proof. intros this. split; reflexivity. Qed.

Lemma getBoolean_keeps (o : Z) : keeps_view (getBoolean o).
Proof.
  intros this. unfold getBoolean, bind, getBitsM, ret.
  destruct (getBits this o 1 false); split; reflexivity.
Qed.

Lemma getFloat32_keeps (o : Z) : keeps_view (getFloat32 o).
Proof.
  intros this.
  unfold getFloat32, getUint32, bind, getBitsM, scratch_set, scratch_get.
  destruct (getBits this o 32 false); split; reflexivity.
Qed.

Lemma getFloat64_keeps (o : Z) : keeps_view (getFloat64 o).
Proof.
  intros this.
  unfold getFloat64, getUint32, bind, getBitsM, scratch_set, scratch_get.
  destruct (getBits this o 32 false); [| split; reflexivity].
  rewrite getBits_with_scratch.
  destruct (getBits this (o + 32) 32 false); split; reflexivity.
Qed.

Lemma same_bytes_refl (h : heap) : same_bytes h h.
Proof. intros l. split; reflexivity. Qed.

Lemma same_bytes_trans (h1 h2 h3 : heap) :
  same_bytes h1 h2 -> same_bytes h2 h3 -> same_bytes h1 h3.
Proof.
  intros H12 H23 l. destruct (H12 l), (H23 l). split; congruence.
Qed.

Lemma on_view_keeps {T} (name : M BitView T) (s : BitStream) (h : heap) :
  keeps_view name ->
  fst (snd (on_view name (s, h))) = s /\
  same_bytes h (snd (snd (on_view name (s, h)))).
Proof.
  intros Hk. unfold on_view. cbn [fst snd].
  specialize (Hk (h (view s))).
  destruct (name (h (view s))) as [r v']. cbn [fst snd] in *.
  split; [reflexivity |]. intros l.
  destruct (Nat.eq_dec l (view s)) as [-> | Hl].
  - rewrite upd_same. exact Hk.
  - rewrite upd_other by exact Hl. split; reflexivity.
Qed.

Lemma reader_keeps {T} (name : Z -> M BitView T) (size : Z)
      (s : BitStream) (h : heap) :
  (forall o, keeps_view (name o)) ->
  same_bytes h (snd (snd (reader name size (s, h)))).
Proof.
  intros Hk. unfold reader, bind, this_, throw, set_index_, ret.
  cbn [fst snd].
  destruct (_index s + size >? _length s); [apply same_bytes_refl |].
  pose proof (on_view_keeps (name (_index s)) s h (Hk _)) as [_ Hs].
  destruct (on_view (name (_index s)) (s, h)) as [[v | e] [s' h']];
    exact Hs.
Qed.

Lemma readString_loop_keeps (bytes : JS.number) (fixedLength : bool)
      (fuel : nat) :
  forall (i : Z) (chars : list Z) (append : bool) (s : BitStream)
         (h : heap),
    same_bytes h
      (snd (snd (readString_loop fuel bytes fixedLength i chars append
                                 (s, h)))).
Proof.
  induction fuel as [| fuel IH]; intros i chars append s h;
    [apply same_bytes_refl |].
  cbn [readString_loop].
  destruct (JS.lt i bytes); [| apply same_bytes_refl].
  unfold bind.
  pose proof (reader_keeps getUint8 8 s h
                           (fun o => getBitsM_keeps o 8 false)) as Hr.
  fold readUint8 in Hr.
  destruct (readUint8 (s, h)) as [[c | e] [s1 h1]]; [| exact Hr].
  cbn [snd] in Hr.
  destruct ((c =? 0) && negb fixedLength); [exact Hr |].
  eapply same_bytes_trans; [exact Hr | apply IH].
Qed.

(** X23. Reading never writes: after any typed read, [readBits] or
    string read, successful or not, every view holds the bytes and the
    mode it had (the float reads use the scratch area of the view
    only). *)
Theorem reads_never_write (p : prim) (bits : Z) (signed : option bool)
        (length : Z) (index count : option Z) (s : BitStream) (h : heap) :
  same_bytes h (snd (snd (read_prim p (s, h)))) /\
  same_bytes h (snd (snd (readBits bits signed (s, h)))) /\
  same_bytes h (snd (snd (readASCIIString length index count (s, h)))) /\
  same_bytes h (snd (snd (readUTF8String length index count (s, h)))).
Proof.
  split; [| split].
  - destruct p; cbn [read_prim]; apply reader_keeps; intros o;
      first [apply getBitsM_keeps | apply getBoolean_keeps
            | apply getFloat32_keeps | apply getFloat64_keeps].
  - unfold readBits, bind, this_, set_index_, ret. cbn [fst snd].
    pose proof (on_view_keeps
                  (getBitsM (_index s) bits
                     match signed with Some b => b | None => false end)
                  s h (getBitsM_keeps _ _ _)) as [_ Hs].
    destruct (on_view _ (s, h)) as [[v | e] [s' h']]; exact Hs.
  - assert (H : forall utf8,
               same_bytes h
                 (snd (snd (readString length index utf8 count (s, h))))).
    { intros utf8. unfold readString.
      destruct count as [[| c | c] |]; try apply same_bytes_refl;
        unfold bind;
        match goal with
        | |- context [readString_loop ?f ?b ?fx ?i ?c ?a (s, h)] =>
          pose proof (readString_loop_keeps b fx f i c a s h) as Hl;
          destruct (readString_loop f b fx i c a (s, h))
            as [[chars | e] [s' h']]
        end;
        try exact Hl;
        (destruct utf8; [destruct (utf8_decode _) |]; exact Hl). }
    split; apply H.
Qed.

End BitBuffer.

(* ================================================================== *)
(** ** Instances and the limits of the statements above *)
(* ================================================================== *)

(** Closed comparisons of integers, by evaluation. *)
Ltac closed_arith :=
  repeat split; vm_compute; first [reflexivity | discriminate].

(** The round trip at a 13-bit signed value across three bytes. *)
Lemma setBits_getBits_roundtrip_witness :
  exists this',
    setBits 3 (-5) 13 (newBitView [0; 0; 0]) = (Ok tt, this') /\
    bigEndian this' = false /\
    getBits this' 3 13 true = Ok (-5).
Proof.
  apply (setBits_getBits_roundtrip (newBitView [0; 0; 0]) 3 (-5) 13 true);
    closed_arith.
Defined.

(** Past bit [2 ^ 31] the byte address [offset >> 3] of the two loops is
    negative: [setBits] stores nothing and [getBits] reads zeros, within
    the bounds of a view of [2 ^ 28 + 1] bytes. *)
Lemma high_offset_lost (a : Uint8Array.t) :
  Z.of_nat (length a) = 268435457 ->
  setBits 2147483648 1 1 (newBitView a) = (Ok tt, newBitView a) /\
  getBits (newBitView a) 2147483648 1 false = Ok 0.
Proof.
  intros Hlen. unfold setBits, getBits, byteLength.
  cbn [newBitView _view bigEndian with_view _scratch]. rewrite Hlen.
  split; vm_compute; reflexivity.
Qed.

(** C1, past bit [2 ^ 31]. On a view of [2 ^ 28 + 1] zero bytes the
    value 1 fits in one bit and bit [2 ^ 31] lies within the view, so
    the bounds check of [setBits] lets the call through; the byte
    address [offset >> 3] is then negative, the store is dropped
    without an error and the view stays as it was, and [getBits] at
    the same offset returns 0, not the 1 that was written. *)
Theorem roundtrip_fails_past_2_31 :
  let this := newBitView (repeat 0 (Z.to_nat 268435457)) in
  representable false 1 1 /\
  2147483648 + 1 <= byteLength this * 8 /\
  setBits 2147483648 1 1 this = (Ok tt, this) /\
  getBits this 2147483648 1 false = Ok 0.
Proof.
  cbv zeta.
  assert (Hlen : Z.of_nat (length (repeat 0 (Z.to_nat 268435457)))
                 = 268435457).
  { rewrite repeat_length. apply Z2Nat.id. discriminate. }
  split; [unfold representable; split; [discriminate | reflexivity] |].
  split; [unfold byteLength; cbn [newBitView _view]; rewrite Hlen;
          discriminate |].
  apply high_offset_lost. exact Hlen.
Qed.


Example first_byte_is_a_slice :
  readBitStream 8 (parent, two_bytes)
  = (Ok first_byte, (mkBitStream 0%nat 0 16 8, two_bytes)).
Proof. reflexivity. Qed.

(** C4 at a typed read within the window, and at one at its end. *)
Lemma typed_read_keeps_window_witness :
  cursor_inv (fst (snd (readUint8 (first_byte, two_bytes)))) /\
  cursor_inv
    (fst (snd (readUint8 (snd (readUint8 (first_byte, two_bytes)))))).
Proof.
  split.
  - refine (proj1 (proj1 (typed_read_keeps_window
                            (fun u => u) Uint8 (first_byte, two_bytes) _))).
    closed_arith.
  - refine (proj1 (proj1 (typed_read_keeps_window
                            (fun u => u) Uint8
                            (snd (readUint8 (first_byte, two_bytes))) _))).
    closed_arith.
Defined.

(** C4 fails for [readBitStream], [readBits], [writeBits] and the typed
    writers: each succeeds here and leaves the index past the length of
    the stream it ran on. *)
Lemma window_not_enforced :
  (cursor_inv parent /\
   exists slice c',
     readBitStream 24 (parent, two_bytes) = (Ok slice, (c', two_bytes)) /\
     _index c' = 24 /\ _length c' = 16) /\
  (cursor_inv first_byte /\
   exists v s' h',
     readBits 16 None (first_byte, two_bytes) = (Ok v, (s', h')) /\
     _index s' = 16 /\ _length s' = 8) /\
  (exists s' h',
     writeBits 513 16 (first_byte, two_bytes) = (Ok tt, (s', h')) /\
     _index s' = 16 /\ _length s' = 8 /\
     _view (h' 0%nat) = [1; 2]) /\
  (exists s' h',
     writeUint16 513 (first_byte, two_bytes) = (Ok tt, (s', h')) /\
     _index s' = 16 /\ _length s' = 8 /\
     _view (h' 0%nat) = [1; 2]).
Proof.
  split; [| split; [| split]].
  - split; [closed_arith |].
    eexists. eexists. split; [reflexivity |]. split; reflexivity.
  - split; [closed_arith |].
    eexists. eexists. eexists. split; [reflexivity |]. split; reflexivity.
  - eexists. eexists. split; [reflexivity |]. repeat split.
  - eexists. eexists. split; [reflexivity |]. repeat split.
Qed.

(** C6 fails at two one-byte writes through the sub-stream of the first
    byte: the second one lands in the second byte of the buffer, outside
    the window. *)
Lemma write_past_window :
  length_ first_byte = 8 /\
  Uint8Array.read (_view (two_bytes 0%nat)) 1 = 0 /\
  exists s' h',
    run_writes (fun d => d) [WPrim Uint8 1; WPrim Uint8 2]
               (first_byte, two_bytes)
    = (Ok tt, (s', h')) /\
    _view (h' 0%nat) = [1; 2] /\
    Uint8Array.read (_view (h' 0%nat)) 1 = 2.
Proof.
  split; [reflexivity |]. split; [reflexivity |].
  eexists. eexists. split; [reflexivity |]. split; reflexivity.
Qed.

(** C6 at one byte written through the sub-stream of the first byte: the
    second byte of the buffer is kept. *)
Lemma writes_within_window_witness :
  view_frame 0 8 (two_bytes 0%nat)
             (snd (snd (run_writes (fun d => d) [WPrim Uint8 1]
                                   (first_byte, two_bytes))) 0%nat).
Proof.
  refine (writes_within_window
            (fun d => d) [WPrim Uint8 1] first_byte two_bytes
            _ _ _ _).
  - repeat constructor.
  - closed_arith.
  - closed_arith.
  - closed_arith.
Defined.

(* ================================================================== *)
(** ** Instances of the further properties *)
(* ================================================================== *)

Ltac closed_forall :=
  repeat first [apply Forall_nil | apply Forall_cons];
  cbv beta; closed_arith.

(** The bytes a view holds, one index after the other. *)
Ltac closed_holds :=
  let j := fresh "j" in
  let Hj := fresh "Hj" in
  intros j Hj;
  repeat (destruct j as [| j]; [reflexivity |]);
  exfalso; simpl in Hj; lia.

(** X1 at nine bits across two bytes. *)
Lemma getBits_signed_unsigned_witness :
  exists U,
    getBits (newBitView [0xb2; 0x01; 0]) 3 9 false = Ok U /\
    getBits (newBitView [0xb2; 0x01; 0]) 3 9 true = Ok (signed_of 9 U).
Proof.
  destruct (getBits_signed_unsigned (newBitView [0xb2; 0x01; 0]) 3 9)
    as (U & Hu & _ & Hs & _).
  - closed_forall.
  - closed_arith.
  - closed_arith.
  - closed_arith.
  - closed_arith.
  - exists U. split; assumption.
Defined.

(** X2 at a value of nine bits stored in eight. *)
Lemma setBits_getBits_wrap_witness :
  exists this',
    setBits 3 300 8 (newBitView [0; 0; 0]) = (Ok tt, this') /\
    getBits this' 3 8 false = Ok 44.
Proof.
  destruct (setBits_getBits_wrap (newBitView [0; 0; 0]) 3 300 8)
    as (this' & Hset & Hget & _).
  - closed_arith.
  - closed_arith.
  - closed_arith.
  - closed_arith.
  - exists this'. split; assumption.
Defined.

(** X4 at the two middle bytes of four. *)
Lemma getArrayBuffer_copies_witness :
  exists b,
    getArrayBuffer_from (8 * 1) 2 (newBitView [1; 2; 3; 4])
    = (Ok b, newBitView [1; 2; 3; 4]) /\
    b = [2; 3].
Proof.
  destruct (getArrayBuffer_copies 1 2 (newBitView [1; 2; 3; 4]))
    as (b & _ & Hrun & Hb).
  - closed_forall.
  - closed_arith.
  - closed_arith.
  - closed_arith.
  - closed_arith.
  - exists b. split; assumption.
Defined.

(** X6 at a negative 16-bit number. *)
Lemma typed_write_then_read_witness :
  exists s1 h1 h2,
    writeInt16 (-2) (parent, two_bytes) = (Ok tt, (s1, h1)) /\
    readInt16 (set_index s1 (index parent), h1) = (Ok (-2), (s1, h2)).
Proof.
  destruct (typed_write_then_read (fun d => d) (fun u => u) Int16 (-2)
                                  parent two_bytes)
    as (s1 & h1 & h2 & Hw & _ & Hr & _).
  - closed_arith.
  - closed_arith.
  - closed_arith.
  - closed_arith.
  - closed_arith.
  - exists s1, h1, h2. split; assumption.
Defined.

(** C10 at a string of three characters on the buffer of four bytes:
    the terminator takes the place of the fourth byte. *)
Lemma write_string_zero_count_witness :
  exists h',
    writeASCIIString [65; 66; 67] (Some 0)
                     (newBitStream four_bytes 0%nat, four_bytes)
    = (Ok tt, (with_index (newBitStream four_bytes 0%nat) 32, h')) /\
    holds_bytes (h' 0%nat) 0 [65; 66; 67; 0].
Proof.
  destruct (write_string_zero_count [65; 66; 67]
              (newBitStream four_bytes 0%nat) four_bytes)
    as (_ & Hascii & _).
  - closed_arith.
  - destruct Hascii as (h' & Hw & Hh & _).
    + closed_arith.
    + exists h'. split; [exact Hw | exact Hh].
Defined.

(** X7 at a string of two characters and a count of four: two zero
    bytes follow the string, the second over a byte that was not zero. *)
Lemma write_string_fixed_count_witness :
  exists h',
    writeASCIIString [65; 66] (Some 4)
                     (newBitStream four_bytes 0%nat, four_bytes)
    = (Ok tt, (with_index (newBitStream four_bytes 0%nat) 32, h')) /\
    holds_bytes (h' 0%nat) 0 [65; 66; 0; 0].
Proof.
  destruct (write_string_fixed_count [65; 66] 4
              (newBitStream four_bytes 0%nat) four_bytes)
    as ((h' & Hw & Hh & _) & _).
  - closed_arith.
  - closed_arith.
  - closed_arith.
  - closed_arith.
  - exists h'. split; [exact Hw | exact Hh].
Defined.

(** X8 at code units of one, two and three bytes, and at the pair of
    surrogates of U+1F600. *)
Lemma stringToByteArray_decodes_witness :
  utf8_units (length (stringToByteArray [0x48; 0xe9; 0x20ac]))
             (stringToByteArray [0x48; 0xe9; 0x20ac])
  = Some [0x48; 0xe9; 0x20ac] /\
  stringToByteArray [0xd83d; 0xde00] = [0xed; 0xa0; 0xbd; 0xed; 0xb8; 0x80] /\
  utf8_units (length (stringToByteArray [0xd83d; 0xde00]))
             (stringToByteArray [0xd83d; 0xde00])
  = None.
Proof.
  split; [| split; [reflexivity |]].
  - refine (proj1 (proj2 (proj2
              (stringToByteArray_decodes [0x48; 0xe9; 0x20ac] _))) _).
    + closed_forall.
    + repeat first [apply Forall_nil | apply Forall_cons];
        unfold surrogate; lia.
  - refine (proj2 (proj2 (proj2
              (stringToByteArray_decodes [0xd83d; 0xde00] _))) _).
    + closed_forall.
    + apply Exists_cons_hd. unfold surrogate. lia.
Defined.

(** X9 at a string of two ASCII characters. *)
Lemma stringToByteArray_ascii_witness :
  stringToByteArray [72; 105] = [72; 105].
Proof.
  refine (proj1 (stringToByteArray_ascii [72; 105] _)).
  closed_forall.
Defined.

(** X10 at four bytes with a zero byte among them. *)
Lemma read_string_fixed_count_witness :
  exists h1,
    readASCIIString (fun _ => None) 0 None (Some 4)
                    (newBitStream four_bytes 0%nat, four_bytes)
    = (Ok [72; 105],
       (with_index (newBitStream four_bytes 0%nat) 32, h1)).
Proof.
  destruct (read_string_fixed_count (fun _ => None) 0 None 4
              [72; 105; 0; 33] (newBitStream four_bytes 0%nat) four_bytes)
    as (h1 & _ & Hr & _).
  - closed_arith.
  - reflexivity.
  - closed_holds.
  - closed_arith.
  - exists h1. exact Hr.
Defined.

(** X11 at a zero-terminated string of two characters. *)
Lemma read_string_until_zero_witness :
  exists h1,
    readASCIIString (fun _ => None) 4 (Some 0) None
                    (newBitStream four_bytes 0%nat, four_bytes)
    = (Ok [72; 105],
       (with_index (newBitStream four_bytes 0%nat) 24, h1)).
Proof.
  destruct (read_string_until_zero (fun _ => None) 4 0 [72; 105]
              (newBitStream four_bytes 0%nat) four_bytes)
    as (h1 & _ & Hr & _).
  - closed_forall.
  - closed_arith.
  - closed_holds.
  - closed_arith.
  - exists h1. exact Hr.
Defined.

(** X12 at a bound of two bytes, reached before the zero byte. *)
Lemma read_string_to_bound_witness :
  exists h1,
    readASCIIString (fun _ => None) 2 (Some 0) None
                    (newBitStream four_bytes 0%nat, four_bytes)
    = (Ok [72; 105],
       (with_index (newBitStream four_bytes 0%nat) 16, h1)).
Proof.
  destruct (read_string_to_bound (fun _ => None) 2 0 [72; 105]
              (newBitStream four_bytes 0%nat) four_bytes)
    as (h1 & Hr & _).
  - closed_forall.
  - reflexivity.
  - closed_holds.
  - closed_arith.
  - exists h1. exact Hr.
Defined.

(** X13 at a string of one character on the two-byte buffer. *)
Lemma ascii_string_round_trip_witness :
  exists s1 h1 h2,
    writeASCIIString [72] None (parent, two_bytes) = (Ok tt, (s1, h1)) /\
    readASCIIString (fun _ => None) 2 (Some 0) None
                    (set_index s1 (index parent), h1)
    = (Ok [72], (s1, h2)).
Proof.
  destruct (ascii_string_round_trip (fun _ => None) [72] 2 0
                                    parent two_bytes)
    as (s1 & h1 & h2 & Hw & _ & Hr & _).
  - closed_forall.
  - closed_arith.
  - closed_arith.
  - closed_arith.
  - closed_arith.
  - closed_arith.
  - exists s1, h1, h2. split; assumption.
Defined.

(** X14 at a string of three characters cut to two. *)
Lemma ascii_string_fixed_round_trip_witness :
  exists s1 h1 h2,
    writeASCIIString [72; 105; 33] (Some 2) (parent, two_bytes)
    = (Ok tt, (s1, h1)) /\
    readASCIIString (fun _ => None) 0 None (Some 2)
                    (set_index s1 (index parent), h1)
    = (Ok [72; 105], (s1, h2)).
Proof.
  destruct (ascii_string_fixed_round_trip (fun _ => None) [72; 105; 33]
                                          2 0 None parent two_bytes)
    as (s1 & h1 & h2 & Hw & _ & Hr & _).
  - closed_forall.
  - closed_arith.
  - closed_arith.
  - closed_arith.
  - closed_arith.
  - closed_arith.
  - exists s1, h1, h2. split; assumption.
Defined.

(** X15 at a code unit of two bytes, with a decoder that always fails. *)
Lemma utf8_string_round_trip_witness :
  exists s1 h1 h3,
    writeUTF8String [0xe9] None (newBitStream four_bytes 0%nat, four_bytes)
    = (Ok tt, (s1, h1)) /\
    readUTF8String (fun _ => None) 3 (Some 0) None
                   (set_index s1 (index (newBitStream four_bytes 0%nat)), h1)
    = (Ok [0xc3; 0xa9], (s1, h3)).
Proof.
  destruct (utf8_string_round_trip (fun _ => None) [0xe9] 3 0
              (newBitStream four_bytes 0%nat) four_bytes)
    as (s1 & h1 & h2 & h3 & Hw & _ & _ & Hr & _).
  - closed_forall.
  - closed_arith.
  - closed_arith.
  - closed_arith.
  - closed_arith.
  - closed_arith.
  - exists s1, h1, h3. split; assumption.
Defined.

(** X16 at the first two bytes of a view of four copied over its last
    two, through two streams on the view. *)
Lemma writeBitStream_copies_witness :
  exists h',
    writeBitStream None
      (mkBitStream 0%nat 0 16 0, (mkBitStream 0%nat 0 32 16, four_bytes))
    = (Ok tt,
       (mkBitStream 0%nat 0 16 16, (mkBitStream 0%nat 0 32 32, h'))) /\
    forall j, 0 <= j < 16 ->
      bitAt false (_view (h' 0%nat)) (16 + j)
      = bitAt false [72; 105; 0; 33] (0 + j).
Proof.
  destruct (writeBitStream_copies None 16
              (mkBitStream 0%nat 0 16 0) (mkBitStream 0%nat 0 32 16)
              four_bytes)
    as (h' & Hrun & _ & Hcopy).
  - reflexivity.
  - closed_arith.
  - reflexivity.
  - closed_forall.
  - closed_arith.
  - closed_arith.
  - left. closed_arith.
  - closed_arith.
  - closed_arith.
  - closed_arith.
  - closed_arith.
  - exists h'. split; [exact Hrun | exact Hcopy].
Defined.

(** X17 at a destination whose cursor is at the end of its buffer. *)
Lemma writeBitStream_source_runs_ahead_witness :
  exists h',
    writeBitStream (Some 8) (parent, (mkBitStream 0%nat 0 16 16, two_bytes))
    = (Throw OutOfRange,
       (with_index parent 8, (mkBitStream 0%nat 0 16 16, h'))).
Proof.
  destruct (writeBitStream_source_runs_ahead
              8 parent (mkBitStream 0%nat 0 16 16) two_bytes)
    as (h' & Hrun & _).
  - closed_arith.
  - closed_arith.
  - closed_arith.
  - exists h'. exact Hrun.
Defined.

(** X18 at the bits of 1.0 in single precision, the casts taken as the
    identity on bit patterns. *)
Lemma float32_round_trip_witness :
  exists this1 this2,
    setFloat32 (fun d => d) 0 0x3f800000 (newBitView [0; 0; 0; 0])
    = (Ok tt, this1) /\
    getFloat32 (fun u => u) 0 this1 = (Ok 0x3f800000, this2).
Proof.
  destruct (float32_round_trip (fun d => d) (fun u => u)
                               (newBitView [0; 0; 0; 0]) 0 0x3f800000)
    as (this1 & this2 & Hset & Hget & _).
  - reflexivity.
  - closed_arith.
  - closed_arith.
  - closed_arith.
  - exists this1, this2. split; assumption.
Defined.

(** X19 at the eight bytes of 1.0 in a big-endian view. *)
Lemma getFloat64_two_words_witness :
  exists hi lo this',
    getBits (mkBitView [0x3f; 0xf0; 0; 0; 0; 0; 0; 0] (repeat 0 8) true)
            0 32 false = Ok hi /\
    getBits (mkBitView [0x3f; 0xf0; 0; 0; 0; 0; 0; 0] (repeat 0 8) true)
            (0 + 32) 32 false = Ok lo /\
    getFloat64 0 (mkBitView [0x3f; 0xf0; 0; 0; 0; 0; 0; 0] (repeat 0 8) true)
    = (Ok (hi * 2 ^ 32 + lo), this').
Proof.
  destruct (getFloat64_two_words
              (mkBitView [0x3f; 0xf0; 0; 0; 0; 0; 0; 0] (repeat 0 8) true) 0)
    as (hi & lo & this' & Hhi & Hlo & Hget & _).
  - reflexivity.
  - closed_forall.
  - closed_arith.
  - closed_arith.
  - closed_arith.
  - exists hi, lo, this'. split; [| split]; assumption.
Defined.

(** X20 at the two middle bytes of four, in big-endian mode. *)
Lemma aligned_read_byte_order_witness :
  getBits (mkBitView [1; 2; 3; 4] (repeat 0 8) true) (8 * 1) (8 * 2) false
  = Ok 515.
Proof.
  apply (aligned_read_byte_order
           (mkBitView [1; 2; 3; 4] (repeat 0 8) true) 1 2).
  - closed_forall.
  - closed_arith.
  - closed_arith.
  - closed_arith.
  - closed_arith.
Defined.
